(** * lockfree::spsc_queue — a sequential model and its verification

    The queue of [lockfree/spsc_queue.hpp] is a singly linked chain of nodes
    [cache_head … cache_tail … before_head … tail] that lives in allocator
    memory.  This file embeds the class as a state-passing program over an
    explicit node heap, and proves the properties the specification states
    about one producer and one consumer whose calls do not overlap.

    Conventions.
    - A node address is a [positive]; a [node_type*] is a [ptr], with [None]
      for [nullptr].
    - The heap maps every address handed out by the allocator and not yet
      given back to its node.  A node's [data] is [Some v] exactly while a
      [T] is constructed in it.
    - Every allocator call and every atomic store is appended to the [trace]
      of the state, in program order, with the memory order of the store.
    - An operation returns an [outcome]: it returns normally, a C++ exception
      leaves it, or it has no defined behaviour (it dereferences a pointer
      that is null or dangling, constructs over a live object, destroys a
      dead one), or the loop bound of the model is exhausted.

    Scope.
    - The allocator always has a block to hand out, and the block is one
      that is not in use.
    - The constructor of [T] and the user function of [consume_all] may
      throw; the move assignment into the out-parameter of [pop] does not.
    - Threads are not modelled: a history is a sequence of complete calls,
      in any order of producer and consumer calls.

    The pair [lockfree/compressed_pair.hpp] keeps [cache_head_] and the
    allocator in is modelled as its two members, with the comparison
    operators of the source.

    The file has three parts: the program, the vocabulary of its
    specification, and the proofs. *)

From stdpp Require Import gmap list fin_maps.

Set Default Proof Using "Type".

(** * The program

    ** Data model *)

Abbreviation addr := positive (only parsing).
Abbreviation ptr := (option positive) (only parsing).

(** The [std::memory_order] arguments that occur in the source. *)
Inductive memory_order := mo_relaxed | mo_consume | mo_release.

Section Queue.

Context {T : Type}.

(** [struct node_type { T data; std::atomic<node_type*> next; }] *)
Record node_type := Node {
  data : option T;
  next : ptr;
}.

(** What the allocator and the atomics are asked to do. *)
Inductive event :=
| Allocate (a : addr)                  (* node_alloc_traits::allocate(a, 1) *)
| Deallocate (a : addr)                (* node_alloc_traits::deallocate(a, x, 1) *)
| Construct_data (a : addr) (v : T)    (* construct(a, &x->data, args...) returned *)
| Construct_failed (a : addr)          (* construct(a, &x->data, args...) threw *)
| Construct_next (a : addr)            (* construct(a, &x->next, nullptr) *)
| Destroy_data (a : addr)              (* destroy(a, &x->data) *)
| Store_next (a : addr) (x : ptr) (mo : memory_order)   (* a->next.store(x, mo) *)
| Store_before_head (x : ptr) (mo : memory_order)       (* before_head_.store(x, mo) *)
| Invoke (v : T).                      (* std::invoke(f, x->data) *)

(** The members of [spsc_queue], the allocator's memory and the trace. *)
Record queue := Queue {
  tail_ : ptr;
  before_head_ : ptr;
  cache_tail_ : ptr;
  cache_head_ : ptr;
  heap : gmap positive node_type;
  next_addr : addr;        (* the address the allocator hands out next *)
  trace : list event;
}.

Definition set_tail (x : ptr) (s : queue) : queue :=
  Queue x (before_head_ s) (cache_tail_ s) (cache_head_ s)
        (heap s) (next_addr s) (trace s).
Definition set_before_head (x : ptr) (s : queue) : queue :=
  Queue (tail_ s) x (cache_tail_ s) (cache_head_ s)
        (heap s) (next_addr s) (trace s).
Definition set_cache_tail (x : ptr) (s : queue) : queue :=
  Queue (tail_ s) (before_head_ s) x (cache_head_ s)
        (heap s) (next_addr s) (trace s).
Definition set_cache_head (x : ptr) (s : queue) : queue :=
  Queue (tail_ s) (before_head_ s) (cache_tail_ s) x
        (heap s) (next_addr s) (trace s).
Definition set_heap (h : gmap positive node_type) (s : queue) : queue :=
  Queue (tail_ s) (before_head_ s) (cache_tail_ s) (cache_head_ s)
        h (next_addr s) (trace s).
Definition set_next_addr (a : addr) (s : queue) : queue :=
  Queue (tail_ s) (before_head_ s) (cache_tail_ s) (cache_head_ s)
        (heap s) a (trace s).
Definition record (e : event) (s : queue) : queue :=
  Queue (tail_ s) (before_head_ s) (cache_tail_ s) (cache_head_ s)
        (heap s) (next_addr s) (trace s ++ [e]).

(** ** Outcomes and the monad of member functions *)

Inductive outcome (A : Type) :=
| Ret (a : A) (s : queue)     (* normal return *)
| Throw (s : queue)           (* an exception propagates to the caller *)
| Undefined                   (* undefined behaviour *)
| Stuck.                      (* the model's loop bound ran out *)
Arguments Ret {A} a s.
Arguments Throw {A} s.
Arguments Undefined {A}.
Arguments Stuck {A}.

Definition M (A : Type) : Type := queue → outcome A.

Definition ret {A} (a : A) : M A := λ s, Ret a s.
Definition bind {A B} (k : A → M B) (m : M A) : M B :=
  λ s, match m s with
       | Ret a s' => k a s'
       | Throw s' => Throw s'
       | Undefined => Undefined
       | Stuck => Stuck
       end.
#[global] Instance M_ret : MRet M := @ret.
#[global] Instance M_bind : MBind M := @bind.

Definition throw {A} : M A := λ s, Throw s.
Definition undefined {A} : M A := λ _, Undefined.
Definition stuck {A} : M A := λ _, Stuck.
Definition get {A} (f : queue → A) : M A := λ s, Ret (f s) s.
Definition modify (f : queue → queue) : M unit := λ s, Ret tt (f s).

(** [try { m } catch (...) { h }] *)
Definition try_catch {A} (m : M A) (h : M A) : M A :=
  λ s, match m s with
       | Throw s' => h s'
       | r => r
       end.

(** ** Nodes and the allocator *)

(** Dereference a node pointer. *)
Definition deref (x : ptr) : M (addr * node_type) :=
  λ s, match x with
       | None => Undefined
       | Some a => match heap s !! a with
                   | Some n => Ret (a, n) s
                   | None => Undefined
                   end
       end.

Definition write_node (a : addr) (n : node_type) : M unit :=
  modify (λ s, set_heap (<[a := n]> (heap s)) s).

(** [x->next.load(mo)] *)
Definition load_next (x : ptr) (mo : memory_order) : M ptr :=
  '(_, n) ← deref x; mret (next n).

(** [x->next.store(y, mo)] *)
Definition store_next (x : ptr) (y : ptr) (mo : memory_order) : M unit :=
  '(a, n) ← deref x;
  write_node a (Node (data n) y) ;;
  modify (record (Store_next a y mo)).

(** [before_head_.store(x, mo)] *)
Definition store_before_head (x : ptr) (mo : memory_order) : M unit :=
  modify (set_before_head x) ;;
  modify (record (Store_before_head x mo)).

(** [node_alloc_traits::allocate(alloc_(), 1)]: a block nobody else holds.
    Neither member of the fresh node is constructed; the [next] member is
    always constructed before it is read. *)
Definition allocate : M ptr :=
  a ← get next_addr;
  modify (set_next_addr (Pos.succ a)) ;;
  write_node a (Node None None) ;;
  modify (record (Allocate a)) ;;
  mret (Some a).

(** [node_alloc_traits::deallocate(alloc_(), x, 1)] *)
Definition deallocate (x : ptr) : M unit :=
  '(a, _) ← deref x;
  modify (λ s, set_heap (delete a (heap s)) s) ;;
  modify (record (Deallocate a)).

(** [node_alloc_traits::construct(alloc_(), std::addressof(x->data), args...)].
    The argument is what [T]'s constructor makes of [args...]: [Some v] when
    it returns, [None] when it throws. *)
Definition construct_data (x : ptr) (arg : option T) : M unit :=
  '(a, n) ← deref x;
  match data n with
  | Some _ => undefined
  | None =>
      match arg with
      | Some v =>
          write_node a (Node (Some v) (next n)) ;;
          modify (record (Construct_data a v))
      | None => modify (record (Construct_failed a)) ;; throw
      end
  end.

(** [node_alloc_traits::construct(alloc_(), std::addressof(x->next), nullptr)] *)
Definition construct_next (x : ptr) : M unit :=
  '(a, n) ← deref x;
  write_node a (Node (data n) None) ;;
  modify (record (Construct_next a)).

(** [node_alloc_traits::destroy(alloc_(), std::addressof(x->data))] *)
Definition destroy_data (x : ptr) : M unit :=
  '(a, n) ← deref x;
  match data n with
  | None => undefined
  | Some _ =>
      write_node a (Node None (next n)) ;;
      modify (record (Destroy_data a))
  end.

(** Read the live [x->data]. *)
Definition read_data (x : ptr) : M T :=
  '(_, n) ← deref x;
  match data n with
  | Some v => mret v
  | None => undefined
  end.

(** ** The member functions *)

(** [explicit spsc_queue(node_allocator a)], on an allocator whose next free
    block is [a0]. *)
Definition spsc_queue_new (a0 : addr) : queue :=
  Queue (Some a0) (Some a0) (Some a0) (Some a0)
        {[ a0 := Node None None ]} (Pos.succ a0)
        [Allocate a0; Construct_next a0].

(** [advance_(x)]: returns the old [x] and the value [x] is set to. *)
Definition advance_ (x : ptr) : M (ptr * ptr) :=
  n ← load_next x mo_relaxed; mret (x, n).

(** [head_()] *)
Definition head_ : M ptr :=
  x ← get before_head_;
  match x with
  | None => undefined            (* assert(x && "before_head can never be null") *)
  | Some _ => load_next x mo_consume
  end.

Definition ptr_eqb (x y : ptr) : bool := bool_decide (x = y).

(** [make_node_(args...)] *)
Definition make_node_ (arg : option T) : M ptr :=
  x ← get cache_head_;
  ct ← get cache_tail_;
  (if ptr_eqb ct x
   then bh ← get before_head_; modify (set_cache_tail bh)
   else mret tt) ;;
  ct ← get cache_tail_;
  x ← (if negb (ptr_eqb ct x)
       then
         (* Recycle a cached node. *)
         construct_data x arg ;;
         (* Remove our node from the cache. *)
         '(_, n) ← advance_ x;
         modify (set_cache_head n) ;;
         mret x
       else
         (* Node cache is empty, so allocate and construct a new node. *)
         x ← allocate;
         try_catch (construct_data x arg)
                   (deallocate x ;; throw) ;;
         mret x);
  construct_next x ;;
  mret x.

(** [emplace(args...)]; [push(v)] is [emplace(v)]. *)
Definition emplace (arg : option T) : M unit :=
  x ← make_node_ arg;
  t ← get tail_;
  store_next t x mo_release ;;
  modify (set_tail x).

Definition push (v : T) : M unit := emplace (Some v).

(** The loop of the range [push]: the elements after the first. *)
Fixpoint push_rest (rest : list (option T)) (insert_tail : ptr) : M ptr :=
  match rest with
  | [] => mret insert_tail
  | arg :: rest' =>
      x ← make_node_ arg;
      store_next insert_tail x mo_relaxed ;;
      push_rest rest' x
  end.

(** The [catch (...)] loop of the range [push]. *)
Fixpoint free_chain (fuel : nat) (insert_head : ptr) : M unit :=
  match insert_head with
  | None => mret tt
  | Some _ =>
      match fuel with
      | O => stuck
      | S fuel' =>
          '(x, insert_head') ← advance_ insert_head;
          destroy_data x ;;
          deallocate x ;;
          free_chain fuel' insert_head'
      end
  end.

(** A bound on the length of any walk along distinct nodes. *)
Definition walk_bound (s : queue) : nat := S (size (heap s)).

(** [push(first, last)].  The range is given by what constructing a [T]
    from each [*first] yields. *)
Definition push_range (args : list (option T)) : M unit :=
  match args with
  | [] => mret tt
  | arg :: rest =>
      insert_head ← make_node_ arg;
      insert_tail ←
        try_catch (push_rest rest insert_head)
                  (fuel ← get walk_bound;
                   free_chain fuel insert_head ;; throw);
      t ← get tail_;
      store_next t insert_head mo_release ;;
      modify (set_tail insert_tail)
  end.

(** The loop of [clear()]. *)
Fixpoint clear_loop (fuel : nat) (last : ptr) : M ptr :=
  x ← load_next last mo_consume;
  match x with
  | None => mret last
  | Some _ =>
      match fuel with
      | O => stuck
      | S fuel' => destroy_data x ;; clear_loop fuel' x
      end
  end.

(** [clear()] *)
Definition clear : M unit :=
  last ← get before_head_;
  fuel ← get walk_bound;
  last ← clear_loop fuel last;
  store_before_head last mo_release.

(** [pop(out)]: the result is the returned flag and the value [out] holds
    afterwards. *)
Definition pop (out : T) : M (bool * T) :=
  x ← head_;
  match x with
  | Some _ =>
      v ← read_data x;
      destroy_data x ;;
      store_before_head x mo_release ;;
      mret (true, v)
  | None => mret (false, out)
  end.

(** [front()]: the node whose [data] the returned pointer addresses. *)
Definition front : M ptr := head_.

(** [empty()] *)
Definition empty : M bool :=
  x ← head_; mret (ptr_eqb x None).

(** The loop of [consume_all(f)].  [f v] tells whether the call of the user
    function on [v] returns ([true]) or throws. *)
Fixpoint consume_loop (fuel : nat) (f : T → bool) (x : ptr) : M unit :=
  match x with
  | None => mret tt
  | Some _ =>
      match fuel with
      | O => stuck
      | S fuel' =>
          v ← read_data x;
          modify (record (Invoke v)) ;;
          (if f v then mret tt else throw) ;;
          destroy_data x ;;
          store_before_head x mo_release ;;
          x' ← load_next x mo_consume;
          consume_loop fuel' f x'
      end
  end.

(** [consume_all(f)] *)
Definition consume_all (f : T → bool) : M unit :=
  x ← head_;
  fuel ← get walk_bound;
  consume_loop fuel f x.

(** The first loop of the destructor: deallocate cached nodes. *)
Fixpoint free_cached (fuel : nat) (first cache_end : ptr) : M ptr :=
  if ptr_eqb first cache_end then mret first
  else match fuel with
       | O => stuck
       | S fuel' =>
           '(x, first') ← advance_ first;
           deallocate x ;;
           free_cached fuel' first' cache_end
       end.

(** [~spsc_queue()] *)
Definition destructor : M unit :=
  first ← get cache_head_;
  cache_end ← head_;
  fuel ← get walk_bound;
  first ← free_cached fuel first cache_end;
  (* Destruct and deallocate enqueued nodes. *)
  free_chain fuel first.

End Queue.

Arguments node_type : clear implicits.
Arguments event : clear implicits.
Arguments queue : clear implicits.
Arguments outcome : clear implicits.
Arguments M : clear implicits.
Arguments Ret {T A} a s.
Arguments Throw {T A} s.
Arguments Undefined {T A}.
Arguments Stuck {T A}.

(** ** The pair of [cache_head_] and the allocator

    [lockfree/compressed_pair.hpp]: a pair whose empty members take no
    space.  The layout is not modelled; the pair is its two members, and
    its comparison operators are those of the source. *)

Section CompressedPair.

Context {T1 T2 : Type}.

(** The comparison operators of [T1] and [T2] that the pair's operators
    call. *)
Context (eq1 lt1 : T1 → T1 → bool) (eq2 lt2 : T2 → T2 → bool).

Record compressed_pair : Type := Compressed_pair {
  first : T1;
  second : T2;
}.

(** [operator==(x, y)] *)
Definition compressed_pair_eq (x y : compressed_pair) : bool :=
  eq1 (first x) (first y) && eq2 (second x) (second y).

(** [operator<(x, y)] *)
Definition compressed_pair_lt (x y : compressed_pair) : bool :=
  lt1 (first x) (first y)
  || (negb (lt1 (first y) (first x)) && lt2 (second x) (second y)).

End CompressedPair.

Arguments compressed_pair : clear implicits.

(** A strict weak ordering, as the standard library's algorithms and
    ordered containers require of a comparison. *)
Record strict_weak_order {A} (lt : A → A → bool) : Prop := {
  swo_irreflexive : ∀ x, lt x x = false;
  swo_transitive : ∀ x y z, lt x y = true → lt y z = true → lt x z = true;
  swo_incomparable : ∀ x y z,
    lt x y = false → lt y x = false → lt y z = false → lt z y = false →
    lt x z = false ∧ lt z x = false;
}.

(** A boolean equivalence relation. *)
Record equivalence_test {A} (eq : A → A → bool) : Prop := {
  eqt_reflexive : ∀ x, eq x x = true;
  eqt_symmetric : ∀ x y, eq x y = true → eq y x = true;
  eqt_transitive : ∀ x y z, eq x y = true → eq y z = true → eq x z = true;
}.

(** * Specification

    Everything the properties are stated with: the shape of the node heap,
    what can be observed of a state, the representation invariant, and the
    histories of calls that reach a state. *)

Section Specification.

Context {T : Type}.
Implicit Types (s : queue T) (h : gmap positive (node_type T)).
Implicit Types (C P : list (list (positive * option T))).
Implicit Types (cs ms : list positive) (bh : positive).
Implicit Types (ls : list (positive * T)).

(** ** The shape of the node heap

    A chain is a list of cells, each an address with the state of its
    [data]; consecutive cells are linked by [next], and the last cell's
    [next] is the chain's end pointer. *)

Definition first_of (c : list (positive * option T)) (e : ptr) : ptr :=
  match c with
  | [] => e
  | x :: _ => Some x.1
  end.

Fixpoint chain h (c : list (positive * option T)) (e : ptr) : Prop :=
  match c with
  | [] => True
  | x :: r => h !! x.1 = Some (Node x.2 (first_of r e)) ∧ chain h r e
  end.

(** Cells whose [data] is not constructed, and cells that hold a value. *)
Definition dead (l : list positive) : list (positive * option T) :=
  (λ a, (a, None)) <$> l.

Definition live (l : list (positive * T)) : list (positive * option T) :=
  (λ p, (p.1, Some p.2)) <$> l.

(** The addresses of the cells of chains. *)
Definition addrs C : list positive := (concat C).*1.

(** The heap consists of exactly the null-terminated chains [C]. *)
Definition heap_is h C : Prop :=
  Forall (λ c, chain h c None) C ∧
  NoDup (addrs C) ∧
  ∀ a, is_Some (h !! a) → a ∈ addrs C.

(** ** Observations of a state and of a trace *)

Definition is_allocate (e : event T) : bool :=
  match e with Allocate _ => true | _ => false end.

Definition is_deallocate (e : event T) : bool :=
  match e with Deallocate _ => true | _ => false end.

Definition is_store_before_head (e : event T) : bool :=
  match e with Store_before_head _ _ => true | _ => false end.

(** How often the allocator was asked for, and given back, a node. *)
Definition allocations (tr : list (event T)) : nat :=
  length (filter is_allocate tr).

Definition deallocations (tr : list (event T)) : nat :=
  length (filter is_deallocate tr).

(** The nodes met on the way from [x] along [next] until [stop]. *)
Fixpoint segment (fuel : nat) h (x stop : ptr) : list positive :=
  if ptr_eqb x stop then []
  else match fuel, x with
       | S fuel', Some a =>
           match h !! a with
           | Some n => a :: segment fuel' h (next n) stop
           | None => []
           end
       | _, _ => []
       end.

(** [x->next], null when [x] is null or dangling. *)
Definition next_of h (x : ptr) : ptr := n ← (a ← x; h !! a); next n.

(** [[cache_head, before_head)]: the nodes the producer may recycle now or
    after its next look at [before_head_]. *)
Definition free_nodes s : list positive :=
  segment (walk_bound s) (heap s) (cache_head_ s) (before_head_ s).

(** [(before_head, tail]]: the nodes published and not yet consumed. *)
Definition queued_nodes s : list positive :=
  segment (walk_bound s) (heap s) (next_of (heap s) (before_head_ s)) None.

(** The values waiting in the queue, front first. *)
Definition contents s : list T :=
  omap (λ a, n ← heap s !! a; data n) (queued_nodes s).

(** The nodes and values waiting in the queue. *)
Definition queued (s : queue T) : list (positive * T) :=
  zip (queued_nodes s) (contents s).

(** The events a call appends to the trace. *)
Definition new_events (s s' : queue T) : list (event T) :=
  drop (length (trace s)) (trace s').

(** The values constructed in nodes, in the order of construction. *)
Definition constructed (tr : list (event T)) : list (positive * T) :=
  omap (λ e, match e with Construct_data a v => Some (a, v) | _ => None end) tr.

(** What the producer does to nodes that only it can reach: no release
    store, no store to [before_head_], no destruction. *)
Definition is_private (e : event T) : Prop :=
  match e with
  | Allocate _ | Deallocate _ | Construct_data _ _ | Construct_failed _
  | Construct_next _ | Store_next _ _ mo_relaxed => True
  | _ => False
  end.

(** The [catch] block of the range [push] on the nodes [l]. *)
Definition cleanup (l : list positive) : list (event T) :=
  l ≫= λ a, [Destroy_data a; Deallocate a].

(** The four pointer members are the same in both states. *)
Definition same_pointers (s s' : queue T) : Prop :=
  tail_ s' = tail_ s ∧ before_head_ s' = before_head_ s ∧
  cache_tail_ s' = cache_tail_ s ∧ cache_head_ s' = cache_head_ s.

(** The elements [consume_all f] gets through: those before the first one
    on which the user function throws. *)
Fixpoint consumed (f : T → bool) (ls : list (positive * T))
  : list (positive * T) :=
  match ls with
  | [] => []
  | p :: r => if f p.2 then p :: consumed f r else []
  end.

(** What [consume_all] does for each of them. *)
Definition drain_events (ls : list (positive * T)) : list (event T) :=
  ls ≫= λ p, [Invoke p.2; Destroy_data p.1;
              Store_before_head (Some p.1) mo_release].

(** The events of [consume_all f] on the queued elements [q]: one group per
    element the user function accepts, and the invocation that throws. *)
Definition consume_all_events (f : T → bool) (q : list (positive * T))
  : list (event T) :=
  drain_events (consumed f q)
  ++ match drop (length (consumed f q)) q with
     | p :: _ => [Invoke p.2]
     | [] => []
     end.

(** Events that store to [before_head_] exactly once, as the last of
    them. *)
Definition stores_once_at_end (evs : list (event T)) : Prop :=
  ∃ pre x,
    evs = pre ++ [Store_before_head x mo_release] ∧
    Forall (λ e, is_store_before_head e = false) pre.

(** ** The representation invariant *)

(** The chain of the queue: the cache [cs], the nodes [ms] released by the
    consumer since the producer last looked, the sentinel [bh], and the
    queued nodes [ls] with their values. *)
Definition main cs ms bh ls : list (positive * option T) :=
  dead (cs ++ ms ++ [bh]) ++ live ls.

(** The allocator's books: every block in use was handed out before, and
    the blocks in use are those allocated and not deallocated. *)
Record alloc_ok s : Prop := {
  alloc_fresh : ∀ a, is_Some (heap s !! a) → (a < next_addr s)%positive;
  alloc_balance :
    allocations (trace s) = deallocations (trace s) + size (heap s);
}.

(** [P] are the chains the producer holds privately during a push. *)
Record repr s cs ms bh ls P : Prop := {
  repr_heap : heap_is (heap s) (main cs ms bh ls :: P);
  repr_alloc : alloc_ok s;
  repr_cache_head : cache_head_ s = head (cs ++ ms ++ [bh]);
  repr_cache_tail : cache_tail_ s = head (ms ++ [bh]);
  repr_before_head : before_head_ s = Some bh;
  repr_tail : tail_ s = last (bh :: ls.*1);
}.

(** The state in which [make_node_] decides between its two branches. *)
Definition refilled s : queue T :=
  if ptr_eqb (cache_tail_ s) (cache_head_ s)
  then set_cache_tail (before_head_ s) s else s.

(** The cache and the released nodes as the producer sees them after the
    refill. *)
Definition refill cs ms : list positive * list positive :=
  match cs with
  | [] => (ms, [])
  | _ => (cs, ms)
  end.

(** [make_node_] from its second [if] on. *)
Definition make_node_after_refill (x : ptr) (arg : option T) : M T ptr :=
  ct ← get cache_tail_;
  x ← (if negb (ptr_eqb ct x)
       then
         construct_data x arg ;;
         '(_, n) ← advance_ x;
         modify (set_cache_head n) ;;
         mret x
       else
         x ← allocate;
         try_catch (construct_data x arg)
                   (deallocate x ;; throw) ;;
         mret x);
  construct_next x ;;
  mret x.

(** ** Histories of calls and the states they reach *)

(** A call of a public member function by the producer or the consumer. *)
Inductive call :=
| Emplace (arg : option T)               (* emplace / push of one element *)
| Push_range (args : list (option T))    (* push(first, last) *)
| Pop (out : T)
| Front
| Empty
| Clear
| Consume_all (f : T → bool).

Definition invoke (c : call) : M T () :=
  match c with
  | Emplace arg => emplace arg
  | Push_range args => push_range args
  | Pop out => pop out ;; mret ()
  | Front => front ;; mret ()
  | Empty => empty ;; mret ()
  | Clear => clear
  | Consume_all f => consume_all f
  end.

(** The state a call leaves behind, whether it returns or throws. *)
Definition after {A} (o : outcome T A) : option (queue T) :=
  match o with
  | Ret _ s | Throw s => Some s
  | Undefined | Stuck => None
  end.

(** A history: calls that run one after the other. *)
Fixpoint run (calls : list call) (s : queue T) : option (queue T) :=
  match calls with
  | [] => Some s
  | c :: calls' => s' ← after (invoke c s); run calls' s'
  end.

(** The states of a queue between its construction and its destruction. *)
Definition reachable_by (a0 : positive) (calls : list call) (s : queue T) :=
  run calls (spsc_queue_new a0) = Some s.

Definition reachable (s : queue T) : Prop :=
  ∃ a0 calls, reachable_by a0 calls s.

(** The values of a range, when every construction returns. *)
Fixpoint built (args : list (option T)) : option (list T) :=
  match args with
  | [] => Some []
  | Some v :: args' => vs ← built args'; Some (v :: vs)
  | None :: _ => None
  end.

(** What [consume_all f] leaves in the queue. *)
Fixpoint rejected (f : T → bool) (q : list T) : list T :=
  match q with
  | [] => []
  | v :: q' => if f v then rejected f q' else v :: q'
  end.

(** The queue as the list of the values waiting in it: what a call does to
    that list, by the contract of a FIFO queue. *)
Definition fifo_step (c : call) (q : list T) : list T :=
  match c with
  | Emplace (Some v) => q ++ [v]
  | Emplace None => q
  | Push_range args => q ++ default [] (built args)
  | Pop _ => tail q
  | Front | Empty => q
  | Clear => []
  | Consume_all f => rejected f q
  end.

(** The values published and not yet consumed after a history. *)
Definition pending (calls : list call) : list T :=
  foldl (λ q c, fifo_step c q) [] calls.

(** A producer that pushes the values one after the other. *)
Fixpoint push_all (vs : list T) : M T () :=
  match vs with
  | [] => mret ()
  | v :: vs' => push v ;; push_all vs'
  end.

(** A consumer that pops until [pop] returns false; the values it
    received, in order. *)
Fixpoint pop_all (fuel : nat) (out : T) : M T (list T) :=
  match fuel with
  | O => stuck
  | S fuel' =>
      '(more, out') ← pop out;
      if more : bool then vs ← pop_all fuel' out'; mret (out' :: vs)
      else mret []
  end.

(** ** Vocabulary of the further properties *)

(** The calls of the consumer thread. *)
Definition is_consumer_call (c : call) : bool :=
  match c with
  | Emplace _ | Push_range _ => false
  | Pop _ | Front | Empty | Clear | Consume_all _ => true
  end.

(** What a consumer call may do: invoke the user function, destroy a
    value, store [before_head_]. *)
Definition is_consumer_event (e : event T) : Prop :=
  match e with
  | Invoke _ | Destroy_data _ | Store_before_head _ mo_release => True
  | _ => False
  end.

(** What a producer call may do besides its private actions: the release
    store that publishes, and the destruction of nodes it staged. *)
Definition is_producer_event (e : event T) : Prop :=
  match e with
  | Store_before_head _ _ | Invoke _ => False
  | _ => True
  end.

(** The values the user function was invoked on, in order. *)
Definition invoked (tr : list (event T)) : list T :=
  omap (λ e, match e with Invoke v => Some v | _ => None end) tr.

(** The nodes whose value was destroyed, in order. *)
Definition destroyed (tr : list (event T)) : list positive :=
  omap (λ e, match e with Destroy_data a => Some a | _ => None end) tr.

(** The blocks the bump allocator hands out in [k] allocations starting
    at [na], and its next block afterwards. *)
Fixpoint fresh (k : nat) (na : positive) : list positive :=
  match k with
  | O => []
  | S k' => na :: fresh k' (Pos.succ na)
  end.

Fixpoint bump (k : nat) (na : positive) : positive :=
  match k with
  | O => na
  | S k' => bump k' (Pos.succ na)
  end.

(** The nodes [n] acquisitions by [make_node_] return, given the free
    nodes [F] and the allocator's next block [na]: the free nodes, oldest
    first, then fresh blocks. *)
Definition acquire (n : nat) (F : list positive) (na : positive)
  : list positive :=
  take n F ++ fresh (n - length F) na.

(** The producer took [n] nodes between [s] and [s']: [F] and [F'] are the
    free nodes before and after, [xs] the nodes taken. *)
Definition acquired (n : nat) (F : list positive) (s s' : queue T)
    (F' xs : list positive) : Prop :=
  F' = drop n F ∧ xs = acquire n F (next_addr s) ∧
  next_addr s' = bump (n - length F) (next_addr s) ∧
  allocations (trace s') = allocations (trace s) + (n - length F) ∧
  deallocations (trace s') = deallocations (trace s).

(** The nodes an action reads, writes or stores a pointer to. *)
Definition event_nodes (e : event T) : list positive :=
  match e with
  | Allocate a | Deallocate a | Construct_data a _ | Construct_failed a
  | Construct_next a | Destroy_data a => [a]
  | Store_next a x _ => a :: option_list x
  | Store_before_head x _ => option_list x
  | Invoke _ => []
  end.

End Specification.

Arguments call : clear implicits.

(** The state of a queue of integers, constructed on an allocator whose
    first free block is 1, after a history of calls. *)
Definition state_after (calls : list (call Z)) : queue Z :=
  default (spsc_queue_new 1) (run calls (spsc_queue_new 1)).

(** ** The test of the repository *)

(** [TEST(spsc_queue_test, push_and_pop)], with the number of values of its
    loops and the value of its single push as parameters ([5] and [123] in
    the source).  [ASSERT_*] leaves the test when the condition fails: the
    result tells whether every assertion held. *)
Definition assert_that (b : bool) (k : M Z bool) : M Z bool :=
  if b then k else mret false.

(** [for (i = 0; i != n; ++i) { ASSERT_TRUE(q.pop(out)); ASSERT_EQ(out, i); }] *)
Fixpoint pop_expect (expected : list Z) (out : Z) (k : Z → M Z bool)
  : M Z bool :=
  match expected with
  | [] => k out
  | i :: expected' =>
      '(b, out) ← pop out;
      assert_that b (assert_that (out =? i)%Z (pop_expect expected' out k))
  end.

(** [ASSERT_FALSE(q.pop(out)); ASSERT_TRUE(q.empty());] *)
Definition expect_empty (out : Z) (k : Z → M Z bool) : M Z bool :=
  '(b, out) ← pop out;
  assert_that (negb b) (e ← empty; assert_that e (k out)).

Definition push_and_pop (n : nat) (v : Z) (out : Z) : M Z bool :=
  expect_empty out (λ out,
    push v ;;
    pop_expect [v] out (λ out,
      expect_empty out (λ out,
        push_all (Z.of_nat <$> seq 0 n) ;;
        pop_expect (Z.of_nat <$> seq 0 n) out (λ out,
          expect_empty out (λ _, mret true))))).

(** * Verification

    ** Chains and the shape of the heap *)

Section Chains.

Context {T : Type}.
Implicit Types (h : gmap positive (node_type T)) (a : positive).
Implicit Types (d : option T) (e : option positive).
Implicit Types (c : list (positive * option T)).
Implicit Types (C : list (list (positive * option T))).

Lemma first_of_app c1 c2 e :
  first_of (c1 ++ c2) e = first_of c1 (first_of c2 e).
Proof. by destruct c1. Qed.

Lemma chain_app h c1 c2 e :
  chain h (c1 ++ c2) e ↔ chain h c1 (first_of c2 e) ∧ chain h c2 e.
Proof.
  induction c1 as [|x c1 IH]; simpl; [tauto|].
  rewrite IH, first_of_app. tauto.
Qed.

Lemma chain_ext h h' c e :
  (∀ a, a ∈ c.*1 → h' !! a = h !! a) → chain h c e → chain h' c e.
Proof.
  induction c as [|x c IH]; simpl; [done|].
  intros Hagree [Hx Hc]. split.
  - rewrite Hagree; [done|]. left.
  - apply IH; [|done]. intros a Ha. apply Hagree. by right.
Qed.

Lemma chain_lookup h c e a d :
  chain h c e → (a, d) ∈ c → ∃ n, h !! a = Some (Node d n).
Proof.
  induction c as [|x c IH]; simpl; intros Hc Hin.
  - by apply elem_of_nil in Hin.
  - destruct Hc as [Hx Hc]. apply elem_of_cons in Hin as [<-|Hin]; eauto.
Qed.

Lemma dead_app l1 l2 : dead (T:=T) (l1 ++ l2) = dead l1 ++ dead l2.
Proof. apply fmap_app. Qed.

Lemma live_app (l1 l2 : list (positive * T)) :
  live (l1 ++ l2) = live l1 ++ live l2.
Proof. apply fmap_app. Qed.

Lemma dead_addrs l : (dead (T:=T) l).*1 = l.
Proof. unfold dead. rewrite <- list_fmap_compose. apply list_fmap_id. Qed.

Lemma live_addrs (l : list (positive * T)) : (live l).*1 = l.*1.
Proof. unfold live. by rewrite <- list_fmap_compose. Qed.

Lemma addrs_app C1 C2 : addrs (C1 ++ C2) = addrs C1 ++ addrs C2.
Proof. unfold addrs. by rewrite concat_app, fmap_app. Qed.
Lemma addrs_cons c C : addrs (c :: C) = c.*1 ++ addrs C.
Proof. unfold addrs. simpl. by rewrite fmap_app. Qed.

Lemma heap_is_size h C : heap_is h C → size h = length (addrs C).
Proof.
  intros (Hch & Hnd & Hdom).
  assert (dom h = list_to_set (addrs C)) as Hd.
  { apply set_eq. intros a. rewrite elem_of_dom, elem_of_list_to_set.
    split; [apply Hdom|].
    unfold addrs. rewrite list_elem_of_fmap. intros ([a' d] & -> & Hin).
    apply list_elem_of_In, in_concat in Hin as (c & Hc & Hin).
    apply list_elem_of_In in Hc, Hin.
    rewrite Forall_forall in Hch.
    destruct (chain_lookup _ _ _ _ _ (Hch _ Hc) Hin) as [n Hn]. eauto. }
  rewrite <- size_dom, Hd. by apply size_list_to_set.
Qed.

End Chains.

Section HeapShape.

Context {T : Type}.
Implicit Types (h : gmap positive (node_type T)) (a : positive).
Implicit Types (d : option T) (e : option positive).
Implicit Types (c r : list (positive * option T)).
Implicit Types (C : list (list (positive * option T))).

Lemma chain_insert_ne h c e a n :
  a ∉ c.*1 → chain h c e → chain (<[a:=n]> h) c e.
Proof.
  intros Ha. apply chain_ext. intros a' Ha'.
  apply lookup_insert_ne. by intros ->.
Qed.

Lemma chain_delete_ne h c e a :
  a ∉ c.*1 → chain h c e → chain (delete a h) c e.
Proof.
  intros Ha. apply chain_ext. intros a' Ha'.
  apply lookup_delete_ne. by intros ->.
Qed.

Lemma not_elem_of_addrs C c a : a ∉ addrs C → c ∈ C → a ∉ c.*1.
Proof.
  intros Ha Hc Hin. apply Ha.
  apply list_elem_of_split in Hc as (C1 & C2 & ->).
  rewrite addrs_app, addrs_cons. set_solver.
Qed.

Lemma chains_insert_ne h C a n :
  a ∉ addrs C →
  Forall (λ c, chain h c None) C → Forall (λ c, chain (<[a:=n]> h) c None) C.
Proof.
  intros Ha. rewrite !Forall_forall. intros HC c Hc.
  apply chain_insert_ne; eauto using not_elem_of_addrs.
Qed.

Lemma chains_delete_ne h C a :
  a ∉ addrs C →
  Forall (λ c, chain h c None) C → Forall (λ c, chain (delete a h) c None) C.
Proof.
  intros Ha. rewrite !Forall_forall. intros HC c Hc.
  apply chain_delete_ne; eauto using not_elem_of_addrs.
Qed.

Lemma addrs_Permutation C C' : C ≡ₚ C' → addrs C ≡ₚ addrs C'.
Proof.
  induction 1 as [|c C C' _ IH|c1 c2 C|C1 C2 C3 _ IH1 _ IH2].
  - done.
  - rewrite !addrs_cons. by rewrite IH.
  - rewrite !addrs_cons, !(assoc (++)). f_equiv. apply Permutation_app_comm.
  - by rewrite IH1.
Qed.

Lemma heap_is_Permutation h C C' : C ≡ₚ C' → heap_is h C → heap_is h C'.
Proof.
  intros HP (Hch & Hnd & Hdom). pose proof (addrs_Permutation _ _ HP) as HA.
  split_and!.
  - by rewrite <- HP.
  - by rewrite <- HA.
  - intros a Ha. rewrite <- HA. auto.
Qed.

(** The address of a cell occurs nowhere else. *)
Lemma focus_NoDup C1 c1 a d c2 C2 :
  NoDup (addrs (C1 ++ (c1 ++ (a, d) :: c2) :: C2)) →
  (a ∉ addrs C1) ∧ (a ∉ c1.*1) ∧ (a ∉ c2.*1) ∧ (a ∉ addrs C2).
Proof.
  rewrite addrs_app, addrs_cons, fmap_app, fmap_cons. simpl.
  rewrite NoDup_app, NoDup_app, NoDup_app, NoDup_cons. set_solver.
Qed.

Lemma focus_addrs C1 c1 a d c2 C2 :
  addrs (C1 ++ (c1 ++ (a, d) :: c2) :: C2)
  = addrs C1 ++ c1.*1 ++ a :: c2.*1 ++ addrs C2.
Proof.
  rewrite addrs_app, addrs_cons, fmap_app, fmap_cons. simpl.
  by rewrite <- !(assoc (++)).
Qed.

Lemma heap_is_lookup h C1 c1 a d c2 C2 :
  heap_is h (C1 ++ (c1 ++ (a, d) :: c2) :: C2) →
  h !! a = Some (Node d (first_of c2 None)).
Proof.
  intros (Hch & _ & _).
  apply Forall_app in Hch as [_ Hch]. apply Forall_cons in Hch as [Hc _].
  apply chain_app in Hc as [_ Hc]. apply Hc.
Qed.

(** Writing a node that is already in the heap: the new heap has the shape
    [C'] as soon as its chains hold and no address came or went. *)
Lemma heap_is_write h C C' a n :
  heap_is h C → a ∈ addrs C → addrs C' = addrs C →
  Forall (λ c, chain (<[a:=n]> h) c None) C' →
  heap_is (<[a:=n]> h) C'.
Proof.
  intros (_ & Hnd & Hdom) Ha HA Hch. split_and!; [done|by rewrite HA|].
  intros a'. rewrite HA, lookup_insert. case_decide; [by subst|auto].
Qed.

(** [construct] or [destroy] of the [data] of a cell. *)
Lemma heap_is_set_data d' h C1 c1 a d c2 C2 :
  heap_is h (C1 ++ (c1 ++ (a, d) :: c2) :: C2) →
  heap_is (<[a:=Node d' (first_of c2 None)]> h)
          (C1 ++ (c1 ++ (a, d') :: c2) :: C2).
Proof.
  intros Hh. pose proof Hh as (Hch & Hnd & Hdom).
  apply focus_NoDup in Hnd as (H1 & H2 & H3 & H4).
  eapply heap_is_write; [done| |by rewrite !focus_addrs|].
  { rewrite focus_addrs. set_solver. }
  apply Forall_app in Hch as [HC1 Hch]. apply Forall_cons in Hch as [Hc HC2].
  apply chain_app in Hc as [Hc1 [_ Hc2]].
  apply Forall_app. split; [by apply chains_insert_ne|].
  apply Forall_cons. split; [|by apply chains_insert_ne].
  apply chain_app. split; [by apply chain_insert_ne|].
  split; [apply lookup_insert_eq|by apply chain_insert_ne].
Qed.

(** Storing null into the [next] of a cell cuts its chain in two. *)
Lemma heap_is_cut h C1 c1 a d c2 C2 :
  heap_is h (C1 ++ (c1 ++ (a, d) :: c2) :: C2) →
  heap_is (<[a:=Node d None]> h) (C1 ++ (c1 ++ [(a, d)]) :: c2 :: C2).
Proof.
  intros Hh. pose proof Hh as (Hch & Hnd & Hdom).
  apply focus_NoDup in Hnd as (H1 & H2 & H3 & H4).
  eapply heap_is_write; [done| | |].
  { rewrite focus_addrs. set_solver. }
  { rewrite focus_addrs, addrs_app, !addrs_cons, fmap_app. simpl.
    by rewrite <- !(assoc (++)). }
  apply Forall_app in Hch as [HC1 Hch]. apply Forall_cons in Hch as [Hc HC2].
  apply chain_app in Hc as [Hc1 [_ Hc2]].
  apply Forall_app. split; [by apply chains_insert_ne|].
  apply Forall_cons. split.
  { apply chain_app. split; [by apply chain_insert_ne|].
    split; [apply lookup_insert_eq|done]. }
  apply Forall_cons. split; [by apply chain_insert_ne|by apply chains_insert_ne].
Qed.

(** Storing the first node of the next chain into the [next] of the last
    cell of a chain joins the two. *)
Lemma heap_is_link h C1 c1 a d c2 C2 :
  heap_is h (C1 ++ (c1 ++ [(a, d)]) :: c2 :: C2) →
  heap_is (<[a:=Node d (first_of c2 None)]> h) (C1 ++ (c1 ++ (a, d) :: c2) :: C2).
Proof.
  intros Hh. pose proof Hh as (Hch & Hnd & Hdom).
  assert (addrs (C1 ++ (c1 ++ (a, d) :: c2) :: C2)
          = addrs (C1 ++ (c1 ++ [(a, d)]) :: c2 :: C2)) as HA.
  { rewrite focus_addrs, addrs_app, !addrs_cons, fmap_app. simpl.
    by rewrite <- !(assoc (++)). }
  rewrite <- HA in Hnd. apply focus_NoDup in Hnd as (H1 & H2 & H3 & H4).
  eapply heap_is_write; [done| |done|].
  { rewrite <- HA, focus_addrs. set_solver. }
  apply Forall_app in Hch as [HC1 Hch]. apply Forall_cons in Hch as [Hc HC2].
  apply Forall_cons in HC2 as [Hc2 HC2].
  apply chain_app in Hc as [Hc1 _].
  apply Forall_app. split; [by apply chains_insert_ne|].
  apply Forall_cons. split; [|by apply chains_insert_ne].
  apply chain_app. split; [by apply chain_insert_ne|].
  split; [apply lookup_insert_eq|by apply chain_insert_ne].
Qed.

(** A freshly allocated node is a chain of its own. *)
Lemma heap_is_alloc h C a :
  h !! a = None → heap_is h C →
  heap_is (<[a:=Node None None]> h) (C ++ [[(a, None)]]).
Proof.
  intros Ha (Hch & Hnd & Hdom).
  assert (a ∉ addrs C) as Hnew.
  { intros Hin. unfold addrs in Hin.
    apply list_elem_of_fmap in Hin as ([a' d] & -> & Hin).
    apply list_elem_of_In, in_concat in Hin as (c & Hc & Hin).
    apply list_elem_of_In in Hc, Hin. rewrite Forall_forall in Hch.
    destruct (chain_lookup _ _ _ _ _ (Hch _ Hc) Hin) as [n Hn].
    simpl in Ha. congruence. }
  split_and!.
  - apply Forall_app. split; [by apply chains_insert_ne|].
    apply Forall_singleton. simpl. split; [apply lookup_insert_eq|done].
  - rewrite addrs_app. apply NoDup_app. split_and!; [done| |].
    + intros a' Ha'. unfold addrs. simpl. set_solver.
    + unfold addrs. simpl. apply NoDup_singleton.
  - intros a'. rewrite addrs_app, lookup_insert. unfold addrs at 2. simpl.
    case_decide; set_solver.
Qed.

(** Deallocating the first node of a chain. *)
Lemma heap_is_dealloc h C1 a d r C2 :
  heap_is h (C1 ++ ((a, d) :: r) :: C2) →
  heap_is (delete a h) (C1 ++ r :: C2).
Proof.
  intros (Hch & Hnd & Hdom).
  pose proof (focus_addrs C1 [] a d r C2) as HA. simpl in HA.
  pose proof (focus_NoDup C1 [] a d r C2 Hnd) as (H1 & _ & H3 & H4).
  rewrite HA in Hnd, Hdom.
  apply Forall_app in Hch as [HC1 Hch]. apply Forall_cons in Hch as [Hc HC2].
  destruct Hc as [_ Hr]. split_and!.
  - apply Forall_app. split; [by apply chains_delete_ne|].
    apply Forall_cons. split; [by apply chain_delete_ne|by apply chains_delete_ne].
  - rewrite addrs_app, addrs_cons.
    apply NoDup_app in Hnd as (? & ? & Hnd). apply NoDup_cons in Hnd as [? ?].
    apply NoDup_app. set_solver.
  - intros a'. rewrite lookup_delete, addrs_app, addrs_cons.
    case_decide; [by intros [? ?]|]. intros Ha'. apply Hdom in Ha'. set_solver.
Qed.

(** Empty chains do not count. *)
Lemma heap_is_nil h C1 C2 :
  heap_is h (C1 ++ [] :: C2) ↔ heap_is h (C1 ++ C2).
Proof.
  unfold heap_is. rewrite !addrs_app, addrs_cons, !Forall_app, Forall_cons.
  simpl. tauto.
Qed.

End HeapShape.

(** ** The representation invariant *)

Section Invariant.

Context {T : Type}.
Implicit Types (s : queue T) (h : gmap positive (node_type T)).
Implicit Types (cs ms : list positive) (bh : positive).
Implicit Types (ls : list (positive * T)).
Implicit Types (P : list (list (positive * option T))).

Lemma allocations_app (tr1 tr2 : list (event T)) :
  allocations (tr1 ++ tr2) = allocations tr1 + allocations tr2.
Proof. unfold allocations. by rewrite filter_app, length_app. Qed.
Lemma deallocations_app (tr1 tr2 : list (event T)) :
  deallocations (tr1 ++ tr2) = deallocations tr1 + deallocations tr2.
Proof. unfold deallocations. by rewrite filter_app, length_app. Qed.

Lemma main_cons c cs ms bh ls :
  main (c :: cs) ms bh ls = (c, None) :: main cs ms bh ls.
Proof. done. Qed.

Lemma main_refill ms bh ls : main [] ms bh ls = main ms [] bh ls.
Proof. done. Qed.

Lemma main_sentinel cs ms bh ls :
  main cs ms bh ls = dead (cs ++ ms) ++ (bh, None) :: live ls.
Proof.
  unfold main. rewrite (assoc (++)), dead_app. simpl.
  by rewrite <- (assoc (++)).
Qed.

Lemma main_addrs cs ms bh ls :
  (main cs ms bh ls).*1 = cs ++ ms ++ bh :: ls.*1.
Proof.
  unfold main. rewrite fmap_app, dead_addrs, live_addrs.
  by rewrite <- !(assoc (++)).
Qed.

Lemma make_node_unfold arg s :
  make_node_ arg s = make_node_after_refill (cache_head_ s) arg (refilled s).
Proof.
  unfold make_node_, make_node_after_refill, refilled.
  unfold mbind, M_bind, bind, mret, M_ret, ret, get, modify. simpl.
  by destruct (ptr_eqb (cache_tail_ s) (cache_head_ s)).
Qed.

Lemma repr_NoDup s cs ms bh ls P :
  repr s cs ms bh ls P → NoDup (cs ++ ms ++ bh :: ls.*1 ++ addrs P).
Proof.
  intros [(_ & Hnd & _) _ _ _ _ _].
  rewrite addrs_cons, main_addrs in Hnd. by rewrite <- !(assoc (++)) in Hnd.
Qed.

Lemma repr_refilled s cs ms bh ls P :
  repr s cs ms bh ls P →
  repr (refilled s) (refill cs ms).1 (refill cs ms).2 bh ls P ∧
  cache_head_ (refilled s) = cache_head_ s ∧
  trace (refilled s) = trace s ∧ next_addr (refilled s) = next_addr s ∧
  (cache_tail_ (refilled s) = cache_head_ s ↔ cs ++ ms = []).
Proof.
  intros Hr. pose proof (repr_NoDup _ _ _ _ _ _ Hr) as Hnd.
  destruct Hr as [Hh [Hf Hb] Hch Hct Hbh Ht]. unfold refilled, ptr_eqb.
  destruct s as [t b ct ch h na tr]; simpl in *; subst.
  destruct cs as [|c cs]; simpl.
  - rewrite bool_decide_eq_true_2 by done. simpl.
    split; [by split|]. do 3 (split; [done|]).
    destruct ms as [|m ms]; simpl; [done|].
    split; [|done]. intros [= <-].
    apply NoDup_cons in Hnd as [Hnd _]. set_solver.
  - assert (head (ms ++ [bh]) ≠ Some c) as Hne.
    { apply NoDup_cons in Hnd as [Hnd _].
      destruct ms; simpl; intros [= <-]; set_solver. }
    rewrite bool_decide_eq_false_2 by done.
    split; [by split|]. by do 3 (split; [done|]).
Qed.

Lemma first_of_main cs ms bh ls e :
  first_of (main cs ms bh ls) e = head (cs ++ ms ++ [bh]).
Proof.
  unfold main. destruct cs as [|c cs]; [destruct ms as [|m ms]|]; done.
Qed.

(** How a member function may change what the allocator accounts for:
    [da] allocations and [dd] deallocations are added to the trace. *)
Lemma alloc_ok_step da dd s s' :
  alloc_ok s →
  (∀ a, is_Some (heap s' !! a) →
        is_Some (heap s !! a) ∨ (next_addr s ≤ a < next_addr s')%positive) →
  (next_addr s ≤ next_addr s')%positive →
  allocations (trace s') = allocations (trace s) + da →
  deallocations (trace s') = deallocations (trace s) + dd →
  size (heap s') + dd = size (heap s) + da →
  alloc_ok s'.
Proof.
  intros [Hf Hb] Hdom Hna Ha Hd Hsz. split.
  - intros a Ha'. destruct (Hdom a Ha') as [H|H]; [|lia].
    specialize (Hf a H). lia.
  - lia.
Qed.

Lemma size_insert_Some h a (n n' : node_type T) :
  h !! a = Some n → size (<[a:=n']> h) = size h.
Proof.
  intros H. rewrite <- !size_dom, dom_insert_L.
  f_equal. apply elem_of_dom_2 in H. set_solver.
Qed.

Lemma is_Some_insert_Some h a a' (n n' : node_type T) :
  h !! a = Some n → is_Some (<[a:=n']> h !! a') → is_Some (h !! a').
Proof. intros H. rewrite lookup_insert. case_decide; subst; eauto. Qed.

End Invariant.

Section Stepping.

Context {T : Type}.
Implicit Types (s : queue T) (h : gmap positive (node_type T)).
Implicit Types (cs ms : list positive) (bh : positive).
Implicit Types (ls : list (positive * T)).
Implicit Types (P : list (list (positive * option T))).

(** *** Stepping through member functions *)

Lemma bind_Ret {A B} (m : M T A) (k : A → M T B) s a s' :
  m s = Ret a s' → (m ≫= k) s = k a s'.
Proof. intros H. unfold mbind, M_bind, bind. by rewrite H. Qed.

Lemma bind_Throw {A B} (m : M T A) (k : A → M T B) s s' :
  m s = Throw s' → (m ≫= k) s = Throw s'.
Proof. intros H. unfold mbind, M_bind, bind. by rewrite H. Qed.

Lemma bind_assoc {A B C} (m : M T A) (k1 : A → M T B) (k2 : B → M T C) s :
  ((m ≫= k1) ≫= k2) s = (m ≫= (λ a, k1 a ≫= k2)) s.
Proof. unfold mbind, M_bind, bind. by destruct (m s). Qed.

Lemma bind_mret {A B} (a : A) (k : A → M T B) s : (mret a ≫= k) s = k a s.
Proof. done. Qed.

Lemma try_catch_Ret {A} (m h : M T A) s a s' :
  m s = Ret a s' → try_catch m h s = Ret a s'.
Proof. intros H. unfold try_catch. by rewrite H. Qed.

Lemma try_catch_Throw {A} (m h : M T A) s s' :
  m s = Throw s' → try_catch m h s = h s'.
Proof. intros H. unfold try_catch. by rewrite H. Qed.

Lemma get_Ret {A} (f : queue T → A) s : get f s = Ret (f s) s.
Proof. done. Qed.
Lemma modify_Ret (f : queue T → queue T) s : modify f s = Ret () (f s).
Proof. done. Qed.

Lemma load_next_Some s a n mo :
  heap s !! a = Some n → load_next (Some a) mo s = Ret (next n) s.
Proof. intros H. unfold load_next, deref, mbind, M_bind, bind. by rewrite H. Qed.

Lemma advance_Some s a n :
  heap s !! a = Some n → advance_ (Some a) s = Ret (Some a, next n) s.
Proof.
  intros H. unfold advance_. by rewrite (bind_Ret _ _ _ _ _ (load_next_Some _ _ _ _ H)).
Qed.

Lemma store_next_Some s a n y mo :
  heap s !! a = Some n →
  store_next (Some a) y mo s
  = Ret () (record (Store_next a y mo)
                   (set_heap (<[a:=Node (data n) y]> (heap s)) s)).
Proof. intros H. unfold store_next, deref, mbind, M_bind, bind. by rewrite H. Qed.

Lemma construct_data_Some s a nx v :
  heap s !! a = Some (Node None nx) →
  construct_data (Some a) (Some v) s
  = Ret () (record (Construct_data a v)
                   (set_heap (<[a:=Node (Some v) nx]> (heap s)) s)).
Proof. intros H. unfold construct_data, deref, mbind, M_bind, bind. by rewrite H. Qed.

Lemma construct_data_None s a nx :
  heap s !! a = Some (Node None nx) →
  construct_data (Some a) None s = Throw (record (Construct_failed a) s).
Proof. intros H. unfold construct_data, deref, mbind, M_bind, bind. by rewrite H. Qed.

Lemma construct_next_Some s a n :
  heap s !! a = Some n →
  construct_next (Some a) s
  = Ret () (record (Construct_next a)
                   (set_heap (<[a:=Node (data n) None]> (heap s)) s)).
Proof. intros H. unfold construct_next, deref, mbind, M_bind, bind. by rewrite H. Qed.

Lemma destroy_data_Some s a v nx :
  heap s !! a = Some (Node (Some v) nx) →
  destroy_data (Some a) s
  = Ret () (record (Destroy_data a)
                   (set_heap (<[a:=Node None nx]> (heap s)) s)).
Proof. intros H. unfold destroy_data, deref, mbind, M_bind, bind. by rewrite H. Qed.

Lemma read_data_Some s a v nx :
  heap s !! a = Some (Node (Some v) nx) → read_data (Some a) s = Ret v s.
Proof. intros H. unfold read_data, deref, mbind, M_bind, bind. by rewrite H. Qed.

Lemma deallocate_Some s a n :
  heap s !! a = Some n →
  deallocate (Some a) s
  = Ret () (record (Deallocate a) (set_heap (delete a (heap s)) s)).
Proof. intros H. unfold deallocate, deref, mbind, M_bind, bind. by rewrite H. Qed.

Lemma allocate_Ret s :
  allocate s
  = Ret (Some (next_addr s))
        (record (Allocate (next_addr s))
                (set_heap (<[next_addr s:=Node None None]> (heap s))
                          (set_next_addr (Pos.succ (next_addr s)) s))).
Proof. done. Qed.

Lemma store_before_head_Ret s x mo :
  store_before_head x mo s
  = Ret () (record (Store_before_head x mo) (set_before_head x s)).
Proof. done. Qed.

Lemma head_Some s b n :
  before_head_ s = Some b → heap s !! b = Some n → head_ s = Ret (next n) s.
Proof.
  intros Hb Hn. unfold head_. rewrite (bind_Ret _ _ _ _ _ (get_Ret _ _)), Hb.
  by apply load_next_Some.
Qed.

End Stepping.

(** One step of a member function: the first action of a bind returns. *)
Ltac solve_lookup :=
  simpl;
  first [ eassumption
        | apply lookup_insert_eq
        | rewrite lookup_insert_ne by done; solve_lookup ].
Ltac flatten_bind :=
  repeat lazymatch goal with
         | |- mbind _ (mbind _ _) _ = _ => rewrite bind_assoc
         end.
Ltac step_by tac :=
  flatten_bind; erewrite bind_Ret by tac; cbv beta iota.
Tactic Notation "step_with" uconstr(H) :=
  step_by ltac:(eapply H; solve_lookup).
Ltac throw_by tac :=
  flatten_bind; erewrite bind_Throw by tac; cbv beta iota.
Ltac step_get :=
  flatten_bind; rewrite (bind_Ret _ _ _ _ _ (get_Ret _ _)); cbv beta iota.
Ltac step_modify :=
  flatten_bind; rewrite (bind_Ret _ _ _ _ _ (modify_Ret _ _)); cbv beta iota.
Ltac step_mret := flatten_bind; rewrite bind_mret; cbv beta iota.

Section MakeNode.

Context {T : Type}.
Implicit Types (s : queue T) (h : gmap positive (node_type T)).
Implicit Types (cs ms : list positive) (bh : positive).
Implicit Types (ls : list (positive * T)).
Implicit Types (P : list (list (positive * option T))).

Lemma first_of_live ls : first_of (live ls) None = head ls.*1.
Proof. by destruct ls. Qed.

Lemma lookup_cache_head s c r ms bh ls P :
  repr s (c :: r) ms bh ls P →
  heap s !! c = Some (Node None (head (r ++ ms ++ [bh]))).
Proof.
  intros [Hh _ _ _ _ _]. rewrite main_cons in Hh.
  apply (heap_is_lookup _ [] []) in Hh. by rewrite first_of_main in Hh.
Qed.

Lemma lookup_sentinel s cs ms bh ls P :
  repr s cs ms bh ls P → heap s !! bh = Some (Node None (head ls.*1)).
Proof.
  intros [Hh _ _ _ _ _]. rewrite main_sentinel in Hh.
  apply (heap_is_lookup _ []) in Hh. by rewrite first_of_live in Hh.
Qed.

Lemma lookup_front s cs ms bh x v ls P :
  repr s cs ms bh ((x, v) :: ls) P →
  heap s !! x = Some (Node (Some v) (head ls.*1)).
Proof.
  intros [Hh _ _ _ _ _]. unfold main in Hh. simpl in Hh.
  apply (heap_is_lookup _ []) in Hh. by rewrite first_of_live in Hh.
Qed.

Lemma recycle_Some s c r ms bh ls P v :
  repr s (c :: r) ms bh ls P → cache_tail_ s ≠ Some c →
  ∃ s', make_node_after_refill (Some c) (Some v) s = Ret (Some c) s' ∧
        repr s' r ms bh ls (P ++ [[(c, Some v)]]) ∧
        trace s' = trace s ++ [Construct_data c v; Construct_next c] ∧
        next_addr s' = next_addr s ∧
        heap s' = <[c:=Node (Some v) None]> (heap s) ∧
        cache_tail_ s' = cache_tail_ s.
Proof.
  intros Hr Hne. pose proof (lookup_cache_head _ _ _ _ _ _ _ Hr) as Hc.
  destruct Hr as [Hh Ha Hch Hct Hbh Ht].
  eexists. split.
  { unfold make_node_after_refill. step_get.
    unfold ptr_eqb. rewrite bool_decide_eq_false_2 by done. simpl negb. cbv iota.
    step_with construct_data_Some.
    step_with advance_Some. step_modify. step_mret.
    step_with construct_next_Some. simpl. reflexivity. }
  split; [|split; [simpl; by rewrite <- (assoc (++))|]].
  2: { split; [done|]. simpl. by rewrite insert_insert_eq. }
  split; simpl; try done.
  - rewrite main_cons in Hh.
    apply (heap_is_set_data (Some v) _ [] []) in Hh. simpl in Hh.
    rewrite first_of_main in Hh. apply (heap_is_cut _ [] []) in Hh.
    revert Hh. apply heap_is_Permutation.
    exact (Permutation_cons_append (_ :: P) _).
  - apply (alloc_ok_step 0 0 s); simpl; try done.
    + intros a Ha'. left. rewrite insert_insert_eq in Ha'.
      by apply (is_Some_insert_Some _ _ _ _ _ Hc) in Ha'.
    + by rewrite <- (assoc (++)), allocations_app.
    + by rewrite <- (assoc (++)), deallocations_app.
    + rewrite insert_insert_eq. by erewrite size_insert_Some.
Qed.

Lemma recycle_None s c r ms bh ls P :
  repr s (c :: r) ms bh ls P → cache_tail_ s ≠ Some c →
  make_node_after_refill (Some c) None s
  = Throw (record (Construct_failed c) s) ∧
  repr (record (Construct_failed c) s) (c :: r) ms bh ls P.
Proof.
  intros Hr Hne. pose proof (lookup_cache_head _ _ _ _ _ _ _ Hr) as Hc.
  destruct Hr as [Hh Ha Hch Hct Hbh Ht]. split.
  { unfold make_node_after_refill. step_get.
    unfold ptr_eqb. rewrite bool_decide_eq_false_2 by done. simpl negb. cbv iota.
    flatten_bind. by erewrite bind_Throw by (by eapply construct_data_None). }
  split; simpl; try done.
  apply (alloc_ok_step 0 0 s); simpl; auto.
  - reflexivity.
  - by rewrite allocations_app.
  - by rewrite deallocations_app.
Qed.

Lemma lookup_next_addr s : alloc_ok s → heap s !! next_addr s = None.
Proof.
  intros [Hf _]. apply eq_None_not_Some. intros H. apply Hf in H. lia.
Qed.

Lemma fresh_Some s bh ls P v :
  repr s [] [] bh ls P →
  ∃ s', make_node_after_refill (cache_head_ s) (Some v) s
        = Ret (Some (next_addr s)) s' ∧
        repr s' [] [] bh ls (P ++ [[(next_addr s, Some v)]]) ∧
        trace s' = trace s ++ [Allocate (next_addr s);
                               Construct_data (next_addr s) v;
                               Construct_next (next_addr s)] ∧
        next_addr s' = Pos.succ (next_addr s) ∧
        heap s' = <[next_addr s:=Node (Some v) None]> (heap s) ∧
        cache_tail_ s' = cache_tail_ s.
Proof.
  intros [Hh Ha Hch Hct Hbh Ht].
  pose proof (lookup_next_addr _ Ha) as Hx.
  eexists. split.
  { unfold make_node_after_refill. step_get.
    rewrite Hch, Hct. unfold ptr_eqb. rewrite bool_decide_eq_true_2 by done.
    simpl negb. cbv iota.
    step_with allocate_Ret.
    step_by ltac:(apply try_catch_Ret, construct_data_Some; solve_lookup).
    step_mret. step_with construct_next_Some. simpl. reflexivity. }
  split; [|split; [simpl; by rewrite <- !(assoc (++))|]].
  2: { split; [done|]. simpl. by rewrite !insert_insert_eq. }
  split; simpl; try done.
  - rewrite !insert_insert_eq.
    apply (heap_is_alloc _ _ _ Hx) in Hh.
    apply (heap_is_set_data (Some v) _ _ [] _ _ [] []) in Hh.
    rewrite insert_insert_eq in Hh. exact Hh.
  - apply (alloc_ok_step 1 0 s); simpl; try done.
    + intros a. rewrite !insert_insert_eq, lookup_insert.
      case_decide; [subst; right; lia|auto].
    + lia.
    + by rewrite <- !(assoc (++)), allocations_app.
    + by rewrite <- !(assoc (++)), deallocations_app.
    + rewrite !insert_insert_eq, map_size_insert_None by done. lia.
Qed.

Lemma fresh_None s bh ls P :
  repr s [] [] bh ls P →
  ∃ s', make_node_after_refill (cache_head_ s) None s = Throw s' ∧
        repr s' [] [] bh ls P ∧
        trace s' = trace s ++ [Allocate (next_addr s);
                               Construct_failed (next_addr s);
                               Deallocate (next_addr s)] ∧
        next_addr s' = Pos.succ (next_addr s) ∧
        heap s' = heap s ∧ cache_head_ s' = cache_head_ s ∧
        cache_tail_ s' = cache_tail_ s.
Proof.
  intros [Hh Ha Hch Hct Hbh Ht].
  pose proof (lookup_next_addr _ Ha) as Hx.
  eexists. split.
  { unfold make_node_after_refill. step_get.
    rewrite Hch, Hct. unfold ptr_eqb. rewrite bool_decide_eq_true_2 by done.
    simpl negb. cbv iota.
    step_with allocate_Ret.
    throw_by ltac:(erewrite try_catch_Throw
                     by (eapply construct_data_None; solve_lookup);
                   erewrite bind_Ret by (eapply deallocate_Some; solve_lookup);
                   reflexivity).
    reflexivity. }
  assert (delete (next_addr s) (<[next_addr s:=Node None None]> (heap s))
          = heap s) as Hdel.
  { rewrite delete_insert_eq. by apply delete_id. }
  split; [|split; [simpl; by rewrite <- !(assoc (++))|by simpl]].
  split; simpl; try done.
  - by rewrite Hdel.
  - apply (alloc_ok_step 1 1 s); simpl; try done.
    + intros a. rewrite Hdel. auto.
    + lia.
    + by rewrite <- !(assoc (++)), allocations_app.
    + by rewrite <- !(assoc (++)), deallocations_app.
    + by rewrite Hdel.
Qed.

(** *** [make_node_] *)

Lemma refill_nil cs ms : (refill cs ms).1 = [] ↔ cs ++ ms = [].
Proof. destruct cs, ms; simpl; split; congruence. Qed.

Lemma refill_app cs ms : (refill cs ms).1 ++ (refill cs ms).2 = cs ++ ms.
Proof. destruct cs; simpl; [by rewrite app_nil_r|done]. Qed.

(** The node [make_node_] returns comes from the front of the cache, or
    from the allocator when the cache is empty after the refill. *)
Lemma make_node_Some s cs ms bh ls P v :
  repr s cs ms bh ls P →
  ∃ x cs' ms' s',
    make_node_ (Some v) s = Ret (Some x) s' ∧
    repr s' cs' ms' bh ls (P ++ [[(x, Some v)]]) ∧
    heap s' = <[x:=Node (Some v) None]> (heap s) ∧
    cache_tail_ s' = cache_tail_ (refilled s) ∧
    ((cache_head_ s = Some x ∧ x :: cs' ++ ms' = cs ++ ms ∧
      trace s' = trace s ++ [Construct_data x v; Construct_next x] ∧
      next_addr s' = next_addr s)
     ∨ (x = next_addr s ∧ cs ++ ms = [] ∧ cs' ++ ms' = [] ∧
        trace s' = trace s ++ [Allocate x; Construct_data x v;
                               Construct_next x] ∧
        next_addr s' = Pos.succ x)).
Proof.
  intros Hr. rewrite make_node_unfold.
  destruct (repr_refilled _ _ _ _ _ _ Hr) as (Hr' & Hch & Htr & Hna & Hct).
  pose proof (refill_nil cs ms) as Hnil. pose proof (refill_app cs ms) as Happ.
  assert (heap (refilled s) = heap s) as Hhp.
  { unfold refilled. by destruct (ptr_eqb _ _). }
  destruct (refill cs ms) as [[|c r] ms1]; simpl in *.
  - assert (cs ++ ms = []) as Hemp by by apply Hnil.
    rewrite Hemp in Happ; subst ms1. rewrite <- Hch.
    destruct (fresh_Some _ _ _ _ v Hr')
      as (s' & Hrun & Hr'' & Ht' & Hn' & Hh' & Hct').
    rewrite Hna in *. rewrite Htr, Hhp in *.
    exists (next_addr s), [], [], s'. split_and!; try done.
    right. by rewrite Hemp in *.
  - assert (cache_head_ s = Some c) as Hc.
    { rewrite <- Hch. by destruct Hr'. }
    assert (cache_tail_ (refilled s) ≠ Some c) as Hne.
    { rewrite <- Hc, Hct, <- Happ. done. }
    rewrite Hc.
    destruct (recycle_Some _ _ _ _ _ _ _ v Hr' Hne)
      as (s' & Hrun & Hr'' & Ht' & Hn' & Hh' & Hct').
    rewrite Htr, Hna, Hhp in *.
    exists c, r, ms1, s'. split_and!; try done. by left.
Qed.

(** When the constructor of [T] throws, [make_node_] leaves everything as
    it was, but for the producer's snapshot [cache_tail_]. *)
Lemma make_node_None s cs ms bh ls P :
  repr s cs ms bh ls P →
  ∃ cs' ms' s',
    make_node_ None s = Throw s' ∧
    repr s' cs' ms' bh ls P ∧ cs' ++ ms' = cs ++ ms ∧
    heap s' = heap s ∧
    cache_head_ s' = cache_head_ s ∧
    cache_tail_ s' = cache_tail_ (refilled s) ∧
    ((∃ c, cache_head_ s = Some c ∧ cs ++ ms ≠ [] ∧
           s' = record (Construct_failed c) (refilled s) ∧
           trace s' = trace s ++ [Construct_failed c] ∧
           next_addr s' = next_addr s)
     ∨ (cs ++ ms = [] ∧
        trace s' = trace s ++ [Allocate (next_addr s);
                               Construct_failed (next_addr s);
                               Deallocate (next_addr s)] ∧
        next_addr s' = Pos.succ (next_addr s))).
Proof.
  intros Hr. rewrite make_node_unfold.
  destruct (repr_refilled _ _ _ _ _ _ Hr) as (Hr' & Hch & Htr & Hna & Hct).
  pose proof (refill_nil cs ms) as Hnil. pose proof (refill_app cs ms) as Happ.
  assert (heap (refilled s) = heap s) as Hhp.
  { unfold refilled. by destruct (ptr_eqb _ _). }
  destruct (refill cs ms) as [[|c r] ms1]; simpl in *.
  - assert (cs ++ ms = []) as Hemp by by apply Hnil.
    rewrite Hemp in Happ; subst ms1. rewrite <- Hch.
    destruct (fresh_None _ _ _ _ Hr')
      as (s' & Hrun & Hr'' & Ht' & Hn' & Hh' & Hch' & Hct').
    rewrite Hna in *. rewrite Htr, Hhp in *.
    exists [], [], s'. split_and!; try done; try congruence. by right.
  - assert (cache_head_ s = Some c) as Hc.
    { rewrite <- Hch. by destruct Hr'. }
    assert (cache_tail_ (refilled s) ≠ Some c) as Hne.
    { rewrite <- Hc, Hct, <- Happ. done. }
    rewrite Hc.
    destruct (recycle_None _ _ _ _ _ _ _ Hr' Hne) as (Hrun & Hr'').
    exists (c :: r), ms1, (record (Construct_failed c) (refilled s)).
    split_and!; simpl; try done; [congruence|].
    left. exists c. split_and!; simpl; try done.
    + by rewrite <- Happ.
    + by rewrite Htr.
Qed.

End MakeNode.

Ltac count_events :=
  simpl; rewrite <- ?(assoc (++)), ?allocations_app, ?deallocations_app;
  unfold allocations, deallocations; simpl; lia.

Section Producer.

Context {T : Type}.
Implicit Types (s : queue T) (h : gmap positive (node_type T)).
Implicit Types (cs ms : list positive) (bh : positive).
Implicit Types (ls ps : list (positive * T)).
Implicit Types (P : list (list (positive * option T))).

Lemma constructed_app (tr1 tr2 : list (event T)) :
  constructed (tr1 ++ tr2) = constructed tr1 ++ constructed tr2.
Proof. apply omap_app. Qed.

Lemma main_snoc cs ms bh ls ps :
  main cs ms bh (ls ++ ps) = main cs ms bh ls ++ live ps.
Proof. unfold main. by rewrite live_app, (assoc (++)). Qed.

Lemma main_tail cs ms bh ls :
  ∃ c1 t d, main cs ms bh ls = c1 ++ [(t, d)] ∧ last (bh :: ls.*1) = Some t.
Proof.
  destruct ls as [|[x v] ls _] using rev_ind.
  - exists (dead (cs ++ ms)), bh, None. by rewrite main_sentinel.
  - exists (main cs ms bh ls), x, (Some v). split; [by rewrite main_snoc|].
    rewrite fmap_app. simpl. by rewrite app_comm_cons, last_snoc.
Qed.

Lemma lookup_tail s cs ms bh ls P :
  repr s cs ms bh ls P →
  ∃ t d, tail_ s = Some t ∧ heap s !! t = Some (Node d None).
Proof.
  intros [Hh _ _ _ _ Ht].
  destruct (main_tail cs ms bh ls) as (c1 & t & d & Hm & Hl).
  exists t, d. split; [congruence|]. rewrite Hm in Hh.
  by apply (heap_is_lookup _ [] c1 t d []) in Hh.
Qed.

(** The release store into [tail_->next] and the move of [tail_] append
    the private chain to the queue. *)
Lemma publish s cs ms bh ls ps x y :
  repr s cs ms bh ls [live ps] →
  head ps.*1 = Some x → last ps.*1 = Some y →
  ∃ t s',
    tail_ s = Some t ∧
    (t ← get tail_; store_next t (Some x) mo_release ;;
     modify (set_tail (Some y))) s = Ret () s' ∧
    repr s' cs ms bh (ls ++ ps) [] ∧
    trace s' = trace s ++ [Store_next t (Some x) mo_release] ∧
    next_addr s' = next_addr s.
Proof.
  intros Hr Hx Hy.
  destruct (main_tail cs ms bh ls) as (c1 & t & d & Hm & Hl).
  destruct Hr as [Hh Ha Hch Hct Hbh Ht].
  assert (heap s !! t = Some (Node d None)) as Hlk.
  { rewrite Hm in Hh. by apply (heap_is_lookup _ [] c1 t d []) in Hh. }
  exists t. eexists. split; [congruence|]. split.
  { step_get. rewrite Ht, Hl. step_with store_next_Some. reflexivity. }
  split; [|done]. split; simpl; try done.
  - rewrite Hm in Hh. apply (heap_is_link _ [] c1 t d (live ps) []) in Hh.
    rewrite first_of_live, Hx in Hh.
    by rewrite main_snoc, Hm, <- (assoc (++)).
  - apply (alloc_ok_step 0 0 s); simpl; try done.
    + intros a Ha'. left. by apply (is_Some_insert_Some _ _ _ _ _ Hlk) in Ha'.
    + by rewrite allocations_app.
    + by rewrite deallocations_app.
    + by erewrite size_insert_Some.
  - rewrite fmap_app, app_comm_cons, last_app, Hy. done.
Qed.

(** *** [emplace] *)

Lemma emplace_Some s cs ms bh ls v :
  repr s cs ms bh ls [] →
  ∃ x t cs' ms' s',
    tail_ s = Some t ∧
    emplace (Some v) s = Ret () s' ∧
    repr s' cs' ms' bh (ls ++ [(x, v)]) [] ∧
    ((cache_head_ s = Some x ∧ x :: cs' ++ ms' = cs ++ ms ∧
      trace s' = trace s ++ [Construct_data x v; Construct_next x;
                             Store_next t (Some x) mo_release] ∧
      next_addr s' = next_addr s)
     ∨ (x = next_addr s ∧ cs ++ ms = [] ∧ cs' ++ ms' = [] ∧
        trace s' = trace s ++ [Allocate x; Construct_data x v;
                               Construct_next x;
                               Store_next t (Some x) mo_release] ∧
        next_addr s' = Pos.succ x)).
Proof.
  intros Hr.
  destruct (make_node_Some _ _ _ _ _ _ v Hr)
    as (x & cs' & ms' & s1 & Hrun & Hr1 & Hh1 & _ & Hcases).
  destruct (publish s1 cs' ms' bh ls [(x, v)] x x Hr1 eq_refl eq_refl)
    as (t & s' & Ht & Hpub & Hr' & Htr & Hna).
  exists x, t, cs', ms', s'. split_and!; try done.
  - destruct Hr, Hr1. congruence.
  - unfold emplace. by step_by ltac:(exact Hrun).
  - rewrite Htr, Hna.
    destruct Hcases as [(? & ? & -> & ->)|(? & ? & ? & -> & ->)];
      [left|right]; by rewrite <- ?(assoc (++)).
Qed.

Lemma emplace_None s cs ms bh ls :
  repr s cs ms bh ls [] →
  ∃ cs' ms' s',
    emplace None s = Throw s' ∧
    repr s' cs' ms' bh ls [] ∧ cs' ++ ms' = cs ++ ms ∧
    heap s' = heap s ∧
    cache_head_ s' = cache_head_ s ∧
    cache_tail_ s' = cache_tail_ (refilled s) ∧
    ((∃ c, cache_head_ s = Some c ∧ cs ++ ms ≠ [] ∧
           s' = record (Construct_failed c) (refilled s) ∧
           trace s' = trace s ++ [Construct_failed c] ∧
           next_addr s' = next_addr s)
     ∨ (cs ++ ms = [] ∧
        trace s' = trace s ++ [Allocate (next_addr s);
                               Construct_failed (next_addr s);
                               Deallocate (next_addr s)] ∧
        next_addr s' = Pos.succ (next_addr s))).
Proof.
  intros Hr.
  destruct (make_node_None _ _ _ _ _ _ Hr)
    as (cs' & ms' & s' & Hrun & Hrest).
  exists cs', ms', s'. split; [|done].
  unfold emplace. by throw_by ltac:(exact Hrun).
Qed.

(** *** The range [push] *)

(** Linking a new node behind the private chain. *)
Lemma link_staged s cs ms bh ls ps it x v :
  repr s cs ms bh ls [live ps; [(x, Some v)]] → last ps.*1 = Some it →
  ∃ s',
    store_next (Some it) (Some x) mo_relaxed s = Ret () s' ∧
    repr s' cs ms bh ls [live (ps ++ [(x, v)])] ∧
    trace s' = trace s ++ [Store_next it (Some x) mo_relaxed] ∧
    next_addr s' = next_addr s.
Proof.
  intros [Hh Ha Hch Hct Hbh Ht] Hit.
  destruct ps as [|[it' w] ps _] using rev_ind; [done|].
  rewrite fmap_app in Hit. simpl in Hit. rewrite last_snoc in Hit.
  injection Hit as ->.
  rewrite live_app in Hh. simpl in Hh.
  pose proof (heap_is_lookup _ [_] (live ps) it (Some w) [] _ Hh) as Hlk.
  eexists. split; [by eapply store_next_Some|].
  split; [|done]. split; simpl; try done.
  - apply (heap_is_link _ [_] (live ps) it (Some w) [_] []) in Hh.
    rewrite !live_app, <- (assoc (++)). exact Hh.
  - apply (alloc_ok_step 0 0 s); simpl; try done.
    + intros a Ha'. left. by apply (is_Some_insert_Some _ _ _ _ _ Hlk) in Ha'.
    + by rewrite allocations_app.
    + by rewrite deallocations_app.
    + by erewrite size_insert_Some.
Qed.

Lemma make_node_Some_events s cs ms bh ls P v :
  repr s cs ms bh ls P →
  ∃ x cs' ms' s' evs,
    make_node_ (Some v) s = Ret (Some x) s' ∧
    repr s' cs' ms' bh ls (P ++ [[(x, Some v)]]) ∧
    trace s' = trace s ++ evs ∧
    constructed evs = [(x, v)] ∧ Forall is_private evs.
Proof.
  intros Hr.
  destruct (make_node_Some _ _ _ _ _ _ v Hr)
    as (x & cs' & ms' & s' & Hrun & Hr' & _ & _ & Hcases).
  exists x, cs', ms', s'.
  destruct Hcases as [(_ & _ & Htr & _)|(_ & _ & _ & Htr & _)];
    eexists; (split_and!; [done|done|exact Htr|done|]);
    repeat constructor.
Qed.

Lemma make_node_None_events s cs ms bh ls P :
  repr s cs ms bh ls P →
  ∃ cs' ms' s' evs,
    make_node_ None s = Throw s' ∧
    repr s' cs' ms' bh ls P ∧
    trace s' = trace s ++ evs ∧
    constructed evs = [] ∧ Forall is_private evs.
Proof.
  intros Hr.
  destruct (make_node_None _ _ _ _ _ _ Hr)
    as (cs' & ms' & s' & Hrun & Hr' & _ & _ & _ & _ & Hcases).
  exists cs', ms', s'.
  destruct Hcases as [(c & _ & _ & _ & Htr & _)|(_ & Htr & _)];
    eexists; (split_and!; [done|done|exact Htr|done|]);
    repeat constructor.
Qed.

Lemma push_rest_Some vs : ∀ s cs ms bh ls ps it,
  repr s cs ms bh ls [live ps] → last ps.*1 = Some it →
  ∃ qs cs' ms' s' evs,
    push_rest (Some <$> vs) (Some it) s = Ret (last (ps ++ qs).*1) s' ∧
    repr s' cs' ms' bh ls [live (ps ++ qs)] ∧ qs.*2 = vs ∧
    trace s' = trace s ++ evs ∧
    constructed evs = qs ∧ Forall is_private evs.
Proof.
  induction vs as [|v vs IH]; intros s cs ms bh ls ps it Hr Hit.
  - exists [], cs, ms, s, []. rewrite !app_nil_r. split_and!; try done. by rewrite Hit.
  - destruct (make_node_Some_events _ _ _ _ _ _ v Hr)
      as (x & cs1 & ms1 & s1 & evs1 & Hrun1 & Hr1 & Htr1 & Hc1 & Hp1).
    destruct (link_staged _ _ _ _ _ _ _ _ _ Hr1 Hit)
      as (s2 & Hrun2 & Hr2 & Htr2 & _).
    destruct (IH s2 cs1 ms1 bh ls (ps ++ [(x, v)]) x Hr2)
      as (qs & cs' & ms' & s' & evs & Hrun & Hr' & Hqs & Htr & Hc & Hp).
    { rewrite fmap_app. simpl. by rewrite last_snoc. }
    exists ((x, v) :: qs), cs', ms', s',
      (evs1 ++ [Store_next it (Some x) mo_relaxed] ++ evs).
    rewrite <- (assoc (++)) in Hrun, Hr'. simpl in Hrun, Hr'.
    split_and!; try done.
    + simpl. step_by ltac:(exact Hrun1). by step_by ltac:(exact Hrun2).
    + by rewrite fmap_cons, Hqs.
    + by rewrite Htr, Htr2, Htr1, <- !(assoc (++)).
    + rewrite !constructed_app, Hc1, Hc. done.
    + apply Forall_app. split; [done|]. by apply Forall_cons.
Qed.

Lemma push_rest_None vs rest : ∀ s cs ms bh ls ps it,
  repr s cs ms bh ls [live ps] → last ps.*1 = Some it →
  ∃ qs cs' ms' s' evs,
    push_rest ((Some <$> vs) ++ None :: rest) (Some it) s = Throw s' ∧
    repr s' cs' ms' bh ls [live (ps ++ qs)] ∧ qs.*2 = vs ∧
    trace s' = trace s ++ evs ∧
    constructed evs = qs ∧ Forall is_private evs.
Proof.
  induction vs as [|v vs IH]; intros s cs ms bh ls ps it Hr Hit.
  - destruct (make_node_None_events _ _ _ _ _ _ Hr)
      as (cs' & ms' & s' & evs & Hrun & Hr' & Htr & Hc & Hp).
    exists [], cs', ms', s', evs. rewrite !app_nil_r. split_and!; try done.
    simpl. by throw_by ltac:(exact Hrun).
  - destruct (make_node_Some_events _ _ _ _ _ _ v Hr)
      as (x & cs1 & ms1 & s1 & evs1 & Hrun1 & Hr1 & Htr1 & Hc1 & Hp1).
    destruct (link_staged _ _ _ _ _ _ _ _ _ Hr1 Hit)
      as (s2 & Hrun2 & Hr2 & Htr2 & _).
    destruct (IH s2 cs1 ms1 bh ls (ps ++ [(x, v)]) x Hr2)
      as (qs & cs' & ms' & s' & evs & Hrun & Hr' & Hqs & Htr & Hc & Hp).
    { rewrite fmap_app. simpl. by rewrite last_snoc. }
    exists ((x, v) :: qs), cs', ms', s',
      (evs1 ++ [Store_next it (Some x) mo_relaxed] ++ evs).
    rewrite <- (assoc (++)) in Hr'. simpl in Hr'.
    split_and!; try done.
    + simpl. step_by ltac:(exact Hrun1). by step_by ltac:(exact Hrun2).
    + by rewrite fmap_cons, Hqs.
    + by rewrite Htr, Htr2, Htr1, <- !(assoc (++)).
    + rewrite !constructed_app, Hc1, Hc. done.
    + apply Forall_app. split; [done|]. by apply Forall_cons.
Qed.

Lemma size_delete_Some h a n :
  h !! a = Some n → size (delete a h) + 1 = size h.
Proof.
  intros H. rewrite map_size_delete_Some by eauto.
  assert (size h ≠ 0) by (eapply map_size_ne_0_lookup_2; eauto). lia.
Qed.

(** Destroying and deallocating a chain of constructed nodes, as the
    [catch] block of the range [push] and the destructor do. *)
Lemma free_chain_spec ps : ∀ s C1 C2 fuel,
  heap_is (heap s) (C1 ++ live ps :: C2) → alloc_ok s → length ps ≤ fuel →
  ∃ s',
    free_chain fuel (head ps.*1) s = Ret () s' ∧
    heap_is (heap s') (C1 ++ C2) ∧ alloc_ok s' ∧
    same_pointers s s' ∧ next_addr s' = next_addr s ∧
    trace s' = trace s ++ cleanup ps.*1.
Proof.
  induction ps as [|[a v] ps IH]; intros s C1 C2 fuel Hh Ha Hfuel.
  - exists s. split_and!; try done.
    + by destruct fuel.
    + exact (proj1 (heap_is_nil _ C1 C2) Hh).
    + by rewrite app_nil_r.
  - destruct fuel as [|fuel]; [simpl in Hfuel; lia|].
    pose proof (heap_is_lookup _ C1 [] a (Some v) (live ps) C2 Hh) as Hlk.
    rewrite first_of_live in Hlk.
    pose proof (heap_is_set_data None _ C1 [] a _ (live ps) C2 Hh) as Hh1.
    rewrite first_of_live in Hh1.
    apply heap_is_dealloc in Hh1.
    set (s1 := record (Deallocate a)
                 (set_heap (delete a (<[a:=Node None (head ps.*1)]> (heap s)))
                    (record (Destroy_data a) s))).
    assert (alloc_ok s1) as Ha1.
    { apply (alloc_ok_step 0 1 s); simpl; try done.
      - intros a'. rewrite lookup_delete. case_decide; [by intros [? ?]|].
        rewrite lookup_insert_ne by done. auto.
      - count_events.
      - count_events.
      - rewrite delete_insert_eq. erewrite <- (size_delete_Some (heap s)) by done.
        lia. }
    destruct (IH s1 C1 C2 fuel) as (s' & Hrun & Hh' & Ha' & Hp & Hna & Htr).
    { done. }
    { done. }
    { simpl in Hfuel. lia. }
    exists s'. split_and!; try done.
    simpl. step_with advance_Some. step_with destroy_data_Some.
    step_with deallocate_Some. simpl. exact Hrun.
    simpl in Htr. rewrite Htr. by rewrite <- !(assoc (++)).
Qed.

Lemma repr_same_pointers s s' cs ms bh ls P P' :
  repr s cs ms bh ls P → same_pointers s s' →
  heap_is (heap s') (main cs ms bh ls :: P') → alloc_ok s' →
  repr s' cs ms bh ls P'.
Proof.
  intros [_ _ Hch Hct Hbh Ht] (Ht' & Hbh' & Hct' & Hch') Hh Ha.
  split; try done; congruence.
Qed.

Lemma repr_private_fresh s cs ms bh ls ps a :
  repr s cs ms bh ls [live ps] → a ∈ ps.*1 → a ∉ (main cs ms bh ls).*1.
Proof.
  intros [(_ & Hnd & _) _ _ _ _ _] Ha Hin.
  rewrite !addrs_cons, live_addrs in Hnd.
  apply NoDup_app in Hnd as (_ & Hnd & _). apply (Hnd a Hin).
  apply elem_of_app. by left.
Qed.

Lemma repr_lookup_None s cs ms bh ls a :
  repr s cs ms bh ls [] → a ∉ (main cs ms bh ls).*1 → heap s !! a = None.
Proof.
  intros [(_ & _ & Hdom) _ _ _ _ _] Ha. apply eq_None_not_Some. intros H.
  apply Hdom in H. rewrite addrs_cons in H.
  apply elem_of_app in H as [H|H]; [done|by apply elem_of_nil in H].
Qed.

Lemma push_range_Some s cs ms bh ls v vs :
  repr s cs ms bh ls [] →
  ∃ ps cs' ms' s' evs t x,
    push_range (Some <$> v :: vs) s = Ret () s' ∧
    repr s' cs' ms' bh (ls ++ ps) [] ∧ ps.*2 = v :: vs ∧
    tail_ s = Some t ∧ head ps.*1 = Some x ∧
    trace s' = trace s ++ evs ++ [Store_next t (Some x) mo_release] ∧
    constructed evs = ps ∧ Forall is_private evs.
Proof.
  intros Hr.
  destruct (make_node_Some_events _ _ _ _ _ _ v Hr)
    as (x & cs1 & ms1 & s1 & evs1 & Hrun1 & Hr1 & Htr1 & Hc1 & Hp1).
  destruct (push_rest_Some vs s1 cs1 ms1 bh ls [(x, v)] x Hr1 eq_refl)
    as (qs & cs' & ms' & s2 & evs2 & Hrun2 & Hr2 & Hqs & Htr2 & Hc2 & Hp2).
  destruct (last ([(x, v)] ++ qs).*1) as [y|] eqn:Hy;
    [|by apply last_None in Hy].
  destruct (publish s2 cs' ms' bh ls ([(x, v)] ++ qs) x y Hr2 eq_refl Hy)
    as (t & s' & Ht & Hpub & Hr' & Htr & Hna).
  exists ((x, v) :: qs), cs', ms', s', (evs1 ++ evs2), t, x.
  split_and!; try done.
  - simpl. step_by ltac:(exact Hrun1).
    by step_by ltac:(apply try_catch_Ret; exact Hrun2).
  - by rewrite fmap_cons, Hqs.
  - destruct Hr, Hr1, Hr2. congruence.
  - by rewrite Htr, Htr2, Htr1, <- !(assoc (++)).
  - by rewrite constructed_app, Hc1, Hc2.
  - by apply Forall_app.
Qed.

Lemma push_range_None s cs ms bh ls vs rest :
  repr s cs ms bh ls [] →
  ∃ ps cs' ms' s' evs,
    push_range ((Some <$> vs) ++ None :: rest) s = Throw s' ∧
    repr s' cs' ms' bh ls [] ∧ ps.*2 = vs ∧
    trace s' = trace s ++ evs ++ cleanup ps.*1 ∧
    constructed evs = ps ∧ Forall is_private evs ∧
    (∀ a, a ∈ ps.*1 → heap s' !! a = None).
Proof.
  intros Hr. destruct vs as [|v vs].
  - destruct (make_node_None_events _ _ _ _ _ _ Hr)
      as (cs' & ms' & s' & evs & Hrun & Hr' & Htr & Hc & Hp).
    exists [], cs', ms', s', evs. rewrite app_nil_r.
    split_and!; try done; [|by intros ? ?%elem_of_nil].
    simpl. by throw_by ltac:(exact Hrun).
  - destruct (make_node_Some_events _ _ _ _ _ _ v Hr)
      as (x & cs1 & ms1 & s1 & evs1 & Hrun1 & Hr1 & Htr1 & Hc1 & Hp1).
    destruct (push_rest_None vs rest s1 cs1 ms1 bh ls [(x, v)] x Hr1 eq_refl)
      as (qs & cs' & ms' & s2 & evs2 & Hrun2 & Hr2 & Hqs & Htr2 & Hc2 & Hp2).
    pose proof Hr2 as [Hh2 Ha2 _ _ _ _].
    destruct (free_chain_spec ([(x, v)] ++ qs) s2 [_] [] (walk_bound s2) Hh2 Ha2)
      as (s' & Hrun & Hh' & Ha' & Hp & Hna & Htr).
    { unfold walk_bound. rewrite (heap_is_size _ _ Hh2), !addrs_cons.
      rewrite !length_app, live_addrs, !length_fmap.
      rewrite length_app. simpl. lia. }
    pose proof (repr_same_pointers _ _ _ _ _ _ _ _ Hr2 Hp Hh' Ha') as Hr'.
    exists ((x, v) :: qs), cs', ms', s', (evs1 ++ evs2).
    split_and!; try done.
    + simpl. step_by ltac:(exact Hrun1).
      throw_by ltac:(erewrite try_catch_Throw by exact Hrun2;
                     rewrite (bind_Ret _ _ _ _ _ (get_Ret _ _));
                     erewrite bind_Ret by exact Hrun; reflexivity).
      done.
    + by rewrite fmap_cons, Hqs.
    + by rewrite Htr, Htr2, Htr1, <- !(assoc (++)).
    + by rewrite constructed_app, Hc1, Hc2.
    + by apply Forall_app.
    + intros a Ha. eapply repr_lookup_None; [done|].
      by eapply repr_private_fresh.
Qed.

End Producer.

Section Consumer.

Context {T : Type}.
Implicit Types (s : queue T) (h : gmap positive (node_type T)).
Implicit Types (cs ms : list positive) (bh : positive).
Implicit Types (ls ps : list (positive * T)).
Implicit Types (P : list (list (positive * option T))).

Lemma head_repr s cs ms bh ls P :
  repr s cs ms bh ls P → head_ s = Ret (head ls.*1) s.
Proof.
  intros Hr. pose proof (lookup_sentinel _ _ _ _ _ _ Hr) as Hlk.
  destruct Hr as [_ _ _ _ Hbh _]. by rewrite (head_Some _ _ _ Hbh Hlk).
Qed.

Lemma main_shift cs ms bh x ls :
  dead (cs ++ ms ++ [bh]) ++ (x, None) :: live ls
  = main cs (ms ++ [bh]) x ls.
Proof.
  unfold main. rewrite !dead_app. simpl. by rewrite <- !(assoc (++)).
Qed.

Lemma head_app_cons {A} (l1 l2 : list A) x :
  head ((l1 ++ [x]) ++ l2) = head (l1 ++ [x]).
Proof. by destruct l1. Qed.

(** The consumer destroys the front value and moves [before_head_] to its
    node; the old sentinel joins the nodes released to the producer. *)
Lemma repr_advance s cs ms bh x v ls P tr' :
  repr s cs ms bh ((x, v) :: ls) P →
  allocations tr' = allocations (trace s) →
  deallocations tr' = deallocations (trace s) →
  repr (Queue (tail_ s) (Some x) (cache_tail_ s) (cache_head_ s)
              (<[x:=Node None (head ls.*1)]> (heap s)) (next_addr s) tr')
       cs (ms ++ [bh]) x ls P.
Proof.
  intros Hr Hal Hde. pose proof (lookup_front _ _ _ _ _ _ _ _ Hr) as Hlk.
  destruct Hr as [Hh Ha Hch Hct Hbh Ht]. split; simpl; try done.
  - unfold main in Hh. simpl in Hh.
    apply (heap_is_set_data None _ [] _ x (Some v) (live ls) P) in Hh.
    by rewrite first_of_live, main_shift in Hh.
  - apply (alloc_ok_step 0 0 s); simpl; try done.
    + intros a Ha'. left. by apply (is_Some_insert_Some _ _ _ _ _ Hlk) in Ha'.
    + lia.
    + lia.
    + by erewrite size_insert_Some.
  - by rewrite Hch, !(assoc (++) cs), head_app_cons.
  - by rewrite Hct, head_app_cons.
Qed.

Lemma repr_record s cs ms bh ls P e :
  repr s cs ms bh ls P → is_allocate e = false → is_deallocate e = false →
  repr (record e s) cs ms bh ls P.
Proof.
  intros [Hh Ha Hch Hct Hbh Ht] Hal Hde. split; simpl; try done.
  apply (alloc_ok_step 0 0 s); simpl; auto.
  - reflexivity.
  - rewrite allocations_app. unfold allocations at 2. simpl.
    destruct e; simpl in *; try done; lia.
  - rewrite deallocations_app. unfold deallocations at 2. simpl.
    destruct e; simpl in *; try done; lia.
Qed.

(** *** [pop] *)

Lemma pop_nil s cs ms bh P out :
  repr s cs ms bh [] P → pop out s = Ret (false, out) s.
Proof.
  intros Hr. unfold pop. by step_by ltac:(by eapply head_repr).
Qed.

Lemma pop_cons s cs ms bh x v ls P out :
  repr s cs ms bh ((x, v) :: ls) P →
  pop out s
  = Ret (true, v)
        (record (Store_before_head (Some x) mo_release)
           (set_before_head (Some x)
              (record (Destroy_data x)
                 (set_heap (<[x:=Node None (head ls.*1)]> (heap s)) s)))) ∧
  repr (record (Store_before_head (Some x) mo_release)
          (set_before_head (Some x)
             (record (Destroy_data x)
                (set_heap (<[x:=Node None (head ls.*1)]> (heap s)) s))))
       cs (ms ++ [bh]) x ls P.
Proof.
  intros Hr. pose proof (lookup_front _ _ _ _ _ _ _ _ Hr) as Hlk. split.
  - unfold pop. step_by ltac:(by eapply head_repr). simpl.
    step_with read_data_Some. step_with destroy_data_Some.
    by step_with store_before_head_Ret.
  - apply (repr_advance _ _ _ _ _ _ _ _ _ Hr); count_events.
Qed.

(** *** [clear] *)

Lemma clear_loop_spec ls : ∀ s pre l P fuel,
  heap_is (heap s) ((pre ++ (l, None) :: live ls) :: P) → alloc_ok s →
  length ls ≤ fuel →
  ∃ s',
    clear_loop fuel (Some l) s = Ret (last (l :: ls.*1)) s' ∧
    heap_is (heap s') ((pre ++ dead (l :: ls.*1)) :: P) ∧ alloc_ok s' ∧
    same_pointers s s' ∧ next_addr s' = next_addr s ∧
    trace s' = trace s ++ (Destroy_data <$> ls.*1).
Proof.
  induction ls as [|[x v] ls IH]; intros s pre l P fuel Hh Ha Hfuel.
  - exists s. pose proof (heap_is_lookup _ [] pre l None [] P Hh) as Hlk.
    split_and!; try done; [|by rewrite app_nil_r].
    destruct fuel; simpl; by step_with load_next_Some.
  - destruct fuel as [|fuel]; [simpl in Hfuel; lia|].
    pose proof (heap_is_lookup _ [] pre l None (live ((x, v) :: ls)) P Hh)
      as Hl.
    rewrite (cons_middle _ pre) in Hh. rewrite (assoc (++)) in Hh.
    pose proof (heap_is_lookup _ [] _ x (Some v) (live ls) P Hh) as Hx.
    apply (heap_is_set_data None _ [] _ x (Some v) (live ls) P) in Hh.
    rewrite first_of_live in Hx, Hh.
    set (s1 := record (Destroy_data x)
                 (set_heap (<[x:=Node None (head ls.*1)]> (heap s)) s)).
    assert (alloc_ok s1) as Ha1.
    { apply (alloc_ok_step 0 0 s); simpl; try done.
      - intros a Ha'. left.
        by apply (is_Some_insert_Some _ _ _ _ _ Hx) in Ha'.
      - count_events.
      - count_events.
      - by erewrite size_insert_Some. }
    destruct (IH s1 (pre ++ [(l, None)]) x P fuel Hh Ha1)
      as (s' & Hrun & Hh' & Ha' & Hp & Hna & Htr); [simpl in Hfuel; lia|].
    exists s'. split_and!; try done.
    + simpl. step_with load_next_Some. simpl.
      step_with destroy_data_Some. exact Hrun.
    + by rewrite <- (assoc (++)) in Hh'.
    + rewrite Htr. simpl. by rewrite <- (assoc (++)).
Qed.

Lemma clear_spec s cs ms bh ls P :
  repr s cs ms bh ls P →
  ∃ ms' bh' s',
    clear s = Ret () s' ∧
    repr s' cs ms' bh' [] P ∧ ms' ++ [bh'] = ms ++ bh :: ls.*1 ∧
    trace s' = trace s ++ (Destroy_data <$> ls.*1)
                       ++ [Store_before_head (Some bh') mo_release].
Proof.
  intros Hr. pose proof Hr as [Hh Ha Hch Hct Hbh Ht].
  rewrite main_sentinel in Hh.
  destruct (clear_loop_spec ls s _ bh P (walk_bound s) Hh Ha)
    as (s1 & Hrun & Hh1 & Ha1 & (Ht1 & Hbh1 & Hct1 & Hch1) & Hna & Htr).
  { unfold walk_bound. rewrite (heap_is_size _ _ Hh), addrs_cons.
    rewrite !length_app, !length_fmap, length_app. simpl.
    unfold live. rewrite length_fmap. lia. }
  destruct (exists_last (l:=bh :: ls.*1)) as (ms1 & bh' & Hsplit); [done|].
  exists (ms ++ ms1), bh'. eexists. split_and!.
  - unfold clear. step_get. step_get. rewrite Hbh.
    step_by ltac:(exact Hrun). apply store_before_head_Ret.
  - rewrite Hsplit, last_snoc in *. split; simpl; try done.
    + unfold main. simpl. rewrite app_nil_r.
      rewrite <- dead_app in Hh1. by rewrite <- !(assoc (++)) in *.
    + apply (alloc_ok_step 0 0 s1); simpl; try done; auto; count_events.
    + rewrite <- !(assoc (++)), Hch1, Hch.
      destruct cs; [|done]. destruct ms; [|done]. simpl.
      by rewrite <- Hsplit.
    + rewrite Hct1, Hct. destruct ms; [|done]. simpl. by rewrite <- Hsplit.
    + by rewrite Ht1.
  - by rewrite Hsplit, (assoc (++)).
  - simpl. rewrite Htr, Hsplit, last_snoc. by rewrite <- !(assoc (++)).
Qed.

(** *** [consume_all] *)

Lemma drain_events_app ls1 ls2 :
  drain_events (ls1 ++ ls2) = drain_events ls1 ++ drain_events ls2.
Proof. apply bind_app. Qed.

(** Running the loop over elements the user function accepts. *)
Lemma consume_loop_accepted f done : ∀ rest s cs ms bh P fuel,
  repr s cs ms bh (done ++ rest) P →
  Forall (λ p, f p.2 = true) done → length done ≤ fuel →
  ∃ ms' bh' s1,
    repr s1 cs ms' bh' rest P ∧ ms' ++ [bh'] = ms ++ bh :: done.*1 ∧
    trace s1 = trace s ++ drain_events done ∧
    consume_loop fuel f (head (done ++ rest).*1) s
    = consume_loop (fuel - length done) f (head rest.*1) s1.
Proof.
  induction done as [|[x v] done IH]; intros rest s cs ms bh P fuel Hr Hok Hfuel.
  - exists ms, bh, s. rewrite app_nil_r, Nat.sub_0_r. by split_and!.
  - destruct fuel as [|fuel]; [simpl in Hfuel; lia|].
    apply Forall_cons in Hok as [Hv Hok]. simpl in Hv.
    pose proof (lookup_front _ _ _ _ _ _ _ _ Hr) as Hlk.
    set (s1 := record (Store_before_head (Some x) mo_release)
                 (set_before_head (Some x)
                    (record (Destroy_data x)
                       (set_heap
                          (<[x:=Node None (head (done ++ rest).*1)]> (heap s))
                          (record (Invoke v) s))))).
    assert (repr s1 cs (ms ++ [bh]) x (done ++ rest) P) as Hr1.
    { apply (repr_advance _ _ _ _ _ _ _ _ _ Hr); count_events. }
    destruct (IH rest s1 cs (ms ++ [bh]) x P fuel Hr1 Hok)
      as (ms' & bh' & s2 & Hr2 & Hsplit & Htr & Hrun); [simpl in Hfuel; lia|].
    exists ms', bh', s2. split_and!; try done.
    + by rewrite Hsplit, <- (assoc (++)).
    + rewrite Htr. simpl. by rewrite <- !(assoc (++)).
    + simpl. step_with read_data_Some. step_modify. rewrite Hv.
      step_mret. step_with destroy_data_Some.
      step_with store_before_head_Ret. step_with load_next_Some.
      exact Hrun.
Qed.

Lemma consume_loop_nil f fuel s : consume_loop fuel f None s = Ret () s.
Proof. by destruct fuel. Qed.

Lemma consume_all_Ret s cs ms bh ls P f :
  repr s cs ms bh ls P → Forall (λ p, f p.2 = true) ls →
  ∃ ms' bh' s',
    consume_all f s = Ret () s' ∧
    repr s' cs ms' bh' [] P ∧ ms' ++ [bh'] = ms ++ bh :: ls.*1 ∧
    trace s' = trace s ++ drain_events ls.
Proof.
  intros Hr Hok. pose proof Hr as [Hh _ _ _ _ _].
  rewrite <- (app_nil_r ls) in Hr.
  destruct (consume_loop_accepted f ls [] s cs ms bh P (walk_bound s) Hr Hok)
    as (ms' & bh' & s' & Hr' & Hsplit & Htr & Hrun).
  { unfold walk_bound. rewrite (heap_is_size _ _ Hh), addrs_cons, main_addrs.
    rewrite !length_app. simpl. rewrite length_fmap. lia. }
  exists ms', bh', s'. split_and!; try done.
  unfold consume_all. step_by ltac:(by eapply head_repr). step_get.
  rewrite Hrun. apply consume_loop_nil.
Qed.

Lemma consume_all_Throw s cs ms bh done x v rest P f :
  repr s cs ms bh (done ++ (x, v) :: rest) P →
  Forall (λ p, f p.2 = true) done → f v = false →
  ∃ ms' bh' s',
    consume_all f s = Throw s' ∧
    repr s' cs ms' bh' ((x, v) :: rest) P ∧
    ms' ++ [bh'] = ms ++ bh :: done.*1 ∧
    trace s' = trace s ++ drain_events done ++ [Invoke v].
Proof.
  intros Hr Hok Hv. pose proof Hr as [Hh _ _ _ _ _].
  assert (length done < walk_bound s) as Hfuel.
  { unfold walk_bound. rewrite (heap_is_size _ _ Hh), addrs_cons, main_addrs.
    rewrite !length_app. simpl. rewrite length_fmap, length_app. lia. }
  destruct (consume_loop_accepted f done _ s cs ms bh P (walk_bound s) Hr Hok)
    as (ms' & bh' & s1 & Hr1 & Hsplit & Htr & Hrun); [lia|].
  pose proof (lookup_front _ _ _ _ _ _ _ _ Hr1) as Hlk.
  exists ms', bh', (record (Invoke v) s1). split_and!; try done.
  - unfold consume_all. step_by ltac:(by eapply head_repr). step_get.
    rewrite Hrun.
    destruct (walk_bound s - length done) as [|fuel] eqn:Hf; [lia|].
    simpl. step_with read_data_Some. step_modify. by rewrite Hv.
  - by apply repr_record.
  - simpl. by rewrite Htr, <- (assoc (++)).
Qed.

Lemma consumed_split f ls :
  ∃ rest, ls = consumed f ls ++ rest ∧
          Forall (λ p, f p.2 = true) (consumed f ls) ∧
          match rest with [] => True | p :: _ => f p.2 = false end.
Proof.
  induction ls as [|p ls (rest & Hsplit & Hok & Hrest)]; [by exists []|].
  simpl. destruct (f p.2) eqn:Hp.
  - exists rest. split_and!; [simpl; congruence|by constructor|done].
  - by exists (p :: ls).
Qed.

(** *** The destructor *)

Lemma first_of_elem (c : list (positive * option T)) a :
  first_of c None = Some a → a ∈ c.*1.
Proof. destruct c as [|[a' d] c]; [done|]. intros [= ->]. left. Qed.

Lemma free_cached_spec l : ∀ s c2 P fuel,
  heap_is (heap s) ((dead l ++ c2) :: P) → alloc_ok s → length l ≤ fuel →
  ∃ s',
    free_cached fuel (first_of (dead l ++ c2) None) (first_of c2 None) s
    = Ret (first_of c2 None) s' ∧
    heap_is (heap s') (c2 :: P) ∧ alloc_ok s' ∧
    same_pointers s s' ∧ next_addr s' = next_addr s ∧
    trace s' = trace s ++ (Deallocate <$> l).
Proof.
  induction l as [|a l IH]; intros s c2 P fuel Hh Ha Hfuel.
  - exists s. split_and!; try done; [|by rewrite app_nil_r].
    unfold ptr_eqb.
    destruct fuel; simpl; unfold ptr_eqb;
      by rewrite bool_decide_eq_true_2 by done.
  - destruct fuel as [|fuel]; [simpl in Hfuel; lia|].
    pose proof (heap_is_lookup _ [] [] a None (dead l ++ c2) P Hh) as Hlk.
    assert (first_of c2 None ≠ Some a) as Hne.
    { intros Hin%first_of_elem. destruct Hh as (_ & Hnd & _).
      rewrite addrs_cons, fmap_app, dead_addrs in Hnd.
      apply NoDup_app in Hnd as (Hnd & _ & _).
      apply NoDup_cons in Hnd as [Hnd _]. apply Hnd, elem_of_app. by right. }
    apply (heap_is_dealloc _ [] a None _ P) in Hh.
    set (s1 := record (Deallocate a) (set_heap (delete a (heap s)) s)).
    assert (alloc_ok s1) as Ha1.
    { apply (alloc_ok_step 0 1 s); simpl; try done.
      - intros a'. rewrite lookup_delete. case_decide; [by intros [? ?]|auto].
      - count_events.
      - count_events.
      - erewrite <- (size_delete_Some (heap s)) by done. lia. }
    destruct (IH s1 c2 P fuel Hh Ha1)
      as (s' & Hrun & Hh' & Ha' & Hp & Hna & Htr); [simpl in Hfuel; lia|].
    exists s'. split_and!; try done.
    + simpl. unfold ptr_eqb. rewrite bool_decide_eq_false_2 by done.
      step_with advance_Some. step_with deallocate_Some. exact Hrun.
    + rewrite Htr. simpl. by rewrite <- (assoc (++)).
Qed.

Lemma destructor_spec s cs ms bh ls :
  repr s cs ms bh ls [] →
  ∃ s',
    destructor s = Ret () s' ∧ heap s' = ∅ ∧
    trace s' = trace s ++ (Deallocate <$> cs ++ ms ++ [bh]) ++ cleanup ls.*1 ∧
    allocations (trace s') = deallocations (trace s').
Proof.
  intros Hr. pose proof Hr as [Hh Ha Hch Hct Hbh Ht].
  assert (length (cs ++ ms ++ [bh]) + length ls ≤ walk_bound s) as Hfuel.
  { unfold walk_bound. rewrite (heap_is_size _ _ Hh), addrs_cons, main_addrs.
    rewrite !length_app. simpl. rewrite length_fmap. lia. }
  destruct (free_cached_spec (cs ++ ms ++ [bh]) s (live ls) [] (walk_bound s)
              Hh Ha) as (s1 & Hrun1 & Hh1 & Ha1 & Hp1 & Hna1 & Htr1); [lia|].
  destruct (free_chain_spec ls s1 [] [] (walk_bound s) Hh1 Ha1)
    as (s' & Hrun & Hh' & Ha' & Hp & Hna & Htr); [lia|].
  assert (heap s' = ∅) as Hemp.
  { apply map_empty. intros a. apply eq_None_not_Some. intros H.
    destruct Hh' as (_ & _ & Hdom). by apply Hdom, elem_of_nil in H. }
  exists s'. split_and!; try done.
  - unfold destructor. step_get. step_by ltac:(by eapply head_repr). step_get.
    rewrite Hch, <- (first_of_main cs ms bh ls None), <- first_of_live.
    step_by ltac:(exact Hrun1). by rewrite first_of_live.
  - by rewrite Htr, Htr1, <- (assoc (++)).
  - destruct Ha' as [_ Hb]. rewrite Hb, Hemp, map_size_empty. lia.
Qed.

(** *** The observations in terms of the representation *)

Lemma segment_chain (c1 : list (positive * option T)) : ∀ fuel h c2 e,
  chain h (c1 ++ c2) e →
  (∀ a, a ∈ c1.*1 → first_of c2 e ≠ Some a) →
  length c1 ≤ fuel →
  segment fuel h (first_of (c1 ++ c2) e) (first_of c2 e) = c1.*1.
Proof.
  induction c1 as [|[a d] c1 IH]; intros fuel h c2 e Hc Hne Hfuel.
  - destruct fuel; simpl; unfold ptr_eqb;
      by rewrite bool_decide_eq_true_2 by done.
  - destruct fuel as [|fuel]; [simpl in Hfuel; lia|].
    destruct Hc as [Hlk Hc]. simpl in Hlk. simpl.
    unfold ptr_eqb. rewrite bool_decide_eq_false_2.
    2: { intros Heq. eapply Hne; [|done]. left. }
    rewrite Hlk. simpl. f_equal. apply IH; [done| |simpl in Hfuel; lia].
    intros a' Ha'. apply Hne. by right.
Qed.

Lemma repr_chain s cs ms bh ls P :
  repr s cs ms bh ls P → chain (heap s) (main cs ms bh ls) None.
Proof. intros [(Hch & _) _ _ _ _ _]. by apply Forall_cons in Hch as [? _]. Qed.

Lemma repr_bound s cs ms bh ls P :
  repr s cs ms bh ls P → length (main cs ms bh ls) < walk_bound s.
Proof.
  intros [Hh _ _ _ _ _]. unfold walk_bound.
  rewrite (heap_is_size _ _ Hh), addrs_cons, length_app, length_fmap. lia.
Qed.

Lemma free_nodes_repr s cs ms bh ls P :
  repr s cs ms bh ls P → free_nodes s = cs ++ ms.
Proof.
  intros Hr. pose proof (repr_chain _ _ _ _ _ _ Hr) as Hc.
  pose proof (repr_bound _ _ _ _ _ _ Hr) as Hb.
  pose proof (repr_NoDup _ _ _ _ _ _ Hr) as Hnd.
  destruct Hr as [_ _ Hch _ Hbh _]. unfold free_nodes.
  rewrite Hch, Hbh, <- (first_of_main cs ms bh ls None).
  rewrite main_sentinel in *. rewrite length_app in Hb.
  rewrite <- (dead_addrs (T:=T) (cs ++ ms)) at 2.
  apply (segment_chain _ _ _ ((bh, None) :: live ls) None); [done| |lia].
  intros a Ha [= ->]. rewrite dead_addrs in Ha.
  rewrite (assoc (++)) in Hnd. apply NoDup_app in Hnd as (_ & Hnd & _).
  apply (Hnd _ Ha). left.
Qed.

Lemma next_of_Some h a n : h !! a = Some n → next_of h (Some a) = next n.
Proof. intros H. unfold next_of. simpl. by rewrite H. Qed.

Lemma queued_nodes_repr s cs ms bh ls P :
  repr s cs ms bh ls P → queued_nodes s = ls.*1.
Proof.
  intros Hr. pose proof (repr_chain _ _ _ _ _ _ Hr) as Hc.
  pose proof (repr_bound _ _ _ _ _ _ Hr) as Hb.
  pose proof (lookup_sentinel _ _ _ _ _ _ Hr) as Hlk.
  destruct Hr as [_ _ _ _ Hbh _]. unfold queued_nodes.
  rewrite Hbh, (next_of_Some _ _ _ Hlk).
  change (next (Node None (head ls.*1))) with (head ls.*1).
  apply chain_app in Hc as [_ Hc]. unfold main in Hb.
  rewrite length_app in Hb.
  rewrite <- first_of_live, <- live_addrs, <- (app_nil_r (live ls)) at 1.
  apply (segment_chain (live ls) _ _ [] None); [by rewrite app_nil_r|done|lia].
Qed.

Lemma contents_repr s cs ms bh ls P :
  repr s cs ms bh ls P → contents s = ls.*2.
Proof.
  intros Hr. unfold contents. rewrite (queued_nodes_repr _ _ _ _ _ _ Hr).
  apply repr_chain, chain_app in Hr as [_ Hc]. revert Hc.
  generalize (heap s). induction ls as [|[x v] ls IH]; intros h Hc; [done|].
  destruct Hc as [Hlk Hc]. simpl in *. rewrite Hlk. simpl. f_equal. by apply IH.
Qed.

End Consumer.

Section Reachability.

Context {T : Type}.
Implicit Types (s : queue T) (h : gmap positive (node_type T)).
Implicit Types (cs ms : list positive) (bh : positive).
Implicit Types (ls ps : list (positive * T)).
Implicit Types (c : call T) (calls : list (call T)).

Lemma repr_new a0 : repr (spsc_queue_new (T:=T) a0) [] [] a0 [] [].
Proof.
  split; simpl; try done.
  - split_and!.
    + apply Forall_singleton. simpl. split; [|done]. apply lookup_singleton_eq.
    + apply NoDup_singleton.
    + intros a [n Hn]. apply lookup_singleton_Some in Hn as [<- _]. left.
  - split; simpl.
    + intros a [n Hn]. apply lookup_singleton_Some in Hn as [<- _]. lia.
    + by rewrite map_size_singleton.
Qed.

Lemma built_Some (vs : list T) : built (Some <$> vs) = Some vs.
Proof.
  induction vs as [|v vs IH]; [done|]. rewrite fmap_cons. cbn [built].
  by rewrite IH.
Qed.

Lemma built_None (vs : list T) rest :
  built ((Some <$> vs) ++ None :: rest) = None.
Proof.
  induction vs as [|v vs IH]; [done|].
  rewrite fmap_cons, <- app_comm_cons. cbn [built]. by rewrite IH.
Qed.

Lemma args_split (args : list (option T)) :
  (∃ vs, args = Some <$> vs) ∨
  (∃ vs rest, args = (Some <$> vs) ++ None :: rest).
Proof.
  induction args as [|[v|] args IH].
  - left. by exists [].
  - destruct IH as [(vs & ->)|(vs & rest & ->)].
    + left. by exists (v :: vs).
    + right. by exists (v :: vs), rest.
  - right. by exists [], args.
Qed.

Lemma rejected_consumed f ls :
  rejected f ls.*2 = (drop (length (consumed f ls)) ls).*2.
Proof.
  induction ls as [|[x v] ls IH]; [done|]. simpl. by destruct (f v).
Qed.

(** Every call is defined on a well-formed queue, keeps it well-formed,
    and changes its contents as the list model says. *)
Lemma invoke_repr c s cs ms bh ls :
  repr s cs ms bh ls [] →
  ∃ s' cs' ms' bh' ls',
    after (invoke c s) = Some s' ∧
    repr s' cs' ms' bh' ls' [] ∧ ls'.*2 = fifo_step c ls.*2.
Proof.
  intros Hr. destruct c as [[v|]|args|out| | | |f]; simpl.
  - destruct (emplace_Some _ _ _ _ _ v Hr)
      as (x & t & cs' & ms' & s' & _ & Hrun & Hr' & _).
    exists s', cs', ms', bh, (ls ++ [(x, v)]). rewrite Hrun.
    by rewrite fmap_app.
  - destruct (emplace_None _ _ _ _ _ Hr) as (cs' & ms' & s' & Hrun & Hr' & _).
    exists s', cs', ms', bh, ls. by rewrite Hrun.
  - destruct (args_split args) as [(vs & ->)|(vs & rest & ->)].
    + rewrite built_Some. destruct vs as [|v vs].
      { exists s, cs, ms, bh, ls. by rewrite app_nil_r. }
      destruct (push_range_Some _ _ _ _ _ v vs Hr)
        as (ps & cs' & ms' & s' & evs & t & x & Hrun & Hr' & Hps & _).
      exists s', cs', ms', bh, (ls ++ ps). rewrite Hrun.
      by rewrite fmap_app, Hps.
    + rewrite built_None. simpl. rewrite app_nil_r.
      destruct (push_range_None _ _ _ _ _ vs rest Hr)
        as (ps & cs' & ms' & s' & evs & Hrun & Hr' & _).
      exists s', cs', ms', bh, ls. by rewrite Hrun.
  - destruct ls as [|[x v] ls].
    + exists s, cs, ms, bh, []. unfold mbind, M_bind, bind.
      by rewrite (pop_nil _ _ _ _ _ out Hr).
    + destruct (pop_cons _ _ _ _ _ _ _ _ out Hr) as [Hrun Hr'].
      eexists _, cs, (ms ++ [bh]), x, ls. unfold mbind, M_bind, bind.
      by rewrite Hrun.
  - exists s, cs, ms, bh, ls. unfold front, mbind, M_bind, bind.
    by rewrite (head_repr _ _ _ _ _ _ Hr).
  - exists s, cs, ms, bh, ls. unfold empty, mbind, M_bind, bind.
    by rewrite (head_repr _ _ _ _ _ _ Hr).
  - destruct (clear_spec _ _ _ _ _ _ Hr) as (ms' & bh' & s' & Hrun & Hr' & _).
    exists s', cs, ms', bh', []. by rewrite Hrun.
  - destruct (consumed_split f ls) as (rest & Hsplit & Hok & Hrest).
    assert (rest = drop (length (consumed f ls)) ls) as Hdrop.
    { rewrite Hsplit at 2. by rewrite drop_app_length. }
    rewrite rejected_consumed, <- Hdrop. rewrite Hsplit in Hr.
    destruct rest as [|[x v] rest].
    + rewrite app_nil_r in Hr.
      destruct (consume_all_Ret _ _ _ _ _ _ f Hr Hok)
        as (ms' & bh' & s' & Hrun & Hr' & _).
      exists s', cs, ms', bh', []. by rewrite Hrun.
    + destruct (consume_all_Throw _ _ _ _ _ _ _ _ _ f Hr Hok Hrest)
        as (ms' & bh' & s' & Hrun & Hr' & _).
      exists s', cs, ms', bh', ((x, v) :: rest). by rewrite Hrun.
Qed.

Lemma run_repr calls : ∀ s cs ms bh ls,
  repr s cs ms bh ls [] →
  ∃ s' cs' ms' bh' ls',
    run calls s = Some s' ∧
    repr s' cs' ms' bh' ls' [] ∧
    ls'.*2 = foldl (λ q c, fifo_step c q) ls.*2 calls.
Proof.
  induction calls as [|c calls IH]; intros s cs ms bh ls Hr.
  - by exists s, cs, ms, bh, ls.
  - destruct (invoke_repr c _ _ _ _ _ Hr)
      as (s1 & cs1 & ms1 & bh1 & ls1 & Hrun1 & Hr1 & Hls1).
    destruct (IH _ _ _ _ _ Hr1) as (s' & cs' & ms' & bh' & ls' & Hrun & Hr' & Hls).
    exists s', cs', ms', bh', ls'. simpl. rewrite Hrun1. simpl.
    by rewrite Hls1 in Hls.
Qed.

(** The history of a queue determines its contents, and every reachable
    state is well-formed. *)
Lemma reachable_by_repr a0 calls s :
  reachable_by a0 calls s →
  ∃ cs ms bh ls, repr s cs ms bh ls [] ∧ ls.*2 = pending calls.
Proof.
  intros Hrun.
  destruct (run_repr calls _ _ _ _ _ (repr_new a0))
    as (s' & cs & ms & bh & ls & Hrun' & Hr & Hls).
  unfold reachable_by in Hrun. rewrite Hrun in Hrun'. injection Hrun' as <-.
  by exists cs, ms, bh, ls.
Qed.

Lemma reachable_repr s :
  reachable s → ∃ cs ms bh ls, repr s cs ms bh ls [].
Proof.
  intros (a0 & calls & Hrun).
  destruct (reachable_by_repr _ _ _ Hrun) as (cs & ms & bh & ls & Hr & _).
  by exists cs, ms, bh, ls.
Qed.

(** No history runs into undefined behaviour or an endless loop. *)
Lemma run_total a0 calls : is_Some (run calls (spsc_queue_new (T:=T) a0)).
Proof.
  destruct (run_repr calls _ _ _ _ _ (repr_new a0)) as (s' & ? & ? & ? & ? & H & _).
  eauto.
Qed.

Lemma reachable_step s c s' :
  reachable s → after (invoke c s) = Some s' → reachable s'.
Proof.
  intros (a0 & calls & Hrun) Hstep. exists a0, (calls ++ [c]).
  unfold reachable_by in *. revert Hrun. generalize (spsc_queue_new (T:=T) a0).
  induction calls as [|c' calls IH]; intros s0 Hrun; simpl in *.
  - injection Hrun as ->. by rewrite Hstep.
  - destruct (after (invoke c' s0)) as [s1|]; [|done]. simpl in *. by apply IH.
Qed.

End Reachability.

(** ** The properties of the specification *)

Section Properties.

Context {T : Type}.
Implicit Types (s : queue T) (h : gmap positive (node_type T)).
Implicit Types (cs ms : list positive) (bh : positive).
Implicit Types (ls ps : list (positive * T)).
Implicit Types (c : call T) (calls : list (call T)).

Lemma push_all_spec vs : ∀ s cs ms bh ls,
  repr s cs ms bh ls [] →
  ∃ s' cs' ms' qs,
    push_all vs s = Ret () s' ∧
    repr s' cs' ms' bh (ls ++ qs) [] ∧ qs.*2 = vs.
Proof.
  induction vs as [|v vs IH]; intros s cs ms bh ls Hr.
  - exists s, cs, ms, []. by rewrite app_nil_r.
  - destruct (emplace_Some _ _ _ _ _ v Hr)
      as (x & t & cs1 & ms1 & s1 & _ & Hrun1 & Hr1 & _).
    destruct (IH _ _ _ _ _ Hr1) as (s' & cs' & ms' & qs & Hrun & Hr' & Hqs).
    exists s', cs', ms', ((x, v) :: qs). split_and!.
    + simpl. unfold push. by step_by ltac:(exact Hrun1).
    + by rewrite <- (assoc (++)) in Hr'.
    + by rewrite fmap_cons, Hqs.
Qed.

Lemma pop_all_spec ls : ∀ s cs ms bh out fuel,
  repr s cs ms bh ls [] → length ls < fuel →
  ∃ s' ms' bh',
    pop_all fuel out s = Ret ls.*2 s' ∧ repr s' cs ms' bh' [] [].
Proof.
  induction ls as [|[x v] ls IH]; intros s cs ms bh out fuel Hr Hfuel;
    (destruct fuel as [|fuel]; [simpl in Hfuel; lia|]).
  - exists s, ms, bh. split; [|done]. simpl.
    by step_by ltac:(by eapply pop_nil).
  - destruct (pop_cons _ _ _ _ _ _ _ _ out Hr) as [Hrun1 Hr1].
    destruct (IH _ _ _ _ v fuel Hr1) as (s' & ms' & bh' & Hrun & Hr');
      [simpl in Hfuel; lia|].
    exists s', ms', bh'. split; [|done]. simpl.
    step_by ltac:(exact Hrun1). simpl. by step_by ltac:(exact Hrun).
Qed.

Lemma queued_repr s cs ms bh ls P : repr s cs ms bh ls P → queued s = ls.
Proof.
  intros Hr. unfold queued.
  rewrite (queued_nodes_repr _ _ _ _ _ _ Hr), (contents_repr _ _ _ _ _ _ Hr).
  apply zip_fst_snd.
Qed.

Lemma new_events_app s s' evs :
  trace s' = trace s ++ evs → new_events s s' = evs.
Proof. intros H. unfold new_events. rewrite H. apply drop_app_length. Qed.

(** Claim C1: the values pushed one after the other are popped in the order
    of the pushes, each exactly once: popping until [pop] returns false
    yields what was waiting in the queue followed by the pushed values, so
    on an empty queue exactly the pushed values (such as 0, 1, ..., N-1);
    in particular a push of [v] followed by a pop yields [v]. *)
Theorem fifo_order s (ws : list T) (out : T) (fuel : nat) :
  reachable s → length (contents s) + length ws < fuel →
  (∃ s', (push_all ws ;; pop_all fuel out) s = Ret (contents s ++ ws) s' ∧
         contents s' = []) ∧
  (∀ v, contents s = [] →
        ∃ s', (push v ;; pop out) s = Ret (true, v) s' ∧ contents s' = []).
Proof.
  intros (cs & ms & bh & ls & Hr)%reachable_repr Hfuel.
  rewrite (contents_repr _ _ _ _ _ _ Hr) in *. split.
  - destruct (push_all_spec ws _ _ _ _ _ Hr)
      as (s1 & cs1 & ms1 & qs & Hrun1 & Hr1 & Hqs).
    destruct (pop_all_spec _ _ _ _ _ out fuel Hr1)
      as (s' & ms' & bh' & Hrun & Hr').
    { rewrite length_app, <- Hqs, !length_fmap in *. lia. }
    exists s'. split; [|by rewrite (contents_repr _ _ _ _ _ _ Hr')].
    step_by ltac:(exact Hrun1). by rewrite Hrun, fmap_app, Hqs.
  - intros v Hempty. apply fmap_nil_inv in Hempty as ->.
    destruct (emplace_Some _ _ _ _ _ v Hr)
      as (x & t & cs1 & ms1 & s1 & _ & Hrun1 & Hr1 & _).
    destruct (pop_cons _ _ _ _ _ _ _ _ out Hr1) as [Hrun Hr'].
    eexists. split; [|by rewrite (contents_repr _ _ _ _ _ _ Hr')].
    unfold push. by step_by ltac:(exact Hrun1).
Qed.

(** Claim C2: [pop] returns false exactly when [before_head_->next] is
    null, and then changes neither [out] nor the queue; otherwise it
    returns true with the front value in [out], the value's slot destroyed
    and [before_head_] moved to the popped node.  The node [pop] looks at
    is the one the heap holds behind [before_head_]: the first queued node,
    null exactly when no value is waiting. *)
Theorem pop_spec s (out : T) :
  reachable s →
  ∃ x, head_ s = Ret x s ∧
       x = next_of (heap s) (before_head_ s) ∧
       x = head (queued_nodes s) ∧
       (x = None ↔ contents s = []) ∧
       match x with
       | None => pop out s = Ret (false, out) s
       | Some a =>
           ∃ v nx,
             heap s !! a = Some (Node (Some v) nx) ∧
             head (contents s) = Some v ∧
             pop out s
             = Ret (true, v)
                 (record (Store_before_head (Some a) mo_release)
                    (set_before_head (Some a)
                       (record (Destroy_data a)
                          (set_heap (<[a:=Node None nx]> (heap s)) s))))
       end ∧
       (∀ b u s', pop out s = Ret (b, u) s' →
                  b = false ↔ next_of (heap s) (before_head_ s) = None).
Proof.
  intros (cs & ms & bh & ls & Hr)%reachable_repr.
  assert (next_of (heap s) (before_head_ s) = head ls.*1) as Hnext.
  { pose proof (lookup_sentinel _ _ _ _ _ _ Hr) as Hlk.
    destruct Hr as [_ _ _ _ -> _]. by rewrite (next_of_Some _ _ _ Hlk). }
  exists (head ls.*1). rewrite Hnext.
  rewrite (queued_nodes_repr _ _ _ _ _ _ Hr), (contents_repr _ _ _ _ _ _ Hr).
  split; [by eapply head_repr|]. do 2 (split; [done|]).
  split; [by destruct ls|].
  destruct ls as [|[x v] ls]; simpl.
  - pose proof (pop_nil _ _ _ _ _ out Hr) as Hrun. split; [done|].
    intros b u s'. rewrite Hrun. by intros [= <- _ _].
  - pose proof (lookup_front _ _ _ _ _ _ _ _ Hr) as Hlk.
    destruct (pop_cons _ _ _ _ _ _ _ _ out Hr) as [Hrun _]. split.
    + by exists v, (head ls.*1).
    + intros b u s'. rewrite Hrun. by intros [= <- _ _].
Qed.

Lemma heap_is_dom h C a : heap_is h C → is_Some (h !! a) ↔ a ∈ addrs C.
Proof.
  intros (Hch & _ & Hdom). split; [apply Hdom|].
  unfold addrs. rewrite list_elem_of_fmap. intros ([a' d] & -> & Hin).
  apply list_elem_of_In, in_concat in Hin as (c' & Hc & Hin).
  apply list_elem_of_In in Hc, Hin. rewrite Forall_forall in Hch.
  destruct (chain_lookup _ _ _ _ _ (Hch _ Hc) Hin) as [n Hn]. eauto.
Qed.

Lemma repr_tail_sentinel s cs ms bh ls P :
  repr s cs ms bh ls P → tail_ s = before_head_ s ↔ ls = [].
Proof.
  intros Hr. pose proof (repr_NoDup _ _ _ _ _ _ Hr) as Hnd.
  destruct Hr as [_ _ _ _ -> ->]. destruct ls as [|[x v] ls]; [done|].
  split; [|done]. simpl. intros Hl%last_Some_elem_of.
  rewrite !(assoc (++)) in Hnd. apply NoDup_app in Hnd as (_ & _ & Hnd).
  apply NoDup_cons in Hnd as [Hnd _]. exfalso. apply Hnd.
  apply elem_of_app. by left.
Qed.

(** Claim C6: on every reachable state [empty()] returns true exactly when
    [before_head_ == tail_], exactly when [before_head_->next] is null, and
    exactly when every value the history has published has been consumed. *)
Theorem empty_iff a0 calls s :
  reachable_by a0 calls s →
  ∃ b, empty s = Ret b s ∧
       (b = true ↔ before_head_ s = tail_ s) ∧
       (b = true ↔ next_of (heap s) (before_head_ s) = None) ∧
       (b = true ↔ pending calls = []) ∧
       (b = true ↔ queued_nodes s = []).
Proof.
  intros (cs & ms & bh & ls & Hr & Hls)%reachable_by_repr.
  pose proof (head_repr _ _ _ _ _ _ Hr) as Hhead.
  pose proof (lookup_sentinel _ _ _ _ _ _ Hr) as Hlk.
  pose proof (repr_tail_sentinel _ _ _ _ _ _ Hr) as Htail.
  pose proof (queued_nodes_repr _ _ _ _ _ _ Hr) as Hq.
  exists (ptr_eqb (head ls.*1) None). split.
  { unfold empty. by step_by ltac:(exact Hhead). }
  rewrite <- Hls, Hq. destruct Hr as [_ _ _ _ Hbh _].
  rewrite Hbh at 2. rewrite (next_of_Some _ _ _ Hlk). simpl.
  destruct ls as [|[x v] ls]; simpl.
  - split_and!; try done. split; [intros _; symmetry|done]. by apply Htail.
  - split_and!; try done. split; [done|]. intros Heq. symmetry in Heq.
    by apply Htail in Heq.
Qed.

(** Claim C8: a range push of an empty range returns at once and leaves the
    object, the heap and the trace of allocator calls and stores as they
    were. *)
Theorem push_range_empty s :
  push_range [] s = Ret () s ∧
  new_events s s = [].
Proof.
  split; [done|]. apply new_events_app. by rewrite app_nil_r.
Qed.

Lemma lookup_free_head s cs ms bh ls P x r :
  repr s cs ms bh ls P → cs ++ ms = x :: r →
  heap s !! x = Some (Node None (head (r ++ [bh]))).
Proof.
  intros [Hh _ _ _ _ _] Heq. unfold main in Hh.
  rewrite (assoc (++)), Heq in Hh. simpl in Hh.
  apply (heap_is_lookup _ [] [] x None) in Hh. rewrite Hh. do 2 f_equal.
  rewrite first_of_app. by destruct r.
Qed.

Lemma push_all_warm ws : ∀ s cs ms bh ls,
  repr s cs ms bh ls [] → length ws ≤ length (cs ++ ms) →
  ∃ s', push_all ws s = Ret () s' ∧
        allocations (trace s') = allocations (trace s).
Proof.
  induction ws as [|v ws IH]; intros s cs ms bh ls Hr Hlen.
  - by exists s.
  - destruct (emplace_Some _ _ _ _ _ v Hr)
      as (x & t & cs1 & ms1 & s1 & _ & Hrun1 & Hr1 & Hcases).
    destruct Hcases as [(_ & Heq & Htr & _)|(_ & Hemp & _)].
    2: { rewrite Hemp in Hlen. simpl in Hlen. lia. }
    destruct (IH _ _ _ _ _ Hr1) as (s' & Hrun & Hal).
    { rewrite <- Heq in Hlen. simpl in Hlen. lia. }
    exists s'. split.
    + simpl. unfold push. by step_by ltac:(exact Hrun1).
    + rewrite Hal, Htr. count_events.
Qed.

(** Claim C7: [make_node_] first refills [cache_tail_] from [before_head_]
    when the snapshot is empty; when the cache is then not empty it
    constructs in the node at [cache_head_] and advances [cache_head_] to
    that node's [next], without asking the allocator; only otherwise does
    it allocate.  Hence a run of pushes no longer than the chain of free
    nodes allocates nothing. *)
Theorem node_acquisition s (v : T) :
  reachable s →
  (∃ x s',
     make_node_ (Some v) s = Ret (Some x) s' ∧
     cache_tail_ s' = cache_tail_ (refilled s) ∧
     heap s' = <[x:=Node (Some v) None]> (heap s) ∧
     if ptr_eqb (cache_tail_ (refilled s)) (cache_head_ s)
     then x = next_addr s ∧ heap s !! x = None ∧
          cache_head_ s' = cache_head_ s ∧
          new_events s s' = [Allocate x; Construct_data x v; Construct_next x]
     else cache_head_ s = Some x ∧
          cache_head_ s' = next_of (heap s) (Some x) ∧
          new_events s s' = [Construct_data x v; Construct_next x]) ∧
  (∀ ws, length ws ≤ length (free_nodes s) →
         ∃ s', push_all ws s = Ret () s' ∧
               allocations (trace s') = allocations (trace s)).
Proof.
  intros (cs & ms & bh & ls & Hr)%reachable_repr. split.
  - destruct (make_node_Some _ _ _ _ _ _ v Hr)
      as (x & cs' & ms' & s' & Hrun & Hr' & Hh & Hct & Hcases).
    destruct (repr_refilled _ _ _ _ _ _ Hr) as (_ & _ & _ & _ & Hiff).
    exists x, s'. split_and!; try done. unfold ptr_eqb.
    destruct Hcases as [(Hch & Heq & Htr & Hna)|(-> & Hemp & Hemp' & Htr & Hna)].
    + rewrite bool_decide_eq_false_2.
      2: { rewrite Hiff, <- Heq. done. }
      split_and!; [done| |by apply new_events_app].
      rewrite (next_of_Some _ _ _ (lookup_free_head _ _ _ _ _ _ _ _ Hr (eq_sym Heq))).
      destruct Hr' as [_ _ -> _ _ _]. by rewrite (assoc (++)).
    + rewrite bool_decide_eq_true_2 by by apply Hiff.
      split_and!; [done| | |by apply new_events_app].
      * destruct Hr as [_ Ha _ _ _ _]. by apply lookup_next_addr.
      * destruct Hr as [_ _ -> _ _ _], Hr' as [_ _ -> _ _ _].
        apply app_eq_nil in Hemp as [-> ->], Hemp' as [-> ->]. done.
  - intros ws Hlen. rewrite (free_nodes_repr _ _ _ _ _ _ Hr) in Hlen.
    by eapply push_all_warm.
Qed.

(** Claim C3, amended: [clear] destroys the queued values and then stores
    [before_head_] once, as its last action; [consume_all] stores
    [before_head_] once for every element, right after the user function
    returned on the element and its value was destroyed, and not at all on
    an empty queue. *)
Theorem before_head_stores s :
  reachable s →
  (∃ s', clear s = Ret () s' ∧
         new_events s s'
         = (Destroy_data <$> queued_nodes s)
           ++ [Store_before_head (tail_ s) mo_release] ∧
         stores_once_at_end (new_events s s')) ∧
  (∀ f, ∃ s', after (consume_all f s) = Some s' ∧
              new_events s s' = consume_all_events f (queued s)).
Proof.
  intros (cs & ms & bh & ls & Hr)%reachable_repr. split.
  - destruct (clear_spec _ _ _ _ _ _ Hr)
      as (ms' & bh' & s' & Hrun & Hr' & Hsplit & Htr).
    assert (tail_ s = Some bh') as Ht.
    { destruct Hr as [_ _ _ _ _ ->].
      apply (f_equal last) in Hsplit. rewrite last_snoc, last_app in Hsplit.
      destruct (last (bh :: ls.*1)) eqn:Hl; [done|].
      by apply last_None in Hl. }
    apply new_events_app in Htr.
    rewrite (queued_nodes_repr _ _ _ _ _ _ Hr), Ht.
    exists s'. split_and!; try done.
    rewrite Htr. eexists _, _. split; [done|].
    apply Forall_fmap, Forall_true. done.
  - intros f. rewrite (queued_repr _ _ _ _ _ _ Hr). unfold consume_all_events.
    destruct (consumed_split f ls) as (rest & Hsplit & Hok & Hrest).
    assert (rest = drop (length (consumed f ls)) ls) as <-.
    { rewrite Hsplit at 2. by rewrite drop_app_length. }
    rewrite Hsplit in Hr. destruct rest as [|[x v] rest].
    + rewrite app_nil_r in Hr.
      destruct (consume_all_Ret _ _ _ _ _ _ f Hr Hok)
        as (ms' & bh' & s' & Hrun & _ & _ & Htr).
      exists s'. rewrite Hrun. split; [done|].
      apply new_events_app. by rewrite app_nil_r.
    + destruct (consume_all_Throw _ _ _ _ _ _ _ _ _ f Hr Hok Hrest)
        as (ms' & bh' & s' & Hrun & _ & _ & Htr).
      exists s'. rewrite Hrun. split; [done|]. by apply new_events_app.
Qed.

(** Claim C4: when a construction throws during a range push, the nodes
    staged so far are destroyed and deallocated one by one, the call
    throws, and the queue holds what it held: [tail_] and its null [next],
    [before_head_], the queued nodes and their values are unchanged. *)
Theorem push_range_throw s (vs : list T) (rest : list (option T)) :
  reachable s →
  ∃ s' staged build,
    push_range ((Some <$> vs) ++ None :: rest) s = Throw s' ∧
    new_events s s' = build ++ cleanup staged.*1 ∧
    constructed build = staged ∧ staged.*2 = vs ∧
    Forall is_private build ∧
    (∀ a, a ∈ staged.*1 → heap s' !! a = None) ∧
    tail_ s' = tail_ s ∧ next_of (heap s') (tail_ s') = None ∧
    before_head_ s' = before_head_ s ∧
    queued_nodes s' = queued_nodes s ∧ contents s' = contents s.
Proof.
  intros (cs & ms & bh & ls & Hr)%reachable_repr.
  destruct (push_range_None _ _ _ _ _ vs rest Hr)
    as (ps & cs' & ms' & s' & evs & Hrun & Hr' & Hps & Htr & Hc & Hp & Hfree).
  exists s', ps, evs. split_and!; try done.
  - by apply new_events_app.
  - destruct Hr, Hr'. congruence.
  - destruct (lookup_tail _ _ _ _ _ _ Hr') as (t & d & -> & Hlk).
    by rewrite (next_of_Some _ _ _ Hlk).
  - destruct Hr, Hr'. congruence.
  - by rewrite (queued_nodes_repr _ _ _ _ _ _ Hr),
      (queued_nodes_repr _ _ _ _ _ _ Hr').
  - by rewrite (contents_repr _ _ _ _ _ _ Hr), (contents_repr _ _ _ _ _ _ Hr').
Qed.

(** The staging of a range push, with the nodes its actions touch. *)
Lemma make_node_Some_nodes s cs ms bh ls P v :
  repr s cs ms bh ls P →
  ∃ x cs' ms' s' evs,
    make_node_ (Some v) s = Ret (Some x) s' ∧
    repr s' cs' ms' bh ls (P ++ [[(x, Some v)]]) ∧
    trace s' = trace s ++ evs ∧
    constructed evs = [(x, v)] ∧ Forall is_private evs ∧
    Forall (λ e, event_nodes e ⊆ [x]) evs.
Proof.
  intros Hr.
  destruct (make_node_Some _ _ _ _ _ _ v Hr)
    as (x & cs' & ms' & s' & Hrun & Hr' & _ & _ & Hcases).
  exists x, cs', ms', s'.
  destruct Hcases as [(_ & _ & Htr & _)|(_ & _ & _ & Htr & _)];
    eexists;
    (split_and!;
     [done|done|exact Htr|done|by repeat constructor
     |repeat (apply Forall_cons; split; [simpl; set_solver|]);
      by apply Forall_nil]).
Qed.

Lemma push_rest_Some_nodes vs : ∀ s cs ms bh ls ps it,
  repr s cs ms bh ls [live ps] → last ps.*1 = Some it →
  ∃ qs cs' ms' s' evs,
    push_rest (Some <$> vs) (Some it) s = Ret (last (ps ++ qs).*1) s' ∧
    repr s' cs' ms' bh ls [live (ps ++ qs)] ∧ qs.*2 = vs ∧
    trace s' = trace s ++ evs ∧
    constructed evs = qs ∧ Forall is_private evs ∧
    Forall (λ e, event_nodes e ⊆ (ps ++ qs).*1) evs.
Proof.
  induction vs as [|v vs IH]; intros s cs ms bh ls ps it Hr Hit.
  - exists [], cs, ms, s, []. rewrite !app_nil_r.
    split_and!; try done. simpl. by rewrite Hit.
  - destruct (make_node_Some_nodes _ _ _ _ _ _ v Hr)
      as (x & cs1 & ms1 & s1 & evs1 & Hrun1 & Hr1 & Htr1 & Hc1 & Hp1 & Hn1).
    destruct (link_staged _ _ _ _ _ _ _ _ _ Hr1 Hit)
      as (s2 & Hrun2 & Hr2 & Htr2 & _).
    destruct (IH s2 cs1 ms1 bh ls (ps ++ [(x, v)]) x Hr2)
      as (qs & cs' & ms' & s' & evs & Hrun & Hr' & Hqs & Htr & Hc & Hp & Hn).
    { rewrite fmap_app. simpl. by rewrite last_snoc. }
    exists ((x, v) :: qs), cs', ms', s',
      (evs1 ++ [Store_next it (Some x) mo_relaxed] ++ evs).
    rewrite <- (assoc (++)) in Hrun, Hr', Hn. simpl in Hrun, Hr', Hn.
    assert (it ∈ ps.*1) as Hin.
    { destruct (ps.*1) as [|a l] using rev_ind; [done|].
      rewrite last_snoc in Hit. injection Hit as ->. set_solver. }
    split_and!; try done.
    + simpl. step_by ltac:(exact Hrun1). by step_by ltac:(exact Hrun2).
    + by rewrite fmap_cons, Hqs.
    + by rewrite Htr, Htr2, Htr1, <- !(assoc (++)).
    + rewrite !constructed_app, Hc1, Hc. done.
    + apply Forall_app. split; [done|]. by apply Forall_cons.
    + rewrite fmap_app, fmap_cons. simpl.
      apply Forall_app. split.
      * eapply Forall_impl; [exact Hn1|]. intros e He. set_solver.
      * apply Forall_cons. split; [simpl; set_solver|].
        by rewrite fmap_app, fmap_cons in Hn.
Qed.

Lemma push_range_Some_nodes s cs ms bh ls v vs :
  repr s cs ms bh ls [] →
  ∃ ps cs' ms' s' evs t x,
    push_range (Some <$> v :: vs) s = Ret () s' ∧
    repr s' cs' ms' bh (ls ++ ps) [] ∧ ps.*2 = v :: vs ∧
    tail_ s = Some t ∧ head ps.*1 = Some x ∧
    trace s' = trace s ++ evs ++ [Store_next t (Some x) mo_release] ∧
    constructed evs = ps ∧ Forall is_private evs ∧
    Forall (λ e, event_nodes e ⊆ ps.*1) evs ∧
    (∀ a, a ∈ ps.*1 → a ∉ bh :: ls.*1).
Proof.
  intros Hr.
  destruct (make_node_Some_nodes _ _ _ _ _ _ v Hr)
    as (x & cs1 & ms1 & s1 & evs1 & Hrun1 & Hr1 & Htr1 & Hc1 & Hp1 & Hn1).
  destruct (push_rest_Some_nodes vs s1 cs1 ms1 bh ls [(x, v)] x Hr1 eq_refl)
    as (qs & cs' & ms' & s2 & evs2 & Hrun2 & Hr2 & Hqs & Htr2 & Hc2 & Hp2 & Hn2).
  destruct (last ([(x, v)] ++ qs).*1) as [y|] eqn:Hy;
    [|by apply last_None in Hy].
  destruct (publish s2 cs' ms' bh ls ([(x, v)] ++ qs) x y Hr2 eq_refl Hy)
    as (t & s' & Ht & Hpub & Hr' & Htr & Hna).
  exists ((x, v) :: qs), cs', ms', s', (evs1 ++ evs2), t, x.
  split_and!; try done.
  - simpl. step_by ltac:(exact Hrun1).
    by step_by ltac:(apply try_catch_Ret; exact Hrun2).
  - by rewrite fmap_cons, Hqs.
  - destruct Hr, Hr1, Hr2. congruence.
  - by rewrite Htr, Htr2, Htr1, <- !(assoc (++)).
  - by rewrite constructed_app, Hc1, Hc2.
  - by apply Forall_app.
  - apply Forall_app. split; [|done].
    eapply Forall_impl; [exact Hn1|]. intros e He. rewrite fmap_cons. set_solver.
  - intros a Ha Hin.
    apply (repr_private_fresh _ _ _ _ _ _ _ Hr2 Ha).
    rewrite main_addrs. set_solver.
Qed.

(** The sequential side of a batch publication: a range push whose
    constructions all return builds its chain with private actions only,
    every one of them on the nodes it stages, none of which is
    [before_head_] or a queued node, so that the consumer, who walks from
    [before_head_] along [next], reaches none of them and [tail_->next]
    stays null meanwhile; and it appends the whole chain to the queue by
    its last action, one release store into the [next] of the old
    [tail_]. *)
Lemma push_range_publishes_batch s (v : T) (vs : list T) :
  reachable s →
  ∃ s' bh t x build,
    push_range (Some <$> v :: vs) s = Ret () s' ∧
    before_head_ s = Some bh ∧ tail_ s = Some t ∧
    new_events s s' = build ++ [Store_next t (Some x) mo_release] ∧
    Forall is_private build ∧
    Forall (λ e, event_nodes e ⊆ (constructed build).*1) build ∧
    (∀ a, a ∈ (constructed build).*1 → a ∉ bh :: queued_nodes s) ∧
    t ∈ bh :: queued_nodes s ∧
    head (constructed build).*1 = Some x ∧
    queued s' = queued s ++ constructed build ∧
    contents s' = contents s ++ v :: vs.
Proof.
  intros (cs & ms & bh & ls & Hr)%reachable_repr.
  destruct (push_range_Some_nodes _ _ _ _ _ v vs Hr)
    as (ps & cs' & ms' & s' & evs & t & x & Hrun & Hr' & Hps & Ht & Hx
        & Htr & Hc & Hp & Hn & Hfresh).
  exists s', bh, t, x, evs.
  rewrite Hc, (queued_nodes_repr _ _ _ _ _ _ Hr). split_and!; try done.
  - by destruct Hr as [_ _ _ _ ? _].
  - by apply new_events_app.
  - destruct Hr as [_ _ _ _ _ Htl]. rewrite Ht in Htl. symmetry in Htl.
    by apply last_Some_elem_of in Htl.
  - by rewrite (queued_repr _ _ _ _ _ _ Hr), (queued_repr _ _ _ _ _ _ Hr').
  - rewrite (contents_repr _ _ _ _ _ _ Hr), (contents_repr _ _ _ _ _ _ Hr').
    by rewrite fmap_app, Hps.
Qed.

(** Claim C5: the destructor deallocates the nodes from [cache_head_] up to
    and including [before_head_] without destroying anything in them, then
    destroys the value of and deallocates every queued node, each once;
    these are all the nodes there are, and afterwards the allocator has
    been given back as many nodes as it handed out. *)
Theorem destructor_releases_everything s :
  reachable s →
  ∃ s' bh,
    before_head_ s = Some bh ∧
    destructor s = Ret () s' ∧
    new_events s s'
    = (Deallocate <$> free_nodes s ++ [bh]) ++ cleanup (queued_nodes s) ∧
    NoDup (free_nodes s ++ bh :: queued_nodes s) ∧
    (∀ a, is_Some (heap s !! a) ↔ a ∈ free_nodes s ++ bh :: queued_nodes s) ∧
    length (contents s) = length (queued_nodes s) ∧
    heap s' = ∅ ∧
    allocations (trace s') = deallocations (trace s').
Proof.
  intros (cs & ms & bh & ls & Hr)%reachable_repr.
  destruct (destructor_spec _ _ _ _ _ Hr) as (s' & Hrun & Hemp & Htr & Hbal).
  pose proof (repr_NoDup _ _ _ _ _ _ Hr) as Hnd.
  rewrite (free_nodes_repr _ _ _ _ _ _ Hr), (queued_nodes_repr _ _ _ _ _ _ Hr),
    (contents_repr _ _ _ _ _ _ Hr).
  exists s', bh. split_and!; try done.
  - by destruct Hr.
  - apply new_events_app. by rewrite <- (assoc (++)).
  - unfold addrs in Hnd. simpl in Hnd.
    by rewrite app_nil_r, (assoc (++)) in Hnd.
  - intros a. destruct Hr as [Hh _ _ _ _ _].
    rewrite (heap_is_dom _ _ a Hh), addrs_cons, main_addrs.
    unfold addrs. simpl. by rewrite app_nil_r, (assoc (++)).
  - by rewrite !length_fmap.
Qed.

(** Claim C10: when the constructor of [T] throws while [emplace] is about
    to recycle the node at [cache_head_], the call throws and leaves the
    node in the cache with its [data] unconstructed: nothing has changed
    but the trace entry of the failed construction and, when the snapshot
    was empty, the producer's [cache_tail_], refilled from
    [before_head_]. *)
Theorem emplace_throw_on_cache_path s :
  reachable s → free_nodes s ≠ [] →
  ∃ (c : positive) nx,
    cache_head_ s = Some c ∧
    heap s !! c = Some (Node None nx) ∧
    emplace None s = Throw (record (Construct_failed c) (refilled s)) ∧
    let s' := record (Construct_failed c) (refilled s) in
    tail_ s' = tail_ s ∧ before_head_ s' = before_head_ s ∧
    cache_head_ s' = cache_head_ s ∧ heap s' = heap s ∧
    next_addr s' = next_addr s ∧
    cache_tail_ s'
    = (if ptr_eqb (cache_tail_ s) (cache_head_ s)
       then before_head_ s else cache_tail_ s) ∧
    free_nodes s' = free_nodes s ∧
    queued_nodes s' = queued_nodes s ∧ contents s' = contents s ∧
    allocations (trace s') = allocations (trace s) ∧
    deallocations (trace s') = deallocations (trace s).
Proof.
  intros (cs & ms & bh & ls & Hr)%reachable_repr Hfree.
  rewrite (free_nodes_repr _ _ _ _ _ _ Hr) in Hfree.
  destruct (emplace_None _ _ _ _ _ Hr)
    as (cs' & ms' & s' & Hrun & Hr' & Heq & Hh & Hch & Hct & Hcases).
  destruct Hcases as [(c & Hc & _ & -> & Htr & Hna)|(Hemp & _)]; [|done].
  destruct (cs ++ ms) as [|x r] eqn:Hcsms; [done|].
  pose proof (lookup_free_head _ _ _ _ _ _ _ _ Hr Hcsms) as Hlk.
  assert (x = c) as ->.
  { destruct Hr as [_ _ Hch' _ _ _]. rewrite (assoc (++)), Hcsms in Hch'.
    simpl in Hch'. congruence. }
  exists c, (head (r ++ [bh])). do 3 (split; [done|]). cbv zeta.
  split_and!; try done.
  - simpl. unfold refilled. by destruct (ptr_eqb _ _).
  - simpl. unfold refilled. by destruct (ptr_eqb _ _).
  - simpl. unfold refilled. by destruct (ptr_eqb _ _).
  - rewrite (free_nodes_repr _ _ _ _ _ _ Hr'), (free_nodes_repr _ _ _ _ _ _ Hr).
    congruence.
  - by rewrite (queued_nodes_repr _ _ _ _ _ _ Hr),
      (queued_nodes_repr _ _ _ _ _ _ Hr').
  - by rewrite (contents_repr _ _ _ _ _ _ Hr), (contents_repr _ _ _ _ _ _ Hr').
  - rewrite Htr. count_events.
  - rewrite Htr. count_events.
Qed.
End Properties.

(** ** Further properties of the queue *)

Section Further.

Context {T : Type}.
Implicit Types (s : queue T) (h : gmap positive (node_type T)).
Implicit Types (cs ms : list positive) (bh : positive).
Implicit Types (ls ps : list (positive * T)).
Implicit Types (c : call T) (calls : list (call T)).

(** Every call of a member function on a reachable queue returns or
    throws, and leaves a reachable queue: no call dereferences a null or
    dangling pointer, constructs over a live value, destroys a dead one,
    or loops for ever. *)
Theorem calls_are_defined s c :
  reachable s → ∃ s', after (invoke c s) = Some s' ∧ reachable s'.
Proof.
  intros Hreach. pose proof Hreach as (cs & ms & bh & ls & Hr)%reachable_repr.
  destruct (invoke_repr c _ _ _ _ _ Hr) as (s' & _ & _ & _ & _ & Hrun & _).
  exists s'. split; [done|]. by eapply reachable_step.
Qed.

(** Every history of calls runs, and the values waiting in the queue
    afterwards are those of the list model of the history: the queue is a
    FIFO queue, whatever its calls threw. *)
Theorem history_refines_fifo (a0 : positive) calls :
  ∃ s, reachable_by a0 calls s ∧ contents s = pending calls.
Proof.
  destruct (run_total (T:=T) a0 calls) as [s Hrun]. exists s. split; [done|].
  destruct (reachable_by_repr _ _ _ Hrun) as (cs & ms & bh & ls & Hr & Hls).
  by rewrite (contents_repr _ _ _ _ _ _ Hr).
Qed.

Lemma repr_dead_lookup s cs ms bh ls P a :
  repr s cs ms bh ls P → a ∈ cs ++ ms ++ [bh] →
  ∃ nx, heap s !! a = Some (Node None nx).
Proof.
  intros Hr Ha. apply repr_chain in Hr. eapply chain_lookup; [done|].
  unfold main. apply elem_of_app. left. unfold dead.
  apply list_elem_of_fmap. by exists a.
Qed.

Lemma repr_live_lookup s cs ms bh ls P a :
  repr s cs ms bh ls P → a ∈ ls.*1 →
  ∃ v nx, heap s !! a = Some (Node (Some v) nx) ∧ (a, v) ∈ ls.
Proof.
  intros Hr Ha. apply repr_chain in Hr.
  apply list_elem_of_fmap in Ha as ([a' v] & -> & Hin). exists v.
  destruct (chain_lookup _ _ _ a' (Some v) Hr) as [nx Hnx]; [|eauto].
  unfold main. apply elem_of_app. right. unfold live.
  apply list_elem_of_fmap. by exists (a', v).
Qed.

(** On every reachable queue [before_head_] is not null; the nodes from
    [cache_head_] through [before_head_] hold no value and the queued
    nodes hold one each; [tail_] is the last node of the chain and its
    [next] is null; [cache_tail_] lies on the chain at or before
    [before_head_]; and the allocator's blocks in use are the nodes of the
    chain. *)
Theorem node_states s :
  reachable s →
  ∃ bh t,
    before_head_ s = Some bh ∧ tail_ s = Some t ∧
    (∀ a, a ∈ free_nodes s ++ [bh] → ∃ nx, heap s !! a = Some (Node None nx)) ∧
    (∀ a, a ∈ queued_nodes s →
          ∃ v nx, heap s !! a = Some (Node (Some v) nx)) ∧
    last (bh :: queued_nodes s) = Some t ∧
    next_of (heap s) (tail_ s) = None ∧
    (∃ ct, cache_tail_ s = Some ct ∧ ct ∈ free_nodes s ++ [bh]) ∧
    allocations (trace s)
    = deallocations (trace s) + length (free_nodes s ++ bh :: queued_nodes s).
Proof.
  intros (cs & ms & bh & ls & Hr)%reachable_repr.
  destruct (lookup_tail _ _ _ _ _ _ Hr) as (t & d & Ht & Hlk).
  rewrite (free_nodes_repr _ _ _ _ _ _ Hr), (queued_nodes_repr _ _ _ _ _ _ Hr).
  exists bh, t. split_and!; try done.
  - by destruct Hr.
  - intros a Ha. eapply repr_dead_lookup; [done|]. by rewrite <- (assoc (++)) in Ha.
  - intros a Ha. destruct (repr_live_lookup _ _ _ _ _ _ _ Hr Ha) as (v & nx & ? & _).
    eauto.
  - destruct Hr. congruence.
  - by rewrite Ht, (next_of_Some _ _ _ Hlk).
  - destruct Hr as [_ _ _ Hct _ _]. rewrite Hct.
    destruct (head (ms ++ [bh])) as [ct|] eqn:Hhd.
    + exists ct. split; [done|]. apply head_Some_elem_of in Hhd.
      rewrite <- (assoc (++)). apply elem_of_app. by right.
    + apply head_None in Hhd. by destruct ms.
  - destruct Hr as [Hh [_ Hb] _ _ _ _]. rewrite Hb, (heap_is_size _ _ Hh).
    rewrite addrs_cons, main_addrs, length_app, <- (assoc (++)). simpl. lia.
Qed.


(** *** The consumer *)

Lemma destroyed_app (tr1 tr2 : list (event T)) :
  destroyed (tr1 ++ tr2) = destroyed tr1 ++ destroyed tr2.
Proof. apply omap_app. Qed.

Lemma invoked_app (tr1 tr2 : list (event T)) :
  invoked (tr1 ++ tr2) = invoked tr1 ++ invoked tr2.
Proof. apply omap_app. Qed.

Lemma destroyed_Destroy (l : list positive) :
  destroyed (T:=T) (Destroy_data <$> l) = l.
Proof. induction l as [|a l IH]; [done|]. simpl. f_equal. apply IH. Qed.

Lemma destroyed_drain ls : destroyed (drain_events ls) = ls.*1.
Proof. induction ls as [|[x v] ls IH]; [done|]. simpl. f_equal. apply IH. Qed.

Lemma invoked_drain ls : invoked (drain_events ls) = ls.*2.
Proof. induction ls as [|[x v] ls IH]; [done|]. simpl. f_equal. apply IH. Qed.

Lemma drain_consumer_events ls : Forall is_consumer_event (drain_events ls).
Proof.
  induction ls as [|[x v] ls IH]; [constructor|].
  simpl. by repeat constructor.
Qed.

(** A consumer call takes some [k] elements off the front of the queue:
    it destroys their values, moves [before_head_] to the last of their
    nodes and so releases the nodes before it. *)
Lemma consumer_step c s cs ms bh ls :
  is_consumer_call c = true → repr s cs ms bh ls [] →
  ∃ s' k ms' bh' evs,
    after (invoke c s) = Some s' ∧ k ≤ length ls ∧
    repr s' cs ms' bh' (drop k ls) [] ∧
    ms' ++ [bh'] = ms ++ bh :: take k ls.*1 ∧
    trace s' = trace s ++ evs ∧
    Forall is_consumer_event evs ∧ destroyed evs = take k ls.*1.
Proof.
  intros Hc Hr. destruct c as [?|?|out| | | |f]; try done; simpl.
  - destruct ls as [|[x v] ls].
    + exists s, 0, ms, bh, []. unfold mbind, M_bind, bind.
      rewrite (pop_nil _ _ _ _ _ out Hr), app_nil_r. by split_and!.
    + destruct (pop_cons _ _ _ _ _ _ _ _ out Hr) as [Hrun Hr'].
      eexists _, 1, (ms ++ [bh]), x, [_; _]. unfold mbind, M_bind, bind.
      rewrite Hrun. split_and!; try done.
      * simpl. lia.
      * by rewrite fmap_cons, <- (assoc (++)).
      * simpl. by rewrite <- (assoc (++)).
      * by repeat constructor.
      * by rewrite fmap_cons.
  - exists s, 0, ms, bh, []. unfold front, mbind, M_bind, bind.
    rewrite (head_repr _ _ _ _ _ _ Hr), app_nil_r. split_and!; try done. lia.
  - exists s, 0, ms, bh, []. unfold empty, mbind, M_bind, bind.
    rewrite (head_repr _ _ _ _ _ _ Hr), app_nil_r. split_and!; try done. lia.
  - destruct (clear_spec _ _ _ _ _ _ Hr)
      as (ms' & bh' & s' & Hrun & Hr' & Hsplit & Htr).
    exists s', (length ls), ms', bh',
      ((Destroy_data <$> ls.*1) ++ [Store_before_head (Some bh') mo_release]).
    rewrite Hrun, drop_all.
    rewrite take_ge by by rewrite length_fmap.
    split_and!; try done.
    + apply Forall_app. split; [|by repeat constructor].
      apply Forall_fmap, Forall_true. done.
    + by rewrite destroyed_app, destroyed_Destroy, app_nil_r.
  - destruct (consumed_split f ls) as (rest & Hsplit & Hok & Hrest).
    set (done := consumed f ls) in *. clearbody done. subst ls.
    assert ((done ++ rest).*1 = done.*1 ++ rest.*1) as Hfm by apply fmap_app.
    assert (length done.*1 = length done) as Hlen by apply length_fmap.
    destruct rest as [|[x v] rest].
    + rewrite app_nil_r in *.
      destruct (consume_all_Ret _ _ _ _ _ _ f Hr Hok)
        as (ms' & bh' & s' & Hrun & Hr' & Hms & Htr).
      exists s', (length done), ms', bh', (drain_events done).
      rewrite Hrun, drop_all, take_ge by lia. split_and!; try done.
      * apply drain_consumer_events.
      * apply destroyed_drain.
    + destruct (consume_all_Throw _ _ _ _ _ _ _ _ _ f Hr Hok Hrest)
        as (ms' & bh' & s' & Hrun & Hr' & Hms & Htr).
      exists s', (length done), ms', bh', (drain_events done ++ [Invoke v]).
      rewrite Hrun, drop_app_length, Hfm, <- Hlen, take_app_length.
      split_and!; try done.
      * rewrite Hlen, length_app. lia.
      * apply Forall_app. split; [apply drain_consumer_events|].
        by repeat constructor.
      * by rewrite destroyed_app, destroyed_drain, app_nil_r.
Qed.

Lemma head_app_snoc {A} (l r : list A) x : head (l ++ x :: r) = head (l ++ [x]).
Proof. by destruct l. Qed.

(** Two chains over the same addresses have the same links. *)
Lemma chain_same_next (ch : list (positive * option T)) :
  ∀ (ch' : list (positive * option T)) h h' e a,
  chain h ch e → chain h' ch' e → ch.*1 = ch'.*1 → a ∈ ch.*1 →
  next_of h (Some a) = next_of h' (Some a).
Proof.
  induction ch as [|[x d] ch IH]; intros [|[x' d'] ch'] h h' e a Hc Hc' Heq Ha;
    try done; [by apply elem_of_nil in Ha|].
  simpl in Heq. injection Heq as -> Heq.
  destruct Hc as [Hx Hc], Hc' as [Hx' Hc']. simpl in *.
  apply elem_of_cons in Ha as [->|Ha]; [|by eapply IH].
  rewrite (next_of_Some _ _ _ Hx), (next_of_Some _ _ _ Hx'). simpl.
  destruct ch as [|[y ?] ch], ch' as [|[y' ?] ch']; try done.
  simpl in Heq. by injection Heq as -> _.
Qed.

(** A consumer call leaves the producer's side alone: [tail_],
    [cache_head_] and [cache_tail_], the set of allocated nodes and every
    [next] link are as before, and all it does is invoke the user function,
    destroy values and store [before_head_]: it never allocates,
    deallocates, constructs or links. *)
Theorem consumer_leaves_producer_side s c s' :
  reachable s → is_consumer_call c = true →
  after (invoke c s) = Some s' →
  tail_ s' = tail_ s ∧ cache_head_ s' = cache_head_ s ∧
  cache_tail_ s' = cache_tail_ s ∧
  (∀ a, is_Some (heap s' !! a) ↔ is_Some (heap s !! a)) ∧
  (∀ a, next_of (heap s') (Some a) = next_of (heap s) (Some a)) ∧
  Forall is_consumer_event (new_events s s').
Proof.
  intros (cs & ms & bh & ls & Hr)%reachable_repr Hc Hrun.
  destruct (consumer_step _ _ _ _ _ _ Hc Hr)
    as (s1 & k & ms' & bh' & evs & Hrun1 & Hk & Hr' & Hms & Htr & Hev & _).
  rewrite Hrun in Hrun1. injection Hrun1 as <-.
  assert (cs ++ ms' ++ bh' :: (drop k ls).*1 = cs ++ ms ++ bh :: ls.*1) as Hsame.
  { f_equal. rewrite (cons_middle bh'), (assoc (++)), Hms, <- (assoc (++)).
    simpl. by rewrite fmap_drop, take_drop. }
  pose proof (repr_chain _ _ _ _ _ _ Hr) as Hch.
  pose proof (repr_chain _ _ _ _ _ _ Hr') as Hch'.
  assert (∀ a, is_Some (heap s' !! a) ↔ is_Some (heap s !! a)) as Hdom.
  { intros a. destruct Hr as [Hh _ _ _ _ _], Hr' as [Hh' _ _ _ _ _].
    by rewrite (heap_is_dom _ _ a Hh), (heap_is_dom _ _ a Hh'),
      !addrs_cons, !main_addrs, Hsame. }
  split_and!; try done.
  - destruct Hr as [_ _ _ _ _ ->], Hr' as [_ _ _ _ _ ->].
    apply (f_equal last) in Hsame. rewrite !(assoc (++) cs) in Hsame.
    rewrite !last_app in Hsame.
    destruct (last (bh' :: _)) eqn:H1, (last (bh :: _)) eqn:H2; try done;
      by apply last_None in H1 || apply last_None in H2.
  - destruct Hr as [_ _ -> _ _ _], Hr' as [_ _ -> _ _ _].
    apply (f_equal head) in Hsame.
    rewrite !(assoc (++) cs) in Hsame.
    rewrite (head_app_snoc (cs ++ ms')), (head_app_snoc (cs ++ ms)) in Hsame.
    by rewrite <- !(assoc (++)) in Hsame.
  - destruct Hr as [_ _ _ -> _ _], Hr' as [_ _ _ -> _ _].
    apply app_inv_head in Hsame. apply (f_equal head) in Hsame.
    by rewrite (head_app_snoc ms'), (head_app_snoc ms) in Hsame.
  - intros a. destruct (decide (a ∈ cs ++ ms ++ bh :: ls.*1)) as [Ha|Ha].
    + eapply chain_same_next; [done|done|by rewrite !main_addrs|].
      by rewrite main_addrs, Hsame.
    + assert (heap s !! a = None) as Hn.
      { apply eq_None_not_Some. intros H. apply Ha.
        destruct Hr as [Hh _ _ _ _ _]. apply (heap_is_dom _ _ a Hh) in H.
        by rewrite addrs_cons, main_addrs, app_nil_r in H. }
      assert (heap s' !! a = None) as Hn'.
      { apply eq_None_not_Some. rewrite Hdom. by rewrite Hn; intros [? ?]. }
      unfold next_of. simpl. by rewrite Hn, Hn'.
  - by rewrite (new_events_app _ _ _ Htr).
Qed.

(** A consumer call takes some number [k] of elements off the front of the
    queue and nothing else: the values and nodes behind them stay as they
    are, the values destroyed are those of the [k] nodes, in order,
    [before_head_] moves [k] nodes forwards, and the nodes it passes
    become free nodes for the producer, in the order of the list. *)
Theorem consumer_takes_front s c :
  reachable s → is_consumer_call c = true →
  ∃ s' k bh bh',
    after (invoke c s) = Some s' ∧ reachable s' ∧
    k = length (contents s) - length (fifo_step c (contents s)) ∧
    before_head_ s = Some bh ∧ before_head_ s' = Some bh' ∧
    contents s' = drop k (contents s) ∧
    queued_nodes s' = drop k (queued_nodes s) ∧
    destroyed (new_events s s') = take k (queued_nodes s) ∧
    free_nodes s' ++ [bh'] = free_nodes s ++ bh :: take k (queued_nodes s).
Proof.
  intros Hreach Hc.
  destruct (reachable_repr _ Hreach) as (cs & ms & bh & ls & Hr).
  destruct (consumer_step _ _ _ _ _ _ Hc Hr)
    as (s' & k & ms' & bh' & evs & Hrun & Hk & Hr' & Hms & Htr & _ & Hd).
  destruct (invoke_repr c _ _ _ _ _ Hr)
    as (s1 & cs1 & ms1 & bh1 & ls1 & Hrun1 & Hr1 & Hstep).
  rewrite Hrun in Hrun1. injection Hrun1 as <-.
  exists s', k, bh, bh'.
  rewrite (contents_repr _ _ _ _ _ _ Hr), (contents_repr _ _ _ _ _ _ Hr').
  rewrite (queued_nodes_repr _ _ _ _ _ _ Hr), (queued_nodes_repr _ _ _ _ _ _ Hr').
  rewrite (free_nodes_repr _ _ _ _ _ _ Hr), (free_nodes_repr _ _ _ _ _ _ Hr').
  rewrite (new_events_app _ _ _ Htr), !fmap_drop.
  split_and!; try done.
  - by eapply reachable_step.
  - rewrite <- Hstep, <- (contents_repr _ _ _ _ _ _ Hr1).
    rewrite (contents_repr _ _ _ _ _ _ Hr'), fmap_drop, length_drop.
    rewrite !length_fmap. lia.
  - by destruct Hr as [_ _ _ _ ? _].
  - by destruct Hr' as [_ _ _ _ ? _].
  - by rewrite <- !(assoc (++)), Hms.
Qed.

(** [front()] changes nothing and returns the node behind [before_head_]:
    null exactly when the queue is empty, and otherwise the node that holds
    the oldest value, which is the value the next [pop] moves out. *)
Theorem front_is_oldest s (out : T) :
  reachable s →
  ∃ x, front s = Ret x s ∧ x = head (queued_nodes s) ∧
       (x = None ↔ contents s = []) ∧
       ∀ a, x = Some a →
         ∃ v nx s', heap s !! a = Some (Node (Some v) nx) ∧
                 head (contents s) = Some v ∧
                 pop out s = Ret (true, v) s' ∧
                 before_head_ s' = Some a ∧
                 heap s' !! a = Some (Node None nx).
Proof.
  intros (cs & ms & bh & ls & Hr)%reachable_repr.
  exists (head ls.*1). unfold front.
  rewrite (head_repr _ _ _ _ _ _ Hr), (queued_nodes_repr _ _ _ _ _ _ Hr).
  rewrite (contents_repr _ _ _ _ _ _ Hr).
  split_and!; try done.
  - by destruct ls.
  - intros a Ha. destruct ls as [|[x v] ls]; [done|]. injection Ha as ->.
    destruct (pop_cons _ _ _ _ _ _ _ _ out Hr) as [Hrun _].
    pose proof (lookup_front _ _ _ _ _ _ _ _ Hr) as Hlk.
    eexists v, _, _. split_and!; [done|done|done|done|].
    simpl. apply lookup_insert_eq.
Qed.

Lemma clear_nil s cs ms bh P :
  repr s cs ms bh [] P →
  clear s = Ret () (record (Store_before_head (Some bh) mo_release)
                      (set_before_head (Some bh) s)).
Proof.
  intros Hr. pose proof (lookup_sentinel _ _ _ _ _ _ Hr) as Hlk.
  destruct Hr as [_ _ _ _ Hbh _].
  unfold clear. step_get. step_get. rewrite Hbh. unfold walk_bound. simpl.
  by step_with load_next_Some.
Qed.

(** [clear()] empties the queue whatever it holds, and on an empty queue
    it only stores [before_head_] again with the value it has. *)
Theorem clear_empties s :
  reachable s →
  ∃ s', clear s = Ret () s' ∧ contents s' = [] ∧ empty s' = Ret true s' ∧
        before_head_ s' = tail_ s ∧
        destroyed (new_events s s') = queued_nodes s ∧
        (contents s = [] →
         s' = record (Store_before_head (before_head_ s) mo_release)
                (set_before_head (before_head_ s) s)).
Proof.
  intros (cs & ms & bh & ls & Hr)%reachable_repr.
  destruct (clear_spec _ _ _ _ _ _ Hr)
    as (ms' & bh' & s' & Hrun & Hr' & Hsplit & Htr).
  exists s'. rewrite (contents_repr _ _ _ _ _ _ Hr').
  rewrite (contents_repr _ _ _ _ _ _ Hr), (queued_nodes_repr _ _ _ _ _ _ Hr).
  rewrite (new_events_app _ _ _ Htr), destroyed_app, destroyed_Destroy.
  split_and!; try done.
  - unfold empty. by step_by ltac:(by eapply head_repr).
  - destruct Hr as [_ _ _ _ _ ->], Hr' as [_ _ _ _ -> _].
    apply (f_equal last) in Hsplit. rewrite !last_app in Hsplit. simpl in Hsplit.
    destruct (last (bh :: ls.*1)) eqn:E; [done|by apply last_None in E].
  - by rewrite app_nil_r.
  - intros Hnil. destruct ls; [|done].
    rewrite (clear_nil _ _ _ _ _ Hr) in Hrun. injection Hrun as <-.
    by destruct Hr as [_ _ _ _ -> _].
Qed.

(** [consume_all(f)] hands the waiting values to [f] in FIFO order and
    removes each one [f] returns on.  It returns when [f] returned on all
    of them, leaving the queue empty; when [f] throws on a value the
    exception leaves [consume_all], and that value and those behind it stay
    in the queue, so a later call sees it again first. *)
Theorem consume_all_keeps_rejected s f :
  reachable s →
  ∃ s' done rest,
    contents s = done ++ rest ∧ Forall (λ v, f v = true) done ∧
    invoked (new_events s s') = done ++ take 1 rest ∧
    destroyed (new_events s s') = take (length done) (queued_nodes s) ∧
    contents s' = rest ∧ queued_nodes s' = drop (length done) (queued_nodes s) ∧
    match rest with
    | [] => consume_all f s = Ret () s'
    | v :: _ => f v = false ∧ consume_all f s = Throw s'
    end.
Proof.
  intros (cs & ms & bh & ls & Hr)%reachable_repr.
  rewrite (contents_repr _ _ _ _ _ _ Hr), (queued_nodes_repr _ _ _ _ _ _ Hr).
  destruct (consumed_split f ls) as (rest & Hsplit & Hok & Hrest).
  set (done := consumed f ls) in *. clearbody done. subst ls.
  assert (Forall (λ v, f v = true) done.*2) as Hok2.
  { apply Forall_fmap. eapply Forall_impl; [exact Hok|]. by intros [??]. }
  assert (length done.*1 = length done.*2) as Hlen by by rewrite !length_fmap.
  destruct rest as [|[x v] rest].
  - rewrite app_nil_r in *.
    destruct (consume_all_Ret _ _ _ _ _ _ f Hr Hok)
      as (ms' & bh' & s' & Hrun & Hr' & Hms & Htr).
    exists s', done.*2, [].
    rewrite (contents_repr _ _ _ _ _ _ Hr'), (queued_nodes_repr _ _ _ _ _ _ Hr').
    rewrite (new_events_app _ _ _ Htr), invoked_drain, destroyed_drain.
    rewrite !app_nil_r, <- Hlen, take_ge, drop_all by lia. by split_and!.
  - destruct (consume_all_Throw _ _ _ _ _ _ _ _ _ f Hr Hok Hrest)
      as (ms' & bh' & s' & Hrun & Hr' & Hms & Htr).
    exists s', done.*2, (v :: rest.*2).
    rewrite (contents_repr _ _ _ _ _ _ Hr'), (queued_nodes_repr _ _ _ _ _ _ Hr').
    rewrite (new_events_app _ _ _ Htr), invoked_app, destroyed_app.
    rewrite invoked_drain, destroyed_drain, !fmap_app, <- Hlen.
    rewrite take_app_length, drop_app_length, app_nil_r.
    by split_and!.
Qed.

(** *** The producer *)

Lemma acquired_0 F s : acquired 0 F s s F [].
Proof. unfold acquired. simpl. split_and!; try done; lia. Qed.

Lemma acquired_step n F F1 F2 s s1 s2 x xs :
  acquired 1 F s s1 F1 [x] → acquired n F1 s1 s2 F2 xs →
  acquired (S n) F s s2 F2 (x :: xs).
Proof.
  intros (-> & Hx & Hna1 & Hal1 & Hde1) (-> & -> & Hna2 & Hal2 & Hde2).
  unfold acquired, acquire in *.
  destruct F as [|y F]; simpl in *; injection Hx as ->;
    rewrite ?drop_0, ?drop_nil, ?take_nil, ?Nat.sub_0_r in *; simpl;
    (split_and!; [done|congruence|congruence|lia|lia]).
Qed.

Lemma acquired_frame n F F' s s1 s2 xs :
  acquired n F s s1 F' xs → next_addr s2 = next_addr s1 →
  allocations (trace s2) = allocations (trace s1) →
  deallocations (trace s2) = deallocations (trace s1) →
  acquired n F s s2 F' xs.
Proof. intros (? & ? & ? & ? & ?) ? ? ?. split_and!; congruence. Qed.

Lemma make_node_acquired s cs ms bh ls P v :
  repr s cs ms bh ls P →
  ∃ x cs' ms' s',
    make_node_ (Some v) s = Ret (Some x) s' ∧
    repr s' cs' ms' bh ls (P ++ [[(x, Some v)]]) ∧
    acquired 1 (cs ++ ms) s s' (cs' ++ ms') [x].
Proof.
  intros Hr.
  destruct (make_node_Some _ _ _ _ _ _ v Hr)
    as (x & cs' & ms' & s' & Hrun & Hr' & _ & _ & Hcases).
  exists x, cs', ms', s'. split_and!; try done.
  destruct Hcases as [(_ & <- & Htr & Hna)|(-> & -> & -> & Htr & Hna)];
    unfold acquired, acquire; rewrite Htr; simpl; rewrite ?drop_0;
    (split_and!; [done|done|done|count_events|count_events]).
Qed.

Lemma emplace_acquired s cs ms bh ls v :
  repr s cs ms bh ls [] →
  ∃ x cs' ms' s',
    emplace (Some v) s = Ret () s' ∧
    repr s' cs' ms' bh (ls ++ [(x, v)]) [] ∧
    acquired 1 (cs ++ ms) s s' (cs' ++ ms') [x].
Proof.
  intros Hr.
  destruct (emplace_Some _ _ _ _ _ v Hr)
    as (x & t & cs' & ms' & s' & _ & Hrun & Hr' & Hcases).
  exists x, cs', ms', s'. split_and!; try done.
  destruct Hcases as [(_ & <- & Htr & Hna)|(-> & -> & -> & Htr & Hna)];
    unfold acquired, acquire; rewrite Htr; simpl; rewrite ?drop_0;
    (split_and!; [done|done|done|count_events|count_events]).
Qed.

Lemma push_all_acquired vs : ∀ s cs ms bh ls,
  repr s cs ms bh ls [] →
  ∃ s' cs' ms' qs,
    push_all vs s = Ret () s' ∧
    repr s' cs' ms' bh (ls ++ qs) [] ∧ qs.*2 = vs ∧
    acquired (length vs) (cs ++ ms) s s' (cs' ++ ms') qs.*1.
Proof.
  induction vs as [|v vs IH]; intros s cs ms bh ls Hr.
  - exists s, cs, ms, []. rewrite app_nil_r.
    split_and!; first [done | apply acquired_0].
  - destruct (emplace_acquired _ _ _ _ _ v Hr)
      as (x & cs1 & ms1 & s1 & Hrun1 & Hr1 & Hacq1).
    destruct (IH _ _ _ _ _ Hr1) as (s' & cs' & ms' & qs & Hrun & Hr' & Hqs & Hacq).
    exists s', cs', ms', ((x, v) :: qs).
    rewrite <- (assoc (++)) in Hr'. split_and!; try done.
    + simpl. unfold push. by step_by ltac:(exact Hrun1).
    + by rewrite fmap_cons, Hqs.
    + rewrite fmap_cons. simpl. by eapply acquired_step.
Qed.

Lemma push_rest_acquired vs : ∀ s cs ms bh ls ps it,
  repr s cs ms bh ls [live ps] → last ps.*1 = Some it →
  ∃ qs cs' ms' s',
    push_rest (Some <$> vs) (Some it) s = Ret (last (ps ++ qs).*1) s' ∧
    repr s' cs' ms' bh ls [live (ps ++ qs)] ∧ qs.*2 = vs ∧
    acquired (length vs) (cs ++ ms) s s' (cs' ++ ms') qs.*1.
Proof.
  induction vs as [|v vs IH]; intros s cs ms bh ls ps it Hr Hit.
  - exists [], cs, ms, s. rewrite !app_nil_r.
    split_and!; first [done | apply acquired_0 | simpl; by rewrite Hit].
  - destruct (make_node_acquired _ _ _ _ _ _ v Hr)
      as (x & cs1 & ms1 & s1 & Hrun1 & Hr1 & Hacq1).
    destruct (link_staged _ _ _ _ _ _ _ _ _ Hr1 Hit)
      as (s2 & Hrun2 & Hr2 & Htr2 & Hna2).
    destruct (IH s2 cs1 ms1 bh ls (ps ++ [(x, v)]) x Hr2)
      as (qs & cs' & ms' & s' & Hrun & Hr' & Hqs & Hacq).
    { rewrite fmap_app. simpl. by rewrite last_snoc. }
    exists ((x, v) :: qs), cs', ms', s'.
    rewrite <- (assoc (++)) in Hrun, Hr'. simpl in Hrun, Hr'.
    split_and!; try done.
    + simpl. step_by ltac:(exact Hrun1). by step_by ltac:(exact Hrun2).
    + by rewrite fmap_cons, Hqs.
    + rewrite fmap_cons. simpl. eapply acquired_step; [|exact Hacq].
      eapply acquired_frame; [exact Hacq1|done|rewrite Htr2|rewrite Htr2];
        count_events.
Qed.

Lemma push_range_acquired s cs ms bh ls v vs :
  repr s cs ms bh ls [] →
  ∃ ps cs' ms' s',
    push_range (Some <$> v :: vs) s = Ret () s' ∧
    repr s' cs' ms' bh (ls ++ ps) [] ∧ ps.*2 = v :: vs ∧
    acquired (length (v :: vs)) (cs ++ ms) s s' (cs' ++ ms') ps.*1.
Proof.
  intros Hr.
  destruct (make_node_acquired _ _ _ _ _ _ v Hr)
    as (x & cs1 & ms1 & s1 & Hrun1 & Hr1 & Hacq1).
  destruct (push_rest_acquired vs s1 cs1 ms1 bh ls [(x, v)] x Hr1 eq_refl)
    as (qs & cs' & ms' & s2 & Hrun2 & Hr2 & Hqs & Hacq2).
  destruct (last ([(x, v)] ++ qs).*1) as [y|] eqn:Hy;
    [|by apply last_None in Hy].
  destruct (publish s2 cs' ms' bh ls ([(x, v)] ++ qs) x y Hr2 eq_refl Hy)
    as (t & s' & Ht & Hpub & Hr' & Htr & Hna).
  exists ((x, v) :: qs), cs', ms', s'.
  split_and!; try done.
  - simpl. step_by ltac:(exact Hrun1).
    by step_by ltac:(apply try_catch_Ret; exact Hrun2).
  - by rewrite fmap_cons, Hqs.
  - rewrite fmap_cons. simpl. eapply acquired_step; [exact Hacq1|].
    eapply acquired_frame; [exact Hacq2|done|rewrite Htr|rewrite Htr];
      count_events.
Qed.

Lemma chain_agree (ch : list (positive * option T)) : ∀ h h' e a,
  chain h ch e → chain h' ch e → a ∈ ch.*1 → h !! a = h' !! a.
Proof.
  induction ch as [|[x d] ch IH]; intros h h' e a Hc Hc' Ha.
  - by apply elem_of_nil in Ha.
  - destruct Hc as [Hx Hc], Hc' as [Hx' Hc']. simpl in *.
    apply elem_of_cons in Ha as [->|Ha]; [congruence|by eapply IH].
Qed.

(** The chains determine the heap. *)
Lemma heap_is_unique h h' C : heap_is h C → heap_is h' C → h = h'.
Proof.
  intros (Hch & _ & Hdom) (Hch' & _ & Hdom'). apply map_eq. intros a.
  destruct (decide (a ∈ addrs C)) as [Ha|Ha].
  - unfold addrs in Ha. rewrite list_elem_of_fmap in Ha.
    destruct Ha as ([a' d] & -> & Hin).
    apply list_elem_of_In, in_concat in Hin as (ch & Hc & Hin).
    apply list_elem_of_In in Hc, Hin. rewrite Forall_forall in Hch, Hch'.
    apply (chain_agree ch _ _ None); [by apply Hch|by apply Hch'|].
    apply list_elem_of_fmap. by exists (a', d).
  - assert (h !! a = None) as ->.
    { apply eq_None_not_Some. intros H. by apply Ha, Hdom. }
    symmetry. apply eq_None_not_Some. intros H. by apply Ha, Hdom'.
Qed.

Lemma main_split cs ms cs' ms' bh ls :
  cs ++ ms = cs' ++ ms' → main cs ms bh ls = main cs' ms' bh ls.
Proof. intros H. unfold main. by rewrite !(assoc (++)), H. Qed.

Lemma fst_snd_eq {A B} (l l' : list (A * B)) :
  l.*1 = l'.*1 → l.*2 = l'.*2 → l = l'.
Proof.
  intros H1 H2. rewrite <- (zip_fst_snd l), <- (zip_fst_snd l'). congruence.
Qed.

(** Pushing takes the free nodes first, oldest first, and allocates only
    when they are used up: [n] pushes leave the free nodes behind the first
    [n], put the nodes taken at the back of the queue in the order they
    were taken, and call the allocator [n - length (free_nodes s)] times,
    never the deallocator. *)
Theorem pushes_take_free_nodes s (vs : list T) :
  reachable s →
  ∃ s', push_all vs s = Ret () s' ∧
        contents s' = contents s ++ vs ∧
        queued_nodes s'
        = queued_nodes s ++ acquire (length vs) (free_nodes s) (next_addr s) ∧
        free_nodes s' = drop (length vs) (free_nodes s) ∧
        before_head_ s' = before_head_ s ∧
        next_addr s' = bump (length vs - length (free_nodes s)) (next_addr s) ∧
        allocations (trace s')
        = allocations (trace s) + (length vs - length (free_nodes s)) ∧
        deallocations (trace s') = deallocations (trace s).
Proof.
  intros (cs & ms & bh & ls & Hr)%reachable_repr.
  destruct (push_all_acquired vs _ _ _ _ _ Hr)
    as (s' & cs' & ms' & qs & Hrun & Hr' & Hqs & HF & Hxs & Hna & Hal & Hde).
  exists s'.
  rewrite (contents_repr _ _ _ _ _ _ Hr), (contents_repr _ _ _ _ _ _ Hr').
  rewrite (queued_nodes_repr _ _ _ _ _ _ Hr), (queued_nodes_repr _ _ _ _ _ _ Hr').
  rewrite (free_nodes_repr _ _ _ _ _ _ Hr), (free_nodes_repr _ _ _ _ _ _ Hr').
  rewrite !fmap_app, Hqs, Hxs. split_and!; try done.
  destruct Hr, Hr'. congruence.
Qed.

(** A range [push] whose constructions all return leaves the queue as the
    same pushes one by one do: the same heap, hence the same nodes, values
    and links, the same [tail_], [before_head_] and [cache_head_], the same
    free nodes, and as many allocations. *)
Theorem range_push_as_pushes s (vs : list T) :
  reachable s →
  ∃ s1 s2,
    push_range (Some <$> vs) s = Ret () s1 ∧ push_all vs s = Ret () s2 ∧
    heap s1 = heap s2 ∧ tail_ s1 = tail_ s2 ∧
    before_head_ s1 = before_head_ s2 ∧ cache_head_ s1 = cache_head_ s2 ∧
    free_nodes s1 = free_nodes s2 ∧ next_addr s1 = next_addr s2 ∧
    allocations (trace s1) = allocations (trace s2) ∧
    deallocations (trace s1) = deallocations (trace s2) ∧
    contents s1 = contents s ++ vs.
Proof.
  intros (cs & ms & bh & ls & Hr)%reachable_repr.
  destruct (push_all_acquired vs _ _ _ _ _ Hr)
    as (s2 & cs2 & ms2 & qs2 & Hrun2 & Hr2 & Hqs2 & HF2 & Hxs2 & Hna2 & Hal2 & Hde2).
  destruct vs as [|v vs].
  { exists s, s. simpl in *. injection Hrun2 as <-.
    rewrite app_nil_r. by split_and!. }
  destruct (push_range_acquired _ _ _ _ _ v vs Hr)
    as (qs1 & cs1 & ms1 & s1 & Hrun1 & Hr1 & Hqs1 & HF1 & Hxs1 & Hna1 & Hal1 & Hde1).
  exists s1, s2.
  assert (qs1 = qs2) as -> by (apply fst_snd_eq; congruence).
  assert (cs1 ++ ms1 = cs2 ++ ms2) as HF by congruence.
  rewrite (free_nodes_repr _ _ _ _ _ _ Hr1), (free_nodes_repr _ _ _ _ _ _ Hr2).
  rewrite (contents_repr _ _ _ _ _ _ Hr1), (contents_repr _ _ _ _ _ _ Hr).
  rewrite fmap_app, Hqs2.
  split_and!; try done; try congruence.
  - destruct Hr1 as [Hh1 _ _ _ _ _], Hr2 as [Hh2 _ _ _ _ _].
    rewrite (main_split _ _ _ _ _ _ HF) in Hh1. by eapply heap_is_unique.
  - destruct Hr1, Hr2. congruence.
  - destruct Hr1, Hr2. congruence.
  - destruct Hr1 as [_ _ -> _ _ _], Hr2 as [_ _ -> _ _ _].
    by rewrite !(assoc (++)), HF.
Qed.

Lemma destroyed_private (evs : list (event T)) :
  Forall is_private evs → destroyed evs = [].
Proof.
  induction 1 as [|e evs He _ IH]; [done|].
  destruct e as [| | | | | |? ? []| |]; try done; simpl; exact IH.
Qed.

Lemma private_producer_events (evs : list (event T)) :
  Forall is_private evs → Forall is_producer_event evs.
Proof.
  intros H. eapply Forall_impl; [exact H|]. by intros [| | | | | |? ? []| |].
Qed.

Lemma destroyed_cleanup (l : list positive) : destroyed (T:=T) (cleanup l) = l.
Proof. induction l as [|a l IH]; [done|]. simpl. f_equal. apply IH. Qed.

Lemma cleanup_producer_events (l : list positive) :
  Forall (is_producer_event (T:=T)) (cleanup l).
Proof. induction l as [|a l IH]; [constructor|]. simpl. by repeat constructor. Qed.

(** A producer call appends to the queue and touches nothing the consumer
    owns: the values it destroys are in nodes it then deallocates. *)
Lemma producer_step c s cs ms bh ls :
  is_consumer_call c = false → repr s cs ms bh ls [] →
  ∃ s' cs' ms' qs evs,
    after (invoke c s) = Some s' ∧
    repr s' cs' ms' bh (ls ++ qs) [] ∧
    trace s' = trace s ++ evs ∧
    Forall is_producer_event evs ∧
    (∀ a, a ∈ destroyed evs → heap s' !! a = None).
Proof.
  intros Hc Hr. destruct c as [[v|]|args|?| | | |?]; try done; simpl.
  - destruct (emplace_Some _ _ _ _ _ v Hr)
      as (x & t & cs' & ms' & s' & _ & Hrun & Hr' & Hcases).
    exists s', cs', ms', [(x, v)]. rewrite Hrun.
    destruct Hcases as [(_ & _ & Htr & _)|(_ & _ & _ & Htr & _)];
      eexists; (split_and!; [done|done|exact Htr| |]);
      first [by repeat constructor | by intros a ?%elem_of_nil].
  - destruct (emplace_None _ _ _ _ _ Hr)
      as (cs' & ms' & s' & Hrun & Hr' & _ & _ & _ & _ & Hcases).
    exists s', cs', ms', []. rewrite Hrun, app_nil_r.
    destruct Hcases as [(x & _ & _ & _ & Htr & _)|(_ & Htr & _)];
      eexists; (split_and!; [done|done|exact Htr| |]);
      first [by repeat constructor | by intros a ?%elem_of_nil].
  - destruct (args_split args) as [(vs & ->)|(vs & rest & ->)].
    + destruct vs as [|v vs].
      { exists s, cs, ms, [], []. rewrite !app_nil_r. split_and!; try done.
        by intros a ?%elem_of_nil. }
      destruct (push_range_Some _ _ _ _ _ v vs Hr)
        as (ps & cs' & ms' & s' & evs & t & x & Hrun & Hr' & _ & _ & _
            & Htr & _ & Hp).
      exists s', cs', ms', ps, (evs ++ [Store_next t (Some x) mo_release]).
      rewrite Hrun. split_and!; try done.
      * apply Forall_app. split; [by apply private_producer_events|].
        by repeat constructor.
      * rewrite destroyed_app, (destroyed_private _ Hp).
        by intros a ?%elem_of_nil.
    + destruct (push_range_None _ _ _ _ _ vs rest Hr)
        as (ps & cs' & ms' & s' & evs & Hrun & Hr' & _ & Htr & _ & Hp & Hgone).
      exists s', cs', ms', [], (evs ++ cleanup ps.*1).
      rewrite Hrun, app_nil_r. split_and!; try done.
      * apply Forall_app. split; [by apply private_producer_events|].
        apply cleanup_producer_events.
      * by rewrite destroyed_app, (destroyed_private _ Hp), destroyed_cleanup.
Qed.

(** A producer call leaves the consumer's side alone: [before_head_] is as
    before, what was waiting in the queue is still waiting, in the same
    nodes and with the same values, ahead of what the call adds, the call
    neither stores [before_head_] nor invokes a consumer's function, and
    the only values it destroys are those a failed range [push] built in
    nodes it has deallocated again. *)
Theorem producer_leaves_consumer_side s c s' :
  reachable s → is_consumer_call c = false →
  after (invoke c s) = Some s' →
  before_head_ s' = before_head_ s ∧
  (∃ qs, queued s' = queued s ++ qs) ∧
  Forall is_producer_event (new_events s s') ∧
  (∀ a, a ∈ destroyed (new_events s s') →
        heap s' !! a = None ∧ a ∉ queued_nodes s').
Proof.
  intros (cs & ms & bh & ls & Hr)%reachable_repr Hc Hrun.
  destruct (producer_step _ _ _ _ _ _ Hc Hr)
    as (s1 & cs' & ms' & qs & evs & Hrun1 & Hr' & Htr & Hev & Hd).
  rewrite Hrun in Hrun1. injection Hrun1 as <-.
  rewrite (queued_repr _ _ _ _ _ _ Hr), (queued_repr _ _ _ _ _ _ Hr').
  rewrite (queued_nodes_repr _ _ _ _ _ _ Hr'), (new_events_app _ _ _ Htr).
  split_and!; try done.
  - destruct Hr, Hr'. congruence.
  - by exists qs.
  - intros a Ha. split; [by apply Hd|]. intros Hin.
    destruct (repr_live_lookup _ _ _ _ _ _ _ Hr' Hin) as (v & nx & Hlk & _).
    by rewrite (Hd a Ha) in Hlk.
Qed.

(** *** Constructions that throw *)

Lemma allocations_cleanup (l : list positive) :
  allocations (T:=T) (cleanup l) = 0.
Proof. induction l as [|a l IH]; [done|]. exact IH. Qed.

Lemma deallocations_cleanup (l : list positive) :
  deallocations (T:=T) (cleanup l) = length l.
Proof.
  induction l as [|a l IH]; [done|].
  change (S (deallocations (T:=T) (cleanup l)) = S (length l)). by rewrite IH.
Qed.

Lemma bump_add j : ∀ k na, bump k (bump j na) = bump (j + k) na.
Proof. induction j as [|j IH]; intros k na; [done|]. simpl. apply IH. Qed.

(** [make_node_] when the construction throws: it allocates, and then
    deallocates, only when there is no free node. *)
Lemma make_node_None_counts s cs ms bh ls P :
  repr s cs ms bh ls P →
  ∃ cs' ms' s',
    make_node_ None s = Throw s' ∧
    repr s' cs' ms' bh ls P ∧ cs' ++ ms' = cs ++ ms ∧
    next_addr s' = bump (1 - length (cs ++ ms)) (next_addr s) ∧
    allocations (trace s')
    = allocations (trace s) + (1 - length (cs ++ ms)) ∧
    deallocations (trace s')
    = deallocations (trace s) + (1 - length (cs ++ ms)).
Proof.
  intros Hr.
  destruct (make_node_None _ _ _ _ _ _ Hr)
    as (cs' & ms' & s' & Hrun & Hr' & Heq & _ & _ & _ & Hcases).
  exists cs', ms', s'. split_and!; try done.
  all: destruct Hcases as [(c & _ & Hne & _ & Htr & Hna)|(-> & Htr & Hna)];
    [destruct (cs ++ ms); [done|]|]; rewrite ?Htr; simpl; try done;
    count_events.
Qed.

Lemma push_rest_None_acquired vs rest : ∀ s cs ms bh ls ps it,
  repr s cs ms bh ls [live ps] → last ps.*1 = Some it →
  ∃ qs cs' ms' s1 s',
    push_rest ((Some <$> vs) ++ None :: rest) (Some it) s = Throw s' ∧
    repr s' cs' ms' bh ls [live (ps ++ qs)] ∧ qs.*2 = vs ∧
    acquired (length vs) (cs ++ ms) s s1 (cs' ++ ms') qs.*1 ∧
    next_addr s' = bump (1 - length (cs' ++ ms')) (next_addr s1) ∧
    allocations (trace s')
    = allocations (trace s1) + (1 - length (cs' ++ ms')) ∧
    deallocations (trace s')
    = deallocations (trace s1) + (1 - length (cs' ++ ms')).
Proof.
  induction vs as [|v vs IH]; intros s cs ms bh ls ps it Hr Hit.
  - destruct (make_node_None_counts _ _ _ _ _ _ Hr)
      as (cs' & ms' & s' & Hrun & Hr' & Heq & Hna & Hal & Hde).
    exists [], cs', ms', s, s'. rewrite !app_nil_r, Heq.
    split_and!;
      first [done | apply acquired_0 | simpl; by throw_by ltac:(exact Hrun)].
  - destruct (make_node_acquired _ _ _ _ _ _ v Hr)
      as (x & cs1 & ms1 & sa & Hrun1 & Hr1 & Hacq1).
    destruct (link_staged _ _ _ _ _ _ _ _ _ Hr1 Hit)
      as (sb & Hrun2 & Hr2 & Htr2 & Hna2).
    destruct (IH sb cs1 ms1 bh ls (ps ++ [(x, v)]) x Hr2)
      as (qs & cs' & ms' & s1 & s' & Hrun & Hr' & Hqs & Hacq & Hna & Hal & Hde).
    { rewrite fmap_app. simpl. by rewrite last_snoc. }
    exists ((x, v) :: qs), cs', ms', s1, s'.
    rewrite <- (assoc (++)) in Hr'. simpl in Hr'.
    split_and!; try done.
    + simpl. step_by ltac:(exact Hrun1). by step_by ltac:(exact Hrun2).
    + by rewrite fmap_cons, Hqs.
    + rewrite fmap_cons. simpl. eapply acquired_step; [|exact Hacq].
      eapply acquired_frame; [exact Hacq1|done|rewrite Htr2|rewrite Htr2];
        count_events.
Qed.

Lemma push_range_None_acquired s cs ms bh ls vs rest :
  repr s cs ms bh ls [] →
  ∃ cs' ms' s',
    push_range ((Some <$> vs) ++ None :: rest) s = Throw s' ∧
    repr s' cs' ms' bh ls [] ∧
    cs' ++ ms' = drop (length vs) (cs ++ ms) ∧
    next_addr s' = bump (S (length vs) - length (cs ++ ms)) (next_addr s) ∧
    allocations (trace s')
    = allocations (trace s) + (S (length vs) - length (cs ++ ms)) ∧
    deallocations (trace s')
    = deallocations (trace s) + (S (length vs) - length (cs ++ ms))
      + length vs `min` length (cs ++ ms).
Proof.
  intros Hr. destruct vs as [|v vs].
  - destruct (make_node_None_counts _ _ _ _ _ _ Hr)
      as (cs' & ms' & s' & Hrun & Hr' & Heq & Hna & Hal & Hde).
    exists cs', ms', s'. simpl. rewrite drop_0.
    split_and!; try done; [by throw_by ltac:(exact Hrun)|lia].
  - destruct (make_node_acquired _ _ _ _ _ _ v Hr)
      as (x & cs1 & ms1 & sa & Hrun1 & Hr1 & Hacq1).
    destruct (push_rest_None_acquired vs rest sa cs1 ms1 bh ls [(x, v)] x Hr1
                eq_refl)
      as (qs & cs' & ms' & s1 & s2 & Hrun2 & Hr2 & Hqs & Hacq2
          & Hna2 & Hal2 & Hde2).
    pose proof (acquired_step _ _ _ _ _ _ _ _ _ Hacq1 Hacq2)
      as (HF & _ & Hna1 & Hal1 & Hde1).
    pose proof Hr2 as [Hh2 Ha2 _ _ _ _].
    destruct (free_chain_spec ([(x, v)] ++ qs) s2 [_] [] (walk_bound s2) Hh2 Ha2)
      as (s' & Hrun & Hh' & Ha' & Hp & Hna & Htr).
    { unfold walk_bound. rewrite (heap_is_size _ _ Hh2), !addrs_cons.
      rewrite !length_app, live_addrs, !length_fmap.
      rewrite length_app. simpl. lia. }
    pose proof (repr_same_pointers _ _ _ _ _ _ _ _ Hr2 Hp Hh' Ha') as Hr'.
    assert (length qs = length vs) as Hlen.
    { by rewrite <- Hqs, length_fmap. }
    assert (length (cs' ++ ms') = length (cs ++ ms) - S (length vs)) as HlenF.
    { by rewrite HF, length_drop. }
    exists cs', ms', s'. split_and!; try done.
    + simpl. step_by ltac:(exact Hrun1).
      throw_by ltac:(erewrite try_catch_Throw by exact Hrun2;
                     rewrite (bind_Ret _ _ _ _ _ (get_Ret _ _));
                     erewrite bind_Ret by exact Hrun; reflexivity).
      done.
    + rewrite Hna, Hna2, Hna1, HlenF, bump_add. simpl length. f_equal. lia.
    + rewrite Htr, allocations_app, allocations_cleanup, Hal2, Hal1, HlenF.
      simpl length. lia.
    + rewrite Htr, deallocations_app, deallocations_cleanup, Hde2, Hde1, HlenF.
      rewrite length_fmap, (length_app [(x, v)] qs), Hlen. simpl length. lia.
Qed.

(** A range [push] in which a construction throws gives back to the
    allocator every node it had taken, also those it took from the free
    nodes: the free nodes shrink by the number of values built, the heap
    shrinks by as many nodes, and the queue's contents stay as they were. *)
Theorem failed_range_push_shrinks_cache s (vs : list T) rest :
  reachable s →
  ∃ s',
    push_range ((Some <$> vs) ++ None :: rest) s = Throw s' ∧
    contents s' = contents s ∧
    free_nodes s' = drop (length vs) (free_nodes s) ∧
    next_addr s'
    = bump (S (length vs) - length (free_nodes s)) (next_addr s) ∧
    allocations (trace s')
    = allocations (trace s) + (S (length vs) - length (free_nodes s)) ∧
    deallocations (trace s')
    = deallocations (trace s) + (S (length vs) - length (free_nodes s))
      + length vs `min` length (free_nodes s) ∧
    size (heap s') = size (heap s) - length vs `min` length (free_nodes s).
Proof.
  intros (cs & ms & bh & ls & Hr)%reachable_repr.
  destruct (push_range_None_acquired _ _ _ _ _ vs rest Hr)
    as (cs' & ms' & s' & Hrun & Hr' & HF & Hna & Hal & Hde).
  exists s'.
  rewrite (contents_repr _ _ _ _ _ _ Hr), (contents_repr _ _ _ _ _ _ Hr').
  rewrite (free_nodes_repr _ _ _ _ _ _ Hr), (free_nodes_repr _ _ _ _ _ _ Hr').
  split_and!; try done.
  destruct Hr as [_ [_ Hb] _ _ _ _], Hr' as [_ [_ Hb'] _ _ _ _]. lia.
Qed.

(** [emplace] when the construction throws and there is no free node: the
    node is allocated, the construction fails in it, and the [catch] block
    deallocates it; the heap and the four pointers are as before. *)
Theorem emplace_throw_on_allocation_path s :
  reachable s → free_nodes s = [] →
  ∃ s',
    emplace None s = Throw s' ∧
    new_events s s' = [Allocate (next_addr s); Construct_failed (next_addr s);
                       Deallocate (next_addr s)] ∧
    heap s' = heap s ∧ same_pointers s s' ∧
    next_addr s' = Pos.succ (next_addr s).
Proof.
  intros (cs & ms & bh & ls & Hr)%reachable_repr Hfree.
  rewrite (free_nodes_repr _ _ _ _ _ _ Hr) in Hfree.
  destruct (emplace_None _ _ _ _ _ Hr)
    as (cs' & ms' & s' & Hrun & Hr' & Heq & Hh & Hch & Hct & Hcases).
  destruct Hcases as [(c & _ & Hne & _)|(_ & Htr & Hna)]; [done|].
  exists s'. split_and!; try done.
  - by apply new_events_app.
  - apply app_eq_nil in Hfree as [-> ->].
    destruct Hr as [_ _ Hch0 Hct0 Hbh0 Ht0], Hr' as [_ _ _ _ Hbh' Ht'].
    unfold same_pointers. rewrite Hct, Hch. unfold refilled.
    rewrite Hct0, Hch0. simpl. unfold ptr_eqb.
    rewrite bool_decide_eq_true_2 by done. simpl.
    split_and!; congruence.
Qed.

(** *** Recycling *)

Lemma pop_all_released ls : ∀ s cs ms bh out fuel,
  repr s cs ms bh ls [] → length ls < fuel →
  ∃ s' ms' bh',
    pop_all fuel out s = Ret ls.*2 s' ∧ repr s' cs ms' bh' [] [] ∧
    ms' ++ [bh'] = ms ++ bh :: ls.*1 ∧
    next_addr s' = next_addr s ∧
    allocations (trace s') = allocations (trace s) ∧
    deallocations (trace s') = deallocations (trace s).
Proof.
  induction ls as [|[x v] ls IH]; intros s cs ms bh out fuel Hr Hfuel;
    (destruct fuel as [|fuel]; [simpl in Hfuel; lia|]).
  - exists s, ms, bh. split_and!; try done. simpl.
    by step_by ltac:(by eapply pop_nil).
  - destruct (pop_cons _ _ _ _ _ _ _ _ out Hr) as [Hrun1 Hr1].
    destruct (IH _ _ _ _ v fuel Hr1)
      as (s' & ms' & bh' & Hrun & Hr' & Hms & Hna & Hal & Hde);
      [simpl in Hfuel; lia|].
    exists s', ms', bh'. split_and!; try done.
    + simpl. step_by ltac:(exact Hrun1). simpl. by step_by ltac:(exact Hrun).
    + by rewrite Hms, <- (assoc (++)).
    + rewrite Hal. count_events.
    + rewrite Hde. count_events.
Qed.

(** Nodes are recycled: when the consumer has popped everything, the old
    sentinel and all popped nodes but the last are free, and the producer's
    next pushes take them in the order in which they were in the list,
    without a call of the allocator, as long as they last. *)
Theorem drained_nodes_are_reused s (out : T) fuel (ws : list T) :
  reachable s → length (contents s) < fuel →
  length ws ≤ length (free_nodes s) + length (contents s) →
  ∃ s1 s2 bh bh1,
    before_head_ s = Some bh ∧
    pop_all fuel out s = Ret (contents s) s1 ∧
    before_head_ s1 = Some bh1 ∧
    free_nodes s1 ++ [bh1] = free_nodes s ++ bh :: queued_nodes s ∧
    push_all ws s1 = Ret () s2 ∧
    contents s2 = ws ∧
    queued_nodes s2
    = take (length ws) (free_nodes s ++ bh :: queued_nodes s) ∧
    next_addr s2 = next_addr s ∧
    allocations (trace s2) = allocations (trace s) ∧
    deallocations (trace s2) = deallocations (trace s).
Proof.
  intros (cs & ms & bh & ls & Hr)%reachable_repr.
  rewrite (contents_repr _ _ _ _ _ _ Hr), (free_nodes_repr _ _ _ _ _ _ Hr).
  rewrite (queued_nodes_repr _ _ _ _ _ _ Hr), length_fmap.
  intros Hfuel Hlen.
  destruct (pop_all_released ls _ _ _ _ out fuel Hr Hfuel)
    as (s1 & ms1 & bh1 & Hrun1 & Hr1 & Hms & Hna1 & Hal1 & Hde1).
  destruct (push_all_acquired ws _ _ _ _ _ Hr1)
    as (s2 & cs2 & ms2 & qs & Hrun2 & Hr2 & Hqs & HF & Hxs & Hna & Hal & Hde).
  assert (length (cs ++ ms1) = length (cs ++ ms) + length ls) as HlenF.
  { apply (f_equal length) in Hms. rewrite !length_app in *. simpl in Hms.
    rewrite length_fmap in Hms. lia. }
  assert (length ws - length (cs ++ ms1) = 0) as Hz by lia.
  exists s1, s2, bh, bh1.
  rewrite (free_nodes_repr _ _ _ _ _ _ Hr1), (contents_repr _ _ _ _ _ _ Hr2).
  rewrite (queued_nodes_repr _ _ _ _ _ _ Hr2).
  rewrite Hz in *. simpl in *. unfold acquire in Hxs.
  rewrite Hz, app_nil_r in Hxs.
  split_and!; try done; try congruence; try lia.
  - by destruct Hr as [_ _ _ _ ? _].
  - by destruct Hr1 as [_ _ _ _ ? _].
  - by rewrite <- !(assoc (++)), Hms.
  - rewrite Hxs, <- (assoc (++)), <- Hms, (assoc (++)).
    by rewrite (take_app_le (cs ++ ms1)) by lia.
Qed.
End Further.

(** ** The comparison operators of the pair *)

Section CompressedPairFacts.

Context {T1 T2 : Type}.
Context (eq1 lt1 : T1 → T1 → bool) (eq2 lt2 : T2 → T2 → bool).

Lemma swo_asymmetric {A} (lt : A → A → bool) x y :
  strict_weak_order lt → lt x y = true → lt y x = false.
Proof.
  intros [Hi Ht _] H. destruct (lt y x) eqn:E; [|done].
  by rewrite <- (Hi x), (Ht x y x).
Qed.

(** In a strict weak order, an element below [y] is below everything that
    is not below [y]. *)
Lemma swo_lt_not_gt {A} (lt : A → A → bool) x y z :
  strict_weak_order lt → lt x y = true → lt z y = false → lt x z = true.
Proof.
  intros Hs Hxy Hzy. pose proof Hs as [Hi Ht Hc].
  destruct (lt x z) eqn:Hxz; [done|].
  destruct (lt z x) eqn:Hzx.
  { by rewrite (Ht z x y) in Hzy. }
  destruct (lt y z) eqn:Hyz.
  { by rewrite (Ht x y z) in Hxz. }
  destruct (Hc x z y) as [Hxy' _]; try done. congruence.
Qed.

Lemma swo_not_lt_gt {A} (lt : A → A → bool) x y z :
  strict_weak_order lt → lt y x = false → lt y z = true → lt x z = true.
Proof.
  intros Hs Hyx Hyz. pose proof Hs as [Hi Ht Hc].
  destruct (lt x z) eqn:Hxz; [done|].
  destruct (lt z x) eqn:Hzx.
  { by rewrite (Ht y z x) in Hyx. }
  destruct (lt x y) eqn:Hxy.
  { by rewrite (Ht x y z) in Hxz. }
  destruct (Hc y x z) as [Hyz' _]; try done. congruence.
Qed.



End CompressedPairFacts.

(** ** The test of the repository *)

Section Test.

Implicit Types (s : queue Z) (cs ms : list positive) (bh : positive).
Implicit Types (ls : list (positive * Z)).

Lemma expect_empty_spec s cs ms bh out k :
  repr s cs ms bh [] [] → expect_empty out k s = k out s.
Proof.
  intros Hr. unfold expect_empty.
  step_by ltac:(by eapply pop_nil). simpl. unfold empty.
  step_by ltac:(by eapply head_repr). by step_mret.
Qed.

Lemma pop_expect_spec ls : ∀ s cs ms bh out k,
  repr s cs ms bh ls [] →
  ∃ s' ms' bh' out',
    repr s' cs ms' bh' [] [] ∧ pop_expect ls.*2 out k s = k out' s'.
Proof.
  induction ls as [|[x v] ls IH]; intros s cs ms bh out k Hr.
  - by exists s, ms, bh, out.
  - destruct (pop_cons _ _ _ _ _ _ _ _ out Hr) as [Hrun1 Hr1].
    destruct (IH _ _ _ _ v k Hr1) as (s' & ms' & bh' & out' & Hr' & Hrun).
    exists s', ms', bh', out'. split; [done|].
    rewrite fmap_cons. cbn [pop_expect].
    step_by ltac:(exact Hrun1). simpl. rewrite Z.eqb_refl. simpl.
    exact Hrun.
Qed.

(** The repository's test passes on every freshly constructed queue,
    whatever the number of values of its loops, the value of its single
    push and the initial value of [out], and it leaves the queue empty. *)
Theorem push_and_pop_passes (a0 : positive) (n : nat) (v out : Z) :
  ∃ s', push_and_pop n v out (spsc_queue_new a0) = Ret true s' ∧
        contents s' = [].
Proof.
  unfold push_and_pop.
  pose proof (repr_new (T:=Z) a0) as Hr0.
  rewrite (expect_empty_spec _ _ _ _ _ _ Hr0).
  destruct (emplace_Some _ _ _ _ _ v Hr0)
    as (x & t & cs1 & ms1 & s1 & _ & Hrun1 & Hr1 & _).
  unfold push. step_by ltac:(exact Hrun1). simpl in Hr1.
  destruct (pop_expect_spec [(x, v)] _ _ _ _ out
              (λ out, expect_empty out (λ out,
                 push_all (Z.of_nat <$> seq 0 n) ;;
                 pop_expect (Z.of_nat <$> seq 0 n) out (λ out,
                   expect_empty out (λ _, mret true)))) Hr1)
    as (s2 & ms2 & bh2 & out2 & Hr2 & Hrun2).
  simpl in Hrun2. cbn [pop_expect]. rewrite Hrun2.
  rewrite (expect_empty_spec _ _ _ _ _ _ Hr2).
  destruct (push_all_spec (Z.of_nat <$> seq 0 n) _ _ _ _ _ Hr2)
    as (s3 & cs3 & ms3 & qs & Hrun3 & Hr3 & Hqs).
  step_by ltac:(exact Hrun3). simpl in Hr3. rewrite <- Hqs.
  destruct (pop_expect_spec qs _ _ _ _ out2
              (λ out, expect_empty out (λ _, mret true)) Hr3)
    as (s4 & ms4 & bh4 & out4 & Hr4 & Hrun4).
  rewrite Hrun4, (expect_empty_spec _ _ _ _ _ _ Hr4).
  exists s4. split; [done|]. by rewrite (contents_repr _ _ _ _ _ _ Hr4).
Qed.

End Test.

(** ** The properties on concrete queues of integers *)

(** The test [push_and_pop] of the repository: five pushes, five pops, and
    one push followed by one pop. *)
Lemma fifo_order_witness :
  reachable (spsc_queue_new (T:=Z) 1) ∧
  (∃ s', (push_all [0; 1; 2; 3; 4]%Z ;; pop_all 6 0%Z) (spsc_queue_new 1)
         = Ret [0; 1; 2; 3; 4]%Z s' ∧ contents s' = []) ∧
  (∃ s', (push 123%Z ;; pop 0%Z) (spsc_queue_new 1) = Ret (true, 123%Z) s' ∧
         contents s' = []).
Proof.
  assert (reachable (spsc_queue_new (T:=Z) 1)) as Hreach.
  { exists 1%positive, []. reflexivity. }
  split; [exact Hreach|].
  destruct (fifo_order (spsc_queue_new 1) [0; 1; 2; 3; 4]%Z 0%Z 6 Hreach)
    as [H1 H2]; [vm_compute; lia|].
  split; [exact H1|]. apply H2. reflexivity.
Defined.

Lemma pop_spec_witness :
  let s := state_after [Emplace (Some 123%Z)] in
  reachable s ∧
  ∃ x, head_ s = Ret x s ∧
       x = next_of (heap s) (before_head_ s) ∧
       x = head (queued_nodes s) ∧
       (x = None ↔ contents s = []) ∧
       match x with
       | None => pop 0%Z s = Ret (false, 0%Z) s
       | Some a =>
           ∃ v nx,
             heap s !! a = Some (Node (Some v) nx) ∧
             head (contents s) = Some v ∧
             pop 0%Z s
             = Ret (true, v)
                 (record (Store_before_head (Some a) mo_release)
                    (set_before_head (Some a)
                       (record (Destroy_data a)
                          (set_heap (<[a:=Node None nx]> (heap s)) s))))
       end ∧
       (∀ b u s', pop 0%Z s = Ret (b, u) s' →
                  b = false ↔ next_of (heap s) (before_head_ s) = None).
Proof.
  intros s.
  assert (reachable s) as Hreach.
  { exists 1%positive, [Emplace (Some 123%Z)]. vm_compute. reflexivity. }
  split; [exact Hreach|]. apply (pop_spec s 0%Z Hreach).
Defined.

(** A queue holding 1 and 2, and the same queue after [consume_all]. *)
Lemma consume_all_stores_per_element :
  let s := state_after [Emplace (Some 1%Z); Emplace (Some 2%Z)] in
  let s' := state_after [Emplace (Some 1%Z); Emplace (Some 2%Z);
                         Consume_all (λ _, true)] in
  reachable s ∧
  consume_all (λ _, true) s = Ret () s' ∧
  new_events s s'
  = [Invoke 1%Z; Destroy_data 2; Store_before_head (Some 2%positive) mo_release;
     Invoke 2%Z; Destroy_data 3; Store_before_head (Some 3%positive) mo_release] ∧
  ¬ stores_once_at_end (new_events s s').
Proof.
  intros s s'.
  assert (new_events s s'
          = [Invoke 1%Z; Destroy_data 2;
             Store_before_head (Some 2%positive) mo_release;
             Invoke 2%Z; Destroy_data 3]
            ++ [Store_before_head (Some 3%positive) mo_release]) as Hev.
  { vm_compute. reflexivity. }
  split_and!.
  - exists 1%positive, [Emplace (Some 1%Z); Emplace (Some 2%Z)].
    vm_compute. reflexivity.
  - vm_compute. reflexivity.
  - exact Hev.
  - rewrite Hev. intros (pre & x & Heq & Hall).
    apply app_inj_tail in Heq as [<- _].
    apply Forall_cons in Hall as [_ Hall].
    apply Forall_cons in Hall as [_ Hall].
    apply Forall_cons in Hall as [Hbad _]. discriminate Hbad.
Qed.

Lemma before_head_stores_witness :
  let s := state_after [Emplace (Some 1%Z); Emplace (Some 2%Z)] in
  reachable s ∧
  (∃ s', clear s = Ret () s' ∧
         new_events s s'
         = (Destroy_data <$> queued_nodes s)
           ++ [Store_before_head (tail_ s) mo_release] ∧
         stores_once_at_end (new_events s s')) ∧
  (∀ f, ∃ s', after (consume_all f s) = Some s' ∧
              new_events s s' = consume_all_events f (queued s)).
Proof.
  intros s.
  assert (reachable s) as Hreach.
  { exists 1%positive, [Emplace (Some 1%Z); Emplace (Some 2%Z)].
    vm_compute. reflexivity. }
  split; [exact Hreach|]. apply (before_head_stores s Hreach).
Defined.

(** Three nodes in the cache, then a range of five whose last construction
    throws: three staged nodes come from the cache, one from the allocator. *)
Lemma push_range_throw_witness :
  let s := state_after [Emplace (Some 1%Z); Emplace (Some 2%Z);
                        Emplace (Some 3%Z); Pop 0%Z; Pop 0%Z; Pop 0%Z] in
  reachable s ∧
  ∃ s' staged build,
    push_range ((Some <$> [8; 9; 10; 11]%Z) ++ [None]) s = Throw s' ∧
    new_events s s' = build ++ cleanup staged.*1 ∧
    constructed build = staged ∧ staged.*2 = [8; 9; 10; 11]%Z ∧
    Forall is_private build ∧
    (∀ a, a ∈ staged.*1 → heap s' !! a = None) ∧
    tail_ s' = tail_ s ∧ next_of (heap s') (tail_ s') = None ∧
    before_head_ s' = before_head_ s ∧
    queued_nodes s' = queued_nodes s ∧ contents s' = contents s.
Proof.
  intros s.
  assert (reachable s) as Hreach.
  { exists 1%positive, [Emplace (Some 1%Z); Emplace (Some 2%Z);
                        Emplace (Some 3%Z); Pop 0%Z; Pop 0%Z; Pop 0%Z].
    vm_compute. reflexivity. }
  split; [exact Hreach|].
  apply (push_range_throw s [8; 9; 10; 11]%Z [] Hreach).
Defined.

Lemma destructor_releases_everything_witness :
  let s := state_after [Emplace (Some 1%Z); Emplace (Some 2%Z);
                        Emplace (Some 3%Z); Pop 0%Z] in
  reachable s ∧
  ∃ s' bh,
    before_head_ s = Some bh ∧
    destructor s = Ret () s' ∧
    new_events s s'
    = (Deallocate <$> free_nodes s ++ [bh]) ++ cleanup (queued_nodes s) ∧
    NoDup (free_nodes s ++ bh :: queued_nodes s) ∧
    (∀ a, is_Some (heap s !! a) ↔ a ∈ free_nodes s ++ bh :: queued_nodes s) ∧
    length (contents s) = length (queued_nodes s) ∧
    heap s' = ∅ ∧
    allocations (trace s') = deallocations (trace s').
Proof.
  intros s.
  assert (reachable s) as Hreach.
  { exists 1%positive, [Emplace (Some 1%Z); Emplace (Some 2%Z);
                        Emplace (Some 3%Z); Pop 0%Z].
    vm_compute. reflexivity. }
  split; [exact Hreach|]. apply (destructor_releases_everything s Hreach).
Defined.

Lemma empty_iff_witness :
  let calls := [Emplace (Some 123%Z); Pop 0%Z; Emplace (Some 7%Z)] in
  let s := state_after calls in
  reachable_by 1 calls s ∧
  ∃ b, empty s = Ret b s ∧
       (b = true ↔ before_head_ s = tail_ s) ∧
       (b = true ↔ next_of (heap s) (before_head_ s) = None) ∧
       (b = true ↔ pending calls = []) ∧
       (b = true ↔ queued_nodes s = []).
Proof.
  intros calls s.
  assert (reachable_by 1 calls s) as Hreach by (vm_compute; reflexivity).
  split; [exact Hreach|]. apply (empty_iff 1 calls s Hreach).
Defined.

(** Three pushes and a [clear] leave three free nodes: the next three
    pushes do not allocate. *)
Lemma node_acquisition_witness :
  let s := state_after [Emplace (Some 1%Z); Emplace (Some 2%Z);
                        Emplace (Some 3%Z); Clear] in
  reachable s ∧ length [4; 5; 6]%Z ≤ length (free_nodes s) ∧
  (∃ x s', make_node_ (Some 4%Z) s = Ret (Some x) s' ∧
           cache_head_ s = Some x ∧
           new_events s s' = [Construct_data x 4%Z; Construct_next x]) ∧
  ∃ s', push_all [4; 5; 6]%Z s = Ret () s' ∧
        allocations (trace s') = allocations (trace s).
Proof.
  intros s.
  assert (reachable s) as Hreach.
  { exists 1%positive, [Emplace (Some 1%Z); Emplace (Some 2%Z);
                        Emplace (Some 3%Z); Clear].
    vm_compute. reflexivity. }
  assert (length [4; 5; 6]%Z ≤ length (free_nodes s)) as Hlen.
  { vm_compute. lia. }
  split; [exact Hreach|]. split; [exact Hlen|].
  destruct (node_acquisition s 4%Z Hreach) as [(x & s' & Hrun & _ & _ & Hif) Hwarm].
  split; [|exact (Hwarm [4; 5; 6]%Z Hlen)].
  exists x, s'. split; [exact Hrun|].
  assert (ptr_eqb (cache_tail_ (refilled s)) (cache_head_ s) = false) as Hne.
  { vm_compute. reflexivity. }
  rewrite Hne in Hif. destruct Hif as (Hch & _ & Hev). by split.
Defined.

Lemma emplace_throw_on_cache_path_witness :
  let s := state_after [Emplace (Some 1%Z); Pop 0%Z] in
  reachable s ∧ free_nodes s ≠ [] ∧
  ∃ (c : positive) nx,
    cache_head_ s = Some c ∧
    heap s !! c = Some (Node None nx) ∧
    emplace None s = Throw (record (Construct_failed c) (refilled s)) ∧
    let s' := record (Construct_failed c) (refilled s) in
    tail_ s' = tail_ s ∧ before_head_ s' = before_head_ s ∧
    cache_head_ s' = cache_head_ s ∧ heap s' = heap s ∧
    next_addr s' = next_addr s ∧
    cache_tail_ s'
    = (if ptr_eqb (cache_tail_ s) (cache_head_ s)
       then before_head_ s else cache_tail_ s) ∧
    free_nodes s' = free_nodes s ∧
    queued_nodes s' = queued_nodes s ∧ contents s' = contents s ∧
    allocations (trace s') = allocations (trace s) ∧
    deallocations (trace s') = deallocations (trace s).
Proof.
  intros s.
  assert (reachable s) as Hreach.
  { exists 1%positive, [Emplace (Some 1%Z); Pop 0%Z]. vm_compute. reflexivity. }
  assert (free_nodes s ≠ []) as Hfree by (vm_compute; discriminate).
  split; [exact Hreach|]. split; [exact Hfree|].
  apply (emplace_throw_on_cache_path s Hreach Hfree).
Defined.

(** ** The further properties on concrete queues of integers *)

Ltac by_history calls := exists 1%positive, calls; vm_compute; reflexivity.

Lemma calls_are_defined_witness :
  let s := state_after [Emplace (Some 1%Z); Emplace None] in
  reachable s ∧
  ∃ s', after (invoke (Pop 0%Z) s) = Some s' ∧ reachable s'.
Proof.
  intros s.
  assert (reachable s) as Hreach
    by by_history [Emplace (Some 1%Z); Emplace (T:=Z) None].
  split; [exact Hreach|]. exact (calls_are_defined s (Pop 0%Z) Hreach).
Defined.

Lemma node_states_witness :
  let s := state_after [Emplace (Some 1%Z); Emplace (Some 2%Z); Pop 0%Z] in
  reachable s ∧
  ∃ bh t,
    before_head_ s = Some bh ∧ tail_ s = Some t ∧
    (∀ a, a ∈ free_nodes s ++ [bh] → ∃ nx, heap s !! a = Some (Node None nx)) ∧
    (∀ a, a ∈ queued_nodes s →
          ∃ v nx, heap s !! a = Some (Node (Some v) nx)) ∧
    last (bh :: queued_nodes s) = Some t ∧
    next_of (heap s) (tail_ s) = None ∧
    (∃ ct, cache_tail_ s = Some ct ∧ ct ∈ free_nodes s ++ [bh]) ∧
    allocations (trace s)
    = deallocations (trace s) + length (free_nodes s ++ bh :: queued_nodes s).
Proof.
  intros s.
  assert (reachable s) as Hreach
    by by_history [Emplace (Some 1%Z); Emplace (Some 2%Z); Pop 0%Z].
  split; [exact Hreach|]. exact (node_states s Hreach).
Defined.

Lemma consumer_leaves_producer_side_witness :
  let calls := [Emplace (Some 1%Z); Emplace (Some 2%Z); Emplace (Some 3%Z);
                Pop 0%Z] in
  let c := Consume_all (λ v, v <? 3)%Z in
  let s := state_after calls in
  let s' := state_after (calls ++ [c]) in
  reachable s ∧ is_consumer_call c = true ∧
  after (invoke c s) = Some s' ∧
  tail_ s' = tail_ s ∧ cache_head_ s' = cache_head_ s ∧
  cache_tail_ s' = cache_tail_ s ∧
  (∀ a, is_Some (heap s' !! a) ↔ is_Some (heap s !! a)) ∧
  (∀ a, next_of (heap s') (Some a) = next_of (heap s) (Some a)) ∧
  Forall is_consumer_event (new_events s s').
Proof.
  intros calls c s s'.
  assert (reachable s) as Hreach by by_history calls.
  assert (is_consumer_call c = true) as Hc by reflexivity.
  assert (after (invoke c s) = Some s') as Hrun by (vm_compute; reflexivity).
  split; [exact Hreach|]. split; [exact Hc|]. split; [exact Hrun|].
  exact (consumer_leaves_producer_side s c s' Hreach Hc Hrun).
Defined.

Lemma consumer_takes_front_witness :
  let s := state_after [Emplace (Some 1%Z); Emplace (Some 2%Z);
                        Emplace (Some 3%Z)] in
  let c := Pop 0%Z in
  reachable s ∧ is_consumer_call c = true ∧
  ∃ s' k bh bh',
    after (invoke c s) = Some s' ∧ reachable s' ∧
    k = length (contents s) - length (fifo_step c (contents s)) ∧
    before_head_ s = Some bh ∧ before_head_ s' = Some bh' ∧
    contents s' = drop k (contents s) ∧
    queued_nodes s' = drop k (queued_nodes s) ∧
    destroyed (new_events s s') = take k (queued_nodes s) ∧
    free_nodes s' ++ [bh'] = free_nodes s ++ bh :: take k (queued_nodes s).
Proof.
  intros s c.
  assert (reachable s) as Hreach
    by by_history [Emplace (Some 1%Z); Emplace (Some 2%Z); Emplace (Some 3%Z)].
  assert (is_consumer_call c = true) as Hc by reflexivity.
  split; [exact Hreach|]. split; [exact Hc|].
  exact (consumer_takes_front s c Hreach Hc).
Defined.

Lemma front_is_oldest_witness :
  let s := state_after [Emplace (Some 7%Z); Emplace (Some 8%Z)] in
  reachable s ∧
  ∃ x, front s = Ret x s ∧ x = head (queued_nodes s) ∧
       (x = None ↔ contents s = []) ∧
       ∀ a, x = Some a →
         ∃ v nx s', heap s !! a = Some (Node (Some v) nx) ∧
                 head (contents s) = Some v ∧
                 pop 0%Z s = Ret (true, v) s' ∧
                 before_head_ s' = Some a ∧
                 heap s' !! a = Some (Node None nx).
Proof.
  intros s.
  assert (reachable s) as Hreach
    by by_history [Emplace (Some 7%Z); Emplace (Some 8%Z)].
  split; [exact Hreach|]. exact (front_is_oldest s 0%Z Hreach).
Defined.

Lemma clear_empties_witness :
  let s := state_after [Push_range [Some 1%Z; Some 2%Z; Some 3%Z]; Pop 0%Z] in
  reachable s ∧
  ∃ s', clear s = Ret () s' ∧ contents s' = [] ∧ empty s' = Ret true s' ∧
        before_head_ s' = tail_ s ∧
        destroyed (new_events s s') = queued_nodes s ∧
        (contents s = [] →
         s' = record (Store_before_head (before_head_ s) mo_release)
                (set_before_head (before_head_ s) s)).
Proof.
  intros s.
  assert (reachable s) as Hreach
    by by_history [Push_range [Some 1%Z; Some 2%Z; Some 3%Z]; Pop 0%Z].
  split; [exact Hreach|]. exact (clear_empties s Hreach).
Defined.

Lemma consume_all_keeps_rejected_witness :
  let s := state_after [Push_range [Some 1%Z; Some 2%Z; Some 3%Z]] in
  let f := (λ v, v <? 3)%Z in
  reachable s ∧
  ∃ s' done rest,
    contents s = done ++ rest ∧ Forall (λ v, f v = true) done ∧
    invoked (new_events s s') = done ++ take 1 rest ∧
    destroyed (new_events s s') = take (length done) (queued_nodes s) ∧
    contents s' = rest ∧ queued_nodes s' = drop (length done) (queued_nodes s) ∧
    match rest with
    | [] => consume_all f s = Ret () s'
    | v :: _ => f v = false ∧ consume_all f s = Throw s'
    end.
Proof.
  intros s f.
  assert (reachable s) as Hreach
    by by_history [Push_range [Some 1%Z; Some 2%Z; Some 3%Z]].
  split; [exact Hreach|]. exact (consume_all_keeps_rejected s f Hreach).
Defined.

Lemma producer_leaves_consumer_side_witness :
  let calls := [Emplace (Some 1%Z); Emplace (Some 2%Z); Pop 0%Z;
                Emplace (Some 3%Z)] in
  let c := Push_range [Some 4%Z; Some 5%Z; None] in
  let s := state_after calls in
  let s' := state_after (calls ++ [c]) in
  reachable s ∧ is_consumer_call c = false ∧
  after (invoke c s) = Some s' ∧
  before_head_ s' = before_head_ s ∧
  (∃ qs, queued s' = queued s ++ qs) ∧
  Forall is_producer_event (new_events s s') ∧
  (∀ a, a ∈ destroyed (new_events s s') →
        heap s' !! a = None ∧ a ∉ queued_nodes s').
Proof.
  intros calls c s s'.
  assert (reachable s) as Hreach by by_history calls.
  assert (is_consumer_call c = false) as Hc by reflexivity.
  assert (after (invoke c s) = Some s') as Hrun by (vm_compute; reflexivity).
  split; [exact Hreach|]. split; [exact Hc|]. split; [exact Hrun|].
  exact (producer_leaves_consumer_side s c s' Hreach Hc Hrun).
Defined.

Lemma pushes_take_free_nodes_witness :
  let s := state_after [Emplace (Some 1%Z); Emplace (Some 2%Z); Clear] in
  let vs := [3; 4; 5]%Z in
  reachable s ∧
  ∃ s', push_all vs s = Ret () s' ∧
        contents s' = contents s ++ vs ∧
        queued_nodes s'
        = queued_nodes s ++ acquire (length vs) (free_nodes s) (next_addr s) ∧
        free_nodes s' = drop (length vs) (free_nodes s) ∧
        before_head_ s' = before_head_ s ∧
        next_addr s' = bump (length vs - length (free_nodes s)) (next_addr s) ∧
        allocations (trace s')
        = allocations (trace s) + (length vs - length (free_nodes s)) ∧
        deallocations (trace s') = deallocations (trace s).
Proof.
  intros s vs.
  assert (reachable s) as Hreach
    by by_history [Emplace (Some 1%Z); Emplace (Some 2%Z); Clear (T:=Z)].
  split; [exact Hreach|]. exact (pushes_take_free_nodes s vs Hreach).
Defined.

Lemma range_push_as_pushes_witness :
  let s := state_after [Emplace (Some 1%Z); Emplace (Some 2%Z); Pop 0%Z] in
  let vs := [3; 4; 5]%Z in
  reachable s ∧
  ∃ s1 s2,
    push_range (Some <$> vs) s = Ret () s1 ∧ push_all vs s = Ret () s2 ∧
    heap s1 = heap s2 ∧ tail_ s1 = tail_ s2 ∧
    before_head_ s1 = before_head_ s2 ∧ cache_head_ s1 = cache_head_ s2 ∧
    free_nodes s1 = free_nodes s2 ∧ next_addr s1 = next_addr s2 ∧
    allocations (trace s1) = allocations (trace s2) ∧
    deallocations (trace s1) = deallocations (trace s2) ∧
    contents s1 = contents s ++ vs.
Proof.
  intros s vs.
  assert (reachable s) as Hreach
    by by_history [Emplace (Some 1%Z); Emplace (Some 2%Z); Pop 0%Z].
  split; [exact Hreach|]. exact (range_push_as_pushes s vs Hreach).
Defined.

Lemma failed_range_push_shrinks_cache_witness :
  let s := state_after [Push_range [Some 1%Z; Some 2%Z; Some 3%Z]; Clear] in
  let vs := [4; 5]%Z in
  reachable s ∧
  ∃ s',
    push_range ((Some <$> vs) ++ [None; Some 6%Z]) s = Throw s' ∧
    contents s' = contents s ∧
    free_nodes s' = drop (length vs) (free_nodes s) ∧
    next_addr s'
    = bump (S (length vs) - length (free_nodes s)) (next_addr s) ∧
    allocations (trace s')
    = allocations (trace s) + (S (length vs) - length (free_nodes s)) ∧
    deallocations (trace s')
    = deallocations (trace s) + (S (length vs) - length (free_nodes s))
      + length vs `min` length (free_nodes s) ∧
    size (heap s') = size (heap s) - length vs `min` length (free_nodes s).
Proof.
  intros s vs.
  assert (reachable s) as Hreach
    by by_history [Push_range [Some 1%Z; Some 2%Z; Some 3%Z]; Clear].
  split; [exact Hreach|].
  exact (failed_range_push_shrinks_cache s vs [Some 6%Z] Hreach).
Defined.

Lemma emplace_throw_on_allocation_path_witness :
  let s := state_after [Emplace (Some 1%Z)] in
  reachable s ∧ free_nodes s = [] ∧
  ∃ s',
    emplace None s = Throw s' ∧
    new_events s s' = [Allocate (next_addr s); Construct_failed (next_addr s);
                       Deallocate (next_addr s)] ∧
    heap s' = heap s ∧ same_pointers s s' ∧
    next_addr s' = Pos.succ (next_addr s).
Proof.
  intros s.
  assert (reachable s) as Hreach by by_history [Emplace (Some 1%Z)].
  assert (free_nodes s = []) as Hfree by (vm_compute; reflexivity).
  split; [exact Hreach|]. split; [exact Hfree|].
  exact (emplace_throw_on_allocation_path s Hreach Hfree).
Defined.

Lemma drained_nodes_are_reused_witness :
  let s := state_after [Emplace (Some 1%Z); Emplace (Some 2%Z);
                        Emplace (Some 3%Z)] in
  let ws := [4; 5; 6]%Z in
  reachable s ∧ length (contents s) < 4 ∧
  length ws ≤ length (free_nodes s) + length (contents s) ∧
  ∃ s1 s2 bh bh1,
    before_head_ s = Some bh ∧
    pop_all 4 0%Z s = Ret (contents s) s1 ∧
    before_head_ s1 = Some bh1 ∧
    free_nodes s1 ++ [bh1] = free_nodes s ++ bh :: queued_nodes s ∧
    push_all ws s1 = Ret () s2 ∧
    contents s2 = ws ∧
    queued_nodes s2
    = take (length ws) (free_nodes s ++ bh :: queued_nodes s) ∧
    next_addr s2 = next_addr s ∧
    allocations (trace s2) = allocations (trace s) ∧
    deallocations (trace s2) = deallocations (trace s).
Proof.
  intros s ws.
  assert (reachable s) as Hreach
    by by_history [Emplace (Some 1%Z); Emplace (Some 2%Z); Emplace (Some 3%Z)].
  assert (length (contents s) < 4) as Hfuel by (vm_compute; lia).
  assert (length ws ≤ length (free_nodes s) + length (contents s)) as Hlen
    by (vm_compute; lia).
  split; [exact Hreach|]. split; [exact Hfuel|]. split; [exact Hlen|].
  exact (drained_nodes_are_reused s 0%Z 4 ws Hreach Hfuel Hlen).
Defined.

Lemma push_range_publishes_batch_witness :
  let s := state_after [Emplace (Some 1%Z)] in
  reachable s ∧
  ∃ s' bh t x build,
    push_range (Some <$> [2; 3; 4]%Z) s = Ret () s' ∧
    before_head_ s = Some bh ∧ tail_ s = Some t ∧
    new_events s s' = build ++ [Store_next t (Some x) mo_release] ∧
    Forall is_private build ∧
    Forall (λ e, event_nodes e ⊆ (constructed build).*1) build ∧
    (∀ a, a ∈ (constructed build).*1 → a ∉ bh :: queued_nodes s) ∧
    t ∈ bh :: queued_nodes s ∧
    head (constructed build).*1 = Some x ∧
    queued s' = queued s ++ constructed build ∧
    contents s' = contents s ++ [2; 3; 4]%Z.
Proof.
  intros s.
  assert (reachable s) as Hreach by by_history [Emplace (Some 1%Z)].
  split; [exact Hreach|].
  exact (push_range_publishes_batch s 2%Z [3; 4]%Z Hreach).
Defined.

(** The pair of two integers, compared with the integers' operators. *)
Lemma Z_ltb_strict_weak_order : strict_weak_order Z.ltb.
Proof.
  split.
  - intros x. apply Z.ltb_irrefl.
  - intros x y z. rewrite !Z.ltb_lt. lia.
  - intros x y z. rewrite !Z.ltb_ge. lia.
Qed.

Lemma Z_eqb_equivalence_test : equivalence_test Z.eqb.
Proof.
  split.
  - intros x. apply Z.eqb_refl.
  - intros x y. rewrite !Z.eqb_eq. lia.
  - intros x y z. rewrite !Z.eqb_eq. lia.
Qed.


